(** * Association mining: Apriori, Eclat and the rule generator

    A shallow embedding of [src/algorithms/apriori.py] and
    [src/algorithms/eclat.py], and the properties of the frequent-itemset
    engines and of the rule generator; then of what the application puts
    around them: [standardize_item_name] and [preprocess_transactions] of
    [src/preprocessing/preprocess.py], [basic_stats] of [src/data_io.py]
    and [rules_for_item] of [src/main.py].

    Modelling conventions.
    - [str] is [string]; [frozenset[str]] and [set[str]] are [gset string];
      a [dict] is a [gmap].  Python iterates a set or a dict in an order that
      the language leaves to the hash seed and the insertion history; the
      model iterates in the order of [elements] and [map_to_list], and no
      statement below depends on that order.
    - A Python [float] is modelled twice.  The definitions of the first part
      keep a support as the fraction it is, an exact rational [Q]:
      [count / n_trans] is the quotient itself.  [Module Binary64] has the
      engines and the rule generator on binary64 floats, which round as
      Python does; what compares the two threshold tests, or says for which
      thresholds a call returns, is stated of those.
    - A call either returns or raises; loops that Python writes with [while]
      and the recursion of Eclat run on fuel, and the theorems show that the
      fuel the entry points hand out is never exhausted.
    - [time.time()] is an oracle handed to the entry points. *)

From Stdlib Require Import QArith Qround Ascii.
From Stdlib Require Import PrimFloat.
From Stdlib Require Uint63 FloatOps SpecFloat.
From stdpp Require Import gmap strings list fin_maps fin_sets pretty sorting.

#[local] Open Scope Q_scope.
#[local] Open Scope nat_scope.

(** ** Outcomes of a call *)

Inductive exn : Set :=
  ZeroDivisionError | KeyError | TypeError | OverflowError | ValueError.

Inductive outcome (A : Type) : Type :=
  | Returns (a : A)
  | Raises (e : exn)
  | OutOfFuel.

Arguments Returns {A} a.
Arguments Raises {A} e.
Arguments OutOfFuel {A}.

#[global] Instance outcome_ret : MRet outcome := λ _ a, Returns a.
#[global] Instance outcome_bind : MBind outcome := λ _ _ f m,
  match m with
  | Returns a => f a
  | Raises e => Raises e
  | OutOfFuel => OutOfFuel
  end.

(** [for x in xs: body], threading the variables the body assigns. *)
Fixpoint for_each {A S : Type} (xs : list A) (body : A → S → outcome S)
    (st : S) : outcome S :=
  match xs with
  | [] => Returns st
  | x :: xs' => st' ← body x st; for_each xs' body st'
  end.

(** ** Python primitives *)

Abbreviation Itemset := (gset string).
Abbreviation TransactionDB := (gmap string (gset string)).
Abbreviation TIDSet := (gset string).

(** [a / b] on two [int]s. *)
Definition py_truediv_int (a b : nat) : outcome Q :=
  match b with
  | O => Raises ZeroDivisionError
  | S _ => Returns (inject_Z (Z.of_nat a) / inject_Z (Z.of_nat b))%Q
  end.

(** [a / b] on two [float]s. *)
Definition py_truediv (a b : Q) : outcome Q :=
  if Qeq_bool b 0 then Raises ZeroDivisionError else Returns (a / b)%Q.

(** [d[k]] *)
Definition dict_getitem `{Countable K} {V : Type} (d : gmap K V) (k : K)
    : outcome V :=
  match d !! k with
  | Some v => Returns v
  | None => Raises KeyError
  end.

(** [itertools.combinations(xs, r)] *)
Fixpoint combinations {A : Type} (xs : list A) (r : nat) : list (list A) :=
  match r with
  | O => [[]]
  | S r' =>
      match xs with
      | [] => []
      | x :: xs' => map (cons x) (combinations xs' r') ++ combinations xs' r
      end
  end.

(** The readings of [time.time()]: the [i]-th call returns [clock i]. *)
Definition timer := nat → Q.

(** ** Apriori *)

Definition _generate_candidates (prev_frequents : list Itemset) (k : nat)
    : list Itemset :=
  let n := length prev_frequents in
  let candidates : gset Itemset :=
    foldl (λ candidates i,
      foldl (λ candidates j,
        let union := (prev_frequents !!! i) ∪ (prev_frequents !!! j) in
        if decide (size union = k) then
          let all_subsets_frequent :=
            forallb (λ subset : list string,
                       bool_decide (list_to_set (C:=Itemset) subset ∈ prev_frequents))
                    (combinations (elements union) (k - 1)) in
          if all_subsets_frequent then candidates ∪ {[union]} else candidates
        else candidates)
      candidates (seq (i + 1) (n - (i + 1))))
    ∅ (seq 0 n) in
  elements candidates.

(** Lines 44-48: the occurrences of every single item. *)
Definition count_items (transactions : TransactionDB) : gmap string nat :=
  foldl (λ item_counts items,
    foldl (λ item_counts i, <[i := default 0 (item_counts !! i) + 1]> item_counts)
          item_counts (elements items))
    ∅ (map_to_list transactions).*2.

(** Lines 55-60 and 74-78: keep what reaches [min_support]. *)
Definition keep_frequent {K : Type} (key : K → Itemset)
    (counts : list (K * nat)) (n_trans : nat) (min_support : Q)
    (frequents : gmap Itemset Q) : outcome (gmap Itemset Q * list Itemset) :=
  for_each counts (λ '(c, count) '(frequents, Lk),
    sup ← py_truediv_int count n_trans;
    if Qle_bool min_support sup
    then Returns (<[key c := sup]> frequents, Lk ++ [key c])
    else Returns (frequents, Lk))
  (frequents, []).

(** Lines 66-71: one scan of the database for the candidates of a level. *)
Definition count_candidates (transactions : TransactionDB) (Ck : list Itemset)
    : outcome (gmap Itemset nat) :=
  let support_counts : gmap Itemset nat := foldl (λ d c, <[c := 0]> d) ∅ Ck in
  for_each (map_to_list transactions).*2 (λ items support_counts,
    for_each Ck (λ c support_counts,
      if decide (c ⊆ items) then
        count ← dict_getitem support_counts c;
        Returns (<[c := count + 1]> support_counts)
      else Returns support_counts)
    support_counts)
  support_counts.

(** Lines 63-80: [while Lk: ...], one unit of fuel per level. *)
Fixpoint apriori_levels (fuel : nat) (transactions : TransactionDB)
    (min_support : Q) (n_trans : nat) (frequents : gmap Itemset Q)
    (Lk : list Itemset) (k : nat) : outcome (gmap Itemset Q) :=
  match Lk with
  | [] => Returns frequents
  | _ :: _ =>
      match fuel with
      | O => OutOfFuel
      | S fuel' =>
          let Ck := _generate_candidates Lk k in
          support_counts ← count_candidates transactions Ck;
          '(frequents, Lk) ← keep_frequent id (map_to_list support_counts)
                                n_trans min_support frequents;
          apriori_levels fuel' transactions min_support n_trans frequents Lk (k + 1)
      end
  end.

(** The result map of [apriori], with the fuel of the level loop explicit. *)
Definition apriori_frequents (fuel : nat) (transactions : TransactionDB)
    (min_support : Q) : outcome (gmap Itemset Q) :=
  let item_counts := count_items transactions in
  let n_trans := size transactions in
  '(frequents, Lk) ← keep_frequent (λ item : string, {[item]})
                        (map_to_list item_counts) n_trans min_support ∅;
  apriori_levels fuel transactions min_support n_trans frequents Lk 2.

(** The items that occur in some transaction. *)
Definition item_universe (transactions : TransactionDB) : gset string :=
  ⋃ (map_to_list transactions).*2.

(** A level holds itemsets one item larger than the level before, so the
    loop is over after as many levels as there are distinct items. *)
Definition apriori_fuel (transactions : TransactionDB) : nat :=
  S (size (item_universe transactions)).

Definition apriori (clock : timer) (transactions : TransactionDB)
    (min_support : Q) : outcome (gmap Itemset Q * Q) :=
  let start := clock 0 in
  frequents ← apriori_frequents (apriori_fuel transactions) transactions min_support;
  let elapsed := (clock 1%nat - start)%Q in
  Returns (frequents, elapsed).

(** ** Eclat *)

Definition build_vertical_representation (transactions : TransactionDB)
    : outcome (gmap string TIDSet) :=
  for_each (map_to_list transactions) (λ '(tid, items) vertical,
    for_each (elements items) (λ item vertical,
      let vertical : gmap string TIDSet :=
        if decide (item ∉ dom vertical) then <[item := ∅]> vertical else vertical in
      tids ← dict_getitem vertical item;
      Returns (<[item := tids ∪ {[tid]}]> vertical))
    vertical)
  ∅.

(** [items_tids.pop()]: the last pair and the list without it. *)
Definition list_pop {A : Type} (l : list A) : option (A * list A) :=
  match reverse l with
  | [] => None
  | x :: r => Some (x, reverse r)
  end.

(** An iteration of [while items_tids] hands the fuel that is left both to the
    recursive call and to the rest of the loop; [results] is the dict that
    all calls write to. *)
Fixpoint _eclat_recursive (fuel : nat) (prefix : Itemset)
    (items_tids : list (string * TIDSet)) (min_support_count : Z)
    (results : gmap Itemset Q) (total_transactions : nat)
    : outcome (gmap Itemset Q) :=
  match list_pop items_tids with
  | None => Returns results
  | Some ((item, tids), items_tids) =>
      match fuel with
      | O => OutOfFuel
      | S fuel' =>
          let new_itemset := prefix ∪ {[item]} in
          let support_count := size tids in
          if bool_decide (min_support_count ≤ Z.of_nat support_count)%Z then
            support ← py_truediv_int support_count total_transactions;
            let results := <[new_itemset := support]> results in
            let new_items_tids :=
              foldl (λ new_items_tids '(other_item, other_tids),
                let inter := tids ∩ other_tids in
                if bool_decide (min_support_count ≤ Z.of_nat (size inter))%Z
                then new_items_tids ++ [(other_item, inter)]
                else new_items_tids)
              [] items_tids in
            results ← _eclat_recursive fuel' new_itemset new_items_tids
                        min_support_count results total_transactions;
            _eclat_recursive fuel' prefix items_tids min_support_count results
              total_transactions
          else
            _eclat_recursive fuel' prefix items_tids min_support_count results
              total_transactions
      end
  end.

(** The result map of [eclat], with the fuel of the search explicit. *)
Definition eclat_frequents (fuel : nat) (transactions : TransactionDB)
    (min_support : Q) : outcome (gmap Itemset Q) :=
  vertical ← build_vertical_representation transactions;
  let n_trans := size transactions in
  let min_sup_count :=
    Z.max 1 (Qceiling (min_support * inject_Z (Z.of_nat n_trans))) in
  let items_tids := map_to_list vertical in
  _eclat_recursive fuel ∅ items_tids min_sup_count ∅ n_trans.

(** The working list shrinks with every iteration and every call, and it
    starts with one pair per distinct item. *)
Definition eclat_fuel (transactions : TransactionDB) : nat :=
  size (item_universe transactions).

Definition eclat (clock : timer) (transactions : TransactionDB)
    (min_support : Q) : outcome (gmap Itemset Q * Q) :=
  let start := clock 0 in
  results ← eclat_frequents (eclat_fuel transactions) transactions min_support;
  let elapsed := (clock 1%nat - start)%Q in
  Returns (results, elapsed).

(** ** Rule generation *)

Record Rule : Type := mkRule {
  antecedent : Itemset;
  consequent : Itemset;
  support : Q;
  confidence : Q;
  lift : Q
}.

Definition generate_association_rules (frequent_itemsets : gmap Itemset Q)
    (min_confidence : Q) : outcome (list Rule) :=
  for_each (map_to_list frequent_itemsets) (λ '(itemset, sup_xy) rules,
    if decide (size itemset < 2) then Returns rules else
    let items := elements itemset in
    for_each (seq 1 (length items - 1)) (λ r rules,
      for_each (combinations items r) (λ antecedent_tuple rules,
        let antecedent : Itemset := list_to_set antecedent_tuple in
        let consequent := itemset ∖ antecedent in
        let sup_x := default 0%Q (frequent_itemsets !! antecedent) in
        let sup_y := default 0%Q (frequent_itemsets !! consequent) in
        if Qeq_bool sup_x 0 || Qeq_bool sup_y 0 then Returns rules else
        conf ← py_truediv sup_xy sup_x;
        if Qle_bool min_confidence conf then
          lift ← py_truediv conf sup_y;
          Returns (rules ++ [mkRule antecedent consequent sup_xy conf lift])
        else Returns rules)
      rules)
    rules)
  [].

Definition generate_association_rules_eclat (frequent_itemsets : gmap Itemset Q)
    (min_confidence : Q) : outcome (list Rule) :=
  generate_association_rules frequent_itemsets min_confidence.

(** ** What the engines are measured against *)

(** The number of transactions whose items include [I]. *)
Definition support_count (transactions : TransactionDB) (I : Itemset) : nat :=
  length (filter (λ items, I ⊆ items) (map_to_list transactions).*2).

Definition support_of (transactions : TransactionDB) (I : Itemset) : Q :=
  (inject_Z (Z.of_nat (support_count transactions I))
   / inject_Z (Z.of_nat (size transactions)))%Q.

(** [count / n_trans] for the count [g I] of an itemset. *)
Definition rel_support (g : Itemset → nat) (n : nat) (I : Itemset) : Q :=
  (inject_Z (Z.of_nat (g I)) / inject_Z (Z.of_nat n))%Q.

(** What the positions [i < j] of the previous level contribute to the
    candidates of size [k]: their union, when it has [k] items and all its
    subsets of [k - 1] items are in the previous level. *)
Definition joins (prev : list Itemset) (k : nat) (i j : nat) (I : Itemset) : Prop :=
  I = (prev !!! i) ∪ (prev !!! j) ∧ size I = k
  ∧ ∀ J : Itemset, J ⊆ I → size J = k - 1 → J ∈ prev.

(** What Apriori keeps: non-empty itemsets over the items of the database
    whose support reaches the threshold. *)
Definition frequent_apriori (transactions : TransactionDB) (min_support : Q)
    (I : Itemset) : Prop :=
  I ≠ ∅ ∧ I ⊆ item_universe transactions
  ∧ Qle_bool min_support (support_of transactions I) = true.

#[global] Instance frequent_apriori_dec T s I : Decision (frequent_apriori T s I).
Proof. unfold frequent_apriori. apply _. Defined.

(** The state of [apriori] on entry to the level loop with level [k]:
    [frequents] holds the frequent itemsets of fewer than [k] items and [Lk]
    those of [k - 1] items. *)
Definition level_inv (T : TransactionDB) (s : Q) (k : nat)
    (fr : gmap Itemset Q) (Lk : list Itemset) : Prop :=
  (∀ I, fr !! I = if decide (frequent_apriori T s I ∧ size I < k)
                  then Some (support_of T I) else None)
  ∧ (∀ I, I ∈ Lk ↔ frequent_apriori T s I ∧ size I = k - 1).

(** What Eclat keeps: non-empty itemsets whose count reaches the absolute
    threshold, which is at least one. *)
Definition min_sup_count (transactions : TransactionDB) (min_support : Q) : Z :=
  Z.max 1 (Qceiling (min_support * inject_Z (Z.of_nat (size transactions)))).

Definition frequent_eclat (transactions : TransactionDB) (min_support : Q)
    (I : Itemset) : Prop :=
  I ≠ ∅
  ∧ (min_sup_count transactions min_support
     ≤ Z.of_nat (support_count transactions I))%Z.

#[global] Instance frequent_eclat_dec T s I : Decision (frequent_eclat T s I).
Proof. unfold frequent_eclat. apply _. Defined.

(** The transactions that contain [I]. *)
Definition tids_of (transactions : TransactionDB) (I : Itemset) : TIDSet :=
  dom (filter (λ p : string * gset string, I ⊆ p.2) transactions).

(** The TID-set of [item] over the transactions visited so far. *)
Definition tids_in (done : list (string * gset string)) (item : string) : TIDSet :=
  list_to_set (filter (λ p : string * gset string, item ∈ p.2) done).*1.

(** [I] extends [prefix] by at least one of the items [X] of the working
    list, and by nothing else. *)
Definition extends (prefix : Itemset) (X : gset string) (I : Itemset) : Prop :=
  prefix ⊆ I ∧ I ∖ prefix ≠ ∅ ∧ I ∖ prefix ⊆ X.

#[global] Instance extends_dec prefix X I : Decision (extends prefix X I).
Proof. unfold extends. apply _. Defined.

(** What the generator emits: a split of a key of at least two items into
    two keys with non-zero support, with its three measures. *)
Definition rule_of (m : gmap Itemset Q) (min_confidence : Q) (r : Rule) : Prop :=
  ∃ (itemset : Itemset) (sup_xy sup_x sup_y : Q),
    m !! itemset = Some sup_xy
    ∧ antecedent r ⊆ itemset
    ∧ 1 ≤ size (antecedent r) < size itemset
    ∧ consequent r = itemset ∖ antecedent r
    ∧ m !! antecedent r = Some sup_x ∧ ¬ (sup_x == 0)%Q
    ∧ m !! consequent r = Some sup_y ∧ ¬ (sup_y == 0)%Q
    ∧ support r = sup_xy
    ∧ confidence r = (sup_xy / sup_x)%Q
    ∧ lift r = (sup_xy / sup_x / sup_y)%Q
    ∧ (min_confidence <= confidence r)%Q.

(** ** Concrete inputs *)

Definition zero_clock : timer := λ _, 0%Q.

(** The time that [apriori] and [eclat] report. *)
Definition elapsed (clock : timer) : Q := (clock 1%nat - clock 0%nat)%Q.

(** The database of the scenario in the testable properties:
    t1 = {a, b}, t2 = {a, b, c}, t3 = {a}, t4 = {b, c}. *)
Definition scenario_db : TransactionDB :=
  <["t1" := {["a"; "b"]}]> (<["t2" := {["a"; "b"; "c"]}]>
    (<["t3" := {["a"]}]> (<["t4" := {["b"; "c"]}]> ∅))).

(** Two transactions with nothing in common: t1 = {a}, t2 = {b}. *)
Definition disjoint_db : TransactionDB :=
  <["t1" := {["a"]}]> (<["t2" := {["b"]}]> ∅).

(** The support that a call records for an itemset, if any. *)
Definition recorded (o : outcome (gmap Itemset Q * Q)) (I : Itemset)
    : outcome (option Q) :=
  '(m, _) ← o; Returns (m !! I).

(** The result map of a call as a list of items and support. *)
Definition entries (o : outcome (gmap Itemset Q * Q))
    : outcome (list (list string * Q)) :=
  '(m, _) ← o; Returns (prod_map elements id <$> map_to_list m).

(** A rule list with the itemsets as lists of items. *)
Definition rule_entries (o : outcome (list Rule))
    : outcome (list (list string * list string * Q * Q * Q)) :=
  rules ← o;
  Returns ((λ r : Rule, (elements (antecedent r), elements (consequent r),
                  support r, confidence r, lift r)) <$> (rules : list Rule)).

(** The supports of a result map are fractions, and the support of a key is
    at most that of the keys it includes. *)
Definition supports_wf (m : gmap Itemset Q) : Prop :=
  ∀ (I : Itemset) (q : Q), m !! I = Some q →
    (0 <= q <= 1)%Q
    ∧ ∀ (J : Itemset) (q' : Q), J ⊆ I → m !! J = Some q' → (q <= q')%Q.

(** ** The store

    The entry points once more, with the objects that are passed or reached
    by reference held in a store: [set] objects (item sets and TID-sets),
    the [dict] from strings to sets (the database, the vertical index), the
    [dict] from itemsets to supports (a result map), the working lists of
    Eclat and the rule list.  Every update of such an object is a write to
    its location.  Objects that a function creates with a literal or a
    comprehension and only updates under the name it gave them
    ([item_counts], [Lk], [support_counts], [candidates]) stay values, and so
    do the immutable [str], [int], [float], [frozenset] and the rule
    records. *)
Module Store.

Definition loc := positive.

Inductive object : Type :=
  | OSet (s : gset string)
  | ODb (d : gmap string loc)
  | OFreq (m : gmap Itemset Q)
  | OWork (l : list (string * loc))
  | ORules (l : list Rule).

Abbreviation heap := (gmap loc object).

(** A statement takes the store to an outcome with the store after it. *)
Definition M (A : Type) : Type := heap → outcome (A * heap).

Definition ret {A : Type} (a : A) : M A := λ h, Returns (a, h).

Definition bind {A B : Type} (m : M A) (k : A → M B) : M B := λ h,
  match m h with
  | Returns (a, h') => k a h'
  | Raises e => Raises e
  | OutOfFuel => OutOfFuel
  end.

Definition lift {A : Type} (o : outcome A) : M A := λ h,
  match o with
  | Returns a => Returns (a, h)
  | Raises e => Raises e
  | OutOfFuel => OutOfFuel
  end.

Notation "'let*' x := m 'in' k" := (bind m (λ x, k))
  (at level 10, x pattern, m at level 100, k at level 200).
Notation "m ;; k" := (bind m (λ _, k))
  (at level 100, k at level 200, right associativity).

(** [for x in xs: body] with the variables [st] that the body assigns. *)
Definition for_in {A S : Type} (xs : list A) (body : A → S → M S) (st : S) : M S :=
  λ h, for_each xs (λ x '(st, h), body x st h) (st, h).

(** A new object. *)
Definition alloc (o : object) : M loc := λ h,
  let l := fresh (dom h) in Returns (l, <[l := o]> h).

(** An update in place of the object at [l]. *)
Definition put (l : loc) (o : object) : M unit := λ h, Returns (tt, <[l := o]> h).

Definition get_set (l : loc) : M (gset string) := λ h,
  match h !! l with Some (OSet s) => Returns (s, h) | _ => Raises TypeError end.

Definition get_db (l : loc) : M (gmap string loc) := λ h,
  match h !! l with Some (ODb d) => Returns (d, h) | _ => Raises TypeError end.

Definition get_freq (l : loc) : M (gmap Itemset Q) := λ h,
  match h !! l with Some (OFreq m) => Returns (m, h) | _ => Raises TypeError end.

Definition get_work (l : loc) : M (list (string * loc)) := λ h,
  match h !! l with Some (OWork w) => Returns (w, h) | _ => Raises TypeError end.

Definition get_rules (l : loc) : M (list Rule) := λ h,
  match h !! l with Some (ORules r) => Returns (r, h) | _ => Raises TypeError end.

(** [frequents[key] = sup] *)
Definition freq_setitem (frequents : loc) (key : Itemset) (sup : Q) : M unit :=
  let* m := get_freq frequents in put frequents (OFreq (<[key := sup]> m)).

(** Lines 44-48 of [apriori]. *)
Definition count_items (transactions : loc) : M (gmap string nat) :=
  let* d := get_db transactions in
  for_in (map_to_list d).*2 (λ items_ref item_counts,
    let* items := get_set items_ref in
    ret (foldl (λ item_counts i, <[i := default 0 (item_counts !! i) + 1]> item_counts)
               item_counts (elements items)))
  ∅.

(** Lines 55-60 and 74-78 of [apriori]. *)
Definition keep_frequent {K : Type} (key : K → Itemset) (counts : list (K * nat))
    (n_trans : nat) (min_support : Q) (frequents : loc) : M (list Itemset) :=
  for_in counts (λ '(c, count) Lk,
    let* sup := lift (py_truediv_int count n_trans) in
    if Qle_bool min_support sup
    then freq_setitem frequents (key c) sup ;; ret (Lk ++ [key c])
    else ret Lk)
  [].

(** Lines 66-71 of [apriori]. *)
Definition count_candidates (transactions : loc) (Ck : list Itemset)
    : M (gmap Itemset nat) :=
  let support_counts : gmap Itemset nat := foldl (λ d c, <[c := 0]> d) ∅ Ck in
  let* d := get_db transactions in
  for_in (map_to_list d).*2 (λ items_ref support_counts,
    let* items := get_set items_ref in
    for_in Ck (λ c support_counts,
      if decide (c ⊆ items) then
        let* count := lift (dict_getitem support_counts c) in
        ret (<[c := count + 1]> support_counts)
      else ret support_counts)
    support_counts)
  support_counts.

Fixpoint apriori_levels (fuel : nat) (transactions : loc) (min_support : Q)
    (n_trans : nat) (frequents : loc) (Lk : list Itemset) (k : nat) : M unit :=
  match Lk with
  | [] => ret tt
  | _ :: _ =>
      match fuel with
      | O => λ _, OutOfFuel
      | S fuel' =>
          let Ck := _generate_candidates Lk k in
          let* support_counts := count_candidates transactions Ck in
          let* Lk := keep_frequent id (map_to_list support_counts) n_trans
                       min_support frequents in
          apriori_levels fuel' transactions min_support n_trans frequents Lk (k + 1)
      end
  end.

Definition apriori (clock : timer) (transactions : loc) (min_support : Q)
    : M (loc * Q) :=
  let start := clock 0 in
  let* item_counts := count_items transactions in
  let* d := get_db transactions in
  let n_trans := size d in
  let* frequents := alloc (OFreq ∅) in
  let* Lk := keep_frequent (λ item : string, {[item]}) (map_to_list item_counts)
               n_trans min_support frequents in
  apriori_levels (S (size item_counts)) transactions min_support n_trans
    frequents Lk 2 ;;
  let elapsed := (clock 1%nat - start)%Q in
  ret (frequents, elapsed).

(** [vertical[item].add(tid)] is a write to the set that the index holds
    under [item]. *)
Definition build_vertical_representation (transactions : loc) : M loc :=
  let* vertical := alloc (ODb ∅) in
  let* d := get_db transactions in
  for_in (map_to_list d) (λ '(tid, items_ref) _,
    let* items := get_set items_ref in
    for_in (elements items) (λ item _,
      let* vd := get_db vertical in
      (if decide (item ∉ dom vd) then
         let* new := alloc (OSet ∅) in put vertical (ODb (<[item := new]> vd))
       else ret tt) ;;
      let* vd := get_db vertical in
      let* tids_ref := lift (dict_getitem vd item) in
      let* tids := get_set tids_ref in
      put tids_ref (OSet (tids ∪ {[tid]})))
    tt)
  tt ;;
  ret vertical.

(** [items_tids] and [results] are the list and the dict of the caller:
    [pop] and the assignment write to them. *)
Fixpoint _eclat_recursive (fuel : nat) (prefix : Itemset) (items_tids : loc)
    (min_support_count : Z) (results : loc) (total_transactions : nat) : M unit :=
  let* work := get_work items_tids in
  match list_pop work with
  | None => ret tt
  | Some ((item, tids), rest) =>
      match fuel with
      | O => λ _, OutOfFuel
      | S fuel' =>
          put items_tids (OWork rest) ;;
          let new_itemset := prefix ∪ {[item]} in
          let* tids_now := get_set tids in
          let support_count := size tids_now in
          if bool_decide (min_support_count ≤ Z.of_nat support_count)%Z then
            let* support := lift (py_truediv_int support_count total_transactions) in
            freq_setitem results new_itemset support ;;
            let* new_items_tids := alloc (OWork []) in
            let* work := get_work items_tids in
            for_in work (λ '(other_item, other_tids) _,
              let* s1 := get_set tids in
              let* s2 := get_set other_tids in
              let* inter := alloc (OSet (s1 ∩ s2)) in
              let* s := get_set inter in
              if bool_decide (min_support_count ≤ Z.of_nat (size s))%Z then
                let* new_work := get_work new_items_tids in
                put new_items_tids (OWork (new_work ++ [(other_item, inter)]))
              else ret tt)
            tt ;;
            _eclat_recursive fuel' new_itemset new_items_tids min_support_count
              results total_transactions ;;
            _eclat_recursive fuel' prefix items_tids min_support_count results
              total_transactions
          else
            _eclat_recursive fuel' prefix items_tids min_support_count results
              total_transactions
      end
  end.

Definition eclat (clock : timer) (transactions : loc) (min_support : Q)
    : M (loc * Q) :=
  let start := clock 0 in
  let* vertical := build_vertical_representation transactions in
  let* d := get_db transactions in
  let n_trans := size d in
  let min_sup_count :=
    Z.max 1 (Qceiling (min_support * inject_Z (Z.of_nat n_trans))) in
  let* vd := get_db vertical in
  let* items_tids := alloc (OWork (map_to_list vd)) in
  let* results := alloc (OFreq ∅) in
  _eclat_recursive (length (map_to_list vd)) ∅ items_tids min_sup_count results
    n_trans ;;
  let elapsed := (clock 1%nat - start)%Q in
  ret (results, elapsed).

Definition generate_association_rules (frequent_itemsets : loc)
    (min_confidence : Q) : M loc :=
  let* rules := alloc (ORules []) in
  let* m := get_freq frequent_itemsets in
  for_in (map_to_list m) (λ '(itemset, sup_xy) _,
    if decide (size itemset < 2) then ret tt else
    let items := elements itemset in
    for_in (seq 1 (length items - 1)) (λ r _,
      for_in (combinations items r) (λ antecedent_tuple _,
        let antecedent : Itemset := list_to_set antecedent_tuple in
        let consequent := itemset ∖ antecedent in
        let* m := get_freq frequent_itemsets in
        let sup_x := default 0%Q (m !! antecedent) in
        let* m := get_freq frequent_itemsets in
        let sup_y := default 0%Q (m !! consequent) in
        if Qeq_bool sup_x 0 || Qeq_bool sup_y 0 then ret tt else
        let* conf := lift (py_truediv sup_xy sup_x) in
        if Qle_bool min_confidence conf then
          let* lift_ := lift (py_truediv conf sup_y) in
          let* rs := get_rules rules in
          put rules (ORules (rs ++ [mkRule antecedent consequent sup_xy conf lift_]))
        else ret tt)
      tt)
    tt)
  tt ;;
  ret rules.

(** The database that the store holds at [transactions]. *)
Definition db_at (h : heap) (transactions : loc) : option TransactionDB :=
  match h !! transactions with
  | Some (ODb d) =>
      Some (omap (λ l, match h !! l with Some (OSet s) => Some s | _ => None end) d)
  | _ => None
  end.

(** The result map that the store holds at the location a call returned. *)
Definition freq_at {A : Type} (o : outcome ((loc * A) * heap))
    : outcome (option (gmap Itemset Q)) :=
  '((r, _), h) ← o;
  Returns (match h !! r with Some (OFreq m) => Some m | _ => None end).

End Store.

(** If the statement [m] returns from a store that satisfies [P], the value
    and the store it returns satisfy [Q]. *)
Definition triple {A : Type} (P : Store.heap → Prop) (m : Store.M A)
    (Q : A → Store.heap → Prop) : Prop :=
  ∀ h a h', P h → m h = Returns (a, h') → Q a h'.

(** The store [h] still holds every object of [h0] unchanged, and the
    locations [X] are allocated in it. *)
Definition frame (h0 : Store.heap) (X : gset Store.loc) (h : Store.heap) : Prop :=
  h0 ⊆ h ∧ X ⊆ dom h.

(** The store holds the database [T] at [transactions]. *)
Definition holds_db (h : Store.heap) (transactions : Store.loc)
    (T : TransactionDB) : Prop :=
  ∃ d, h !! transactions = Some (Store.ODb d)
    ∧ ∀ tid, option_Forall2 (λ l items, h !! l = Some (Store.OSet items))
                            (d !! tid) (T !! tid).

(** Every set that the index at [vertical] holds was made after [h0]. *)
Definition index_owned (h0 : Store.heap) (vertical : Store.loc) (h : Store.heap) : Prop :=
  ∀ vd, h !! vertical = Some (Store.ODb vd) →
    ∀ item l, vd !! item = Some l → l ∉ dom h0.

(** The set that the store holds at [l]. *)
Definition set_at (h : Store.heap) (l : Store.loc) : gset string :=
  match h !! l with Some (Store.OSet s) => s | _ => ∅ end.

(** A run on the store against a run of the value-passing embedding: both
    return, with related results, or both raise the same exception, or both
    run out of fuel. *)
Definition refines {A B : Type} (R : A → Store.heap → B → Prop)
    (o : outcome (A * Store.heap)) (p : outcome B) : Prop :=
  match o, p with
  | Returns (a, h), Returns b => R a h b
  | Raises e, Raises e' => e = e'
  | OutOfFuel, OutOfFuel => True
  | _, _ => False
  end.

(** The index at [vertical] against the index [v] of the value-passing
    embedding: the dict [vd] refers, under the items of [v], to sets made
    after [h0], one set per item, and [h0] is unchanged. *)
Definition index_rel (h0 : Store.heap) (vertical : Store.loc) (h : Store.heap)
    (vd : gmap string Store.loc) (v : gmap string TIDSet) : Prop :=
  h0 ⊆ h
  ∧ h !! vertical = Some (Store.ODb vd)
  ∧ v = set_at h <$> vd
  ∧ (∀ item l, vd !! item = Some l →
       h !! l = Some (Store.OSet (set_at h l)) ∧ l ∉ dom h0)
  ∧ ∀ i j l, vd !! i = Some l → vd !! j = Some l → i = j.

(** A list of items with the locations of their TID sets against the list
    of items with their TID sets. *)
Definition work_rel (h : Store.heap) (w : list (string * Store.loc))
    (its : list (string * TIDSet)) : Prop :=
  Forall2 (λ x y, x.1 = y.1 ∧ h !! x.2 = Some (Store.OSet y.2)) w its.

(** Every object of [h] outside [X] is unchanged in [h']. *)
Definition unchanged_but (X : gset Store.loc) (h h' : Store.heap) : Prop :=
  ∀ l, l ∈ dom h → l ∉ X → h' !! l = h !! l.

(** A store made for a database: one set object per transaction and the
    dict that refers to them. *)
Definition new_db (T : TransactionDB) : Store.M Store.loc :=
  Store.bind
    (Store.for_in (map_to_list T) (λ '(tid, items) d,
       Store.bind (Store.alloc (Store.OSet items)) (λ l, Store.ret (<[tid := l]> d)))
     ∅)
    (λ d, Store.alloc (Store.ODb d)).

Definition returns {A : Type} (o : outcome A) : bool :=
  match o with Returns _ => true | _ => false end.

(** The store and the location of the scenario's database. *)
Definition scenario_store : Store.loc * Store.heap :=
  match new_db scenario_db ∅ with
  | Returns r => r
  | _ => (1%positive, ∅)
  end.

(** The entries of the result map that a call on the store returned. *)
Definition store_entries {A : Type} (o : outcome ((Store.loc * A) * Store.heap))
    : outcome (list (list string * Q)) :=
  m ← Store.freq_at o;
  Returns (prod_map elements id <$> map_to_list (default ∅ m)).

(** ** The engines in binary64

    Python's [float] is IEEE 754 binary64, which is what the primitive floats
    compute.  The definitions above keep the supports as the fractions they
    are; the ones of this module round as Python does, and they decide what
    depends on rounding: which counts pass a threshold, and whether a call
    returns.  The two engines test a count differently: Apriori compares the
    rounded quotient [count / n_trans] with [min_support], Eclat compares
    the count with the ceiling of the rounded product
    [min_support * n_trans]. *)
Module Binary64.

(** [float(n)], which is exact below 2^53. *)
Definition of_int (n : nat) : float :=
  PrimFloat.of_uint63 (Uint63.of_Z (Z.of_nat n)).

(** The databases of fewer than 2^53 transactions.  No count exceeds the
    number of transactions, and on [int]s below 2^53 Python's [a / b] is the
    float quotient of the two conversions. *)
Definition fits (transactions : TransactionDB) : Prop :=
  (Z.of_nat (size transactions) < 2 ^ 53)%Z.

(** [math.ceil]; it raises on an infinity and on a NaN. *)
Definition math_ceil (x : float) : outcome Z :=
  match FloatOps.Prim2SF x with
  | SpecFloat.S754_zero _ => Returns 0%Z
  | SpecFloat.S754_finite s m e =>
      let n := if s then Z.neg m else Z.pos m in
      Returns (if (0 <=? e)%Z then n * 2 ^ e else - ((- n) / 2 ^ (- e)))%Z
  | SpecFloat.S754_infinity _ => Raises OverflowError
  | SpecFloat.S754_nan => Raises ValueError
  end.

(** [a / b] on two [int]s. *)
Definition py_truediv_int (a b : nat) : outcome float :=
  match b with
  | O => Raises ZeroDivisionError
  | S _ => Returns (PrimFloat.div (of_int a) (of_int b))
  end.

(** [a / b] on two [float]s: only a zero divisor raises. *)
Definition py_truediv (a b : float) : outcome float :=
  if PrimFloat.eqb b PrimFloat.zero then Raises ZeroDivisionError
  else Returns (PrimFloat.div a b).

Definition timer := nat → float.

(** *** Apriori *)

(** Lines 55-60 and 74-78. *)
Definition keep_frequent {K : Type} (key : K → Itemset)
    (counts : list (K * nat)) (n_trans : nat) (min_support : float)
    (frequents : gmap Itemset float)
    : outcome (gmap Itemset float * list Itemset) :=
  for_each counts (λ '(c, count) '(frequents, Lk),
    sup ← py_truediv_int count n_trans;
    if PrimFloat.leb min_support sup
    then Returns (<[key c := sup]> frequents, Lk ++ [key c])
    else Returns (frequents, Lk))
  (frequents, []).

(** Lines 63-80. *)
Fixpoint apriori_levels (fuel : nat) (transactions : TransactionDB)
    (min_support : float) (n_trans : nat) (frequents : gmap Itemset float)
    (Lk : list Itemset) (k : nat) : outcome (gmap Itemset float) :=
  match Lk with
  | [] => Returns frequents
  | _ :: _ =>
      match fuel with
      | O => OutOfFuel
      | S fuel' =>
          let Ck := _generate_candidates Lk k in
          support_counts ← count_candidates transactions Ck;
          '(frequents, Lk) ← keep_frequent id (map_to_list support_counts)
                                n_trans min_support frequents;
          apriori_levels fuel' transactions min_support n_trans frequents Lk (k + 1)
      end
  end.

Definition apriori_frequents (fuel : nat) (transactions : TransactionDB)
    (min_support : float) : outcome (gmap Itemset float) :=
  let item_counts := count_items transactions in
  let n_trans := size transactions in
  '(frequents, Lk) ← keep_frequent (λ item : string, {[item]})
                        (map_to_list item_counts) n_trans min_support ∅;
  apriori_levels fuel transactions min_support n_trans frequents Lk 2.

Definition apriori (clock : timer) (transactions : TransactionDB)
    (min_support : float) : outcome (gmap Itemset float * float) :=
  let start := clock 0 in
  frequents ← apriori_frequents (apriori_fuel transactions) transactions min_support;
  let elapsed := PrimFloat.sub (clock 1) start in
  Returns (frequents, elapsed).

(** *** Eclat *)

Fixpoint _eclat_recursive (fuel : nat) (prefix : Itemset)
    (items_tids : list (string * TIDSet)) (min_support_count : Z)
    (results : gmap Itemset float) (total_transactions : nat)
    : outcome (gmap Itemset float) :=
  match list_pop items_tids with
  | None => Returns results
  | Some ((item, tids), items_tids) =>
      match fuel with
      | O => OutOfFuel
      | S fuel' =>
          let new_itemset := prefix ∪ {[item]} in
          let support_count := size tids in
          if bool_decide (min_support_count ≤ Z.of_nat support_count)%Z then
            support ← py_truediv_int support_count total_transactions;
            let results := <[new_itemset := support]> results in
            let new_items_tids :=
              foldl (λ new_items_tids '(other_item, other_tids),
                let inter := tids ∩ other_tids in
                if bool_decide (min_support_count ≤ Z.of_nat (size inter))%Z
                then new_items_tids ++ [(other_item, inter)]
                else new_items_tids)
              [] items_tids in
            results ← _eclat_recursive fuel' new_itemset new_items_tids
                        min_support_count results total_transactions;
            _eclat_recursive fuel' prefix items_tids min_support_count results
              total_transactions
          else
            _eclat_recursive fuel' prefix items_tids min_support_count results
              total_transactions
      end
  end.

(** Line 76: [min_sup_count = max(1, math.ceil(min_support * n_trans))]. *)
Definition min_sup_count (min_support : float) (n_trans : nat) : outcome Z :=
  c ← math_ceil (PrimFloat.mul min_support (of_int n_trans));
  Returns (Z.max 1 c).

Definition eclat_frequents (fuel : nat) (transactions : TransactionDB)
    (min_support : float) : outcome (gmap Itemset float) :=
  vertical ← build_vertical_representation transactions;
  let n_trans := size transactions in
  min_sup_count ← min_sup_count min_support n_trans;
  let items_tids := map_to_list vertical in
  _eclat_recursive fuel ∅ items_tids min_sup_count ∅ n_trans.

Definition eclat (clock : timer) (transactions : TransactionDB)
    (min_support : float) : outcome (gmap Itemset float * float) :=
  let start := clock 0 in
  results ← eclat_frequents (eclat_fuel transactions) transactions min_support;
  let elapsed := PrimFloat.sub (clock 1) start in
  Returns (results, elapsed).

(** *** Rule generation *)

Record Rule : Type := mkRule {
  antecedent : Itemset;
  consequent : Itemset;
  support : float;
  confidence : float;
  lift : float
}.

Definition generate_association_rules (frequent_itemsets : gmap Itemset float)
    (min_confidence : float) : outcome (list Rule) :=
  for_each (map_to_list frequent_itemsets) (λ '(itemset, sup_xy) rules,
    if decide (size itemset < 2) then Returns rules else
    let items := elements itemset in
    for_each (seq 1 (length items - 1)) (λ r rules,
      for_each (combinations items r) (λ antecedent_tuple rules,
        let antecedent : Itemset := list_to_set antecedent_tuple in
        let consequent := itemset ∖ antecedent in
        let sup_x := default PrimFloat.zero (frequent_itemsets !! antecedent) in
        let sup_y := default PrimFloat.zero (frequent_itemsets !! consequent) in
        if PrimFloat.eqb sup_x PrimFloat.zero || PrimFloat.eqb sup_y PrimFloat.zero
        then Returns rules else
        conf ← py_truediv sup_xy sup_x;
        if PrimFloat.leb min_confidence conf then
          lift ← py_truediv conf sup_y;
          Returns (rules ++ [mkRule antecedent consequent sup_xy conf lift])
        else Returns rules)
      rules)
    rules)
  [].

Definition generate_association_rules_eclat
    (frequent_itemsets : gmap Itemset float) (min_confidence : float)
    : outcome (list Rule) :=
  generate_association_rules frequent_itemsets min_confidence.

(** *** What the engines are measured against *)

(** The support that both engines record for an itemset. *)
Definition support_of (transactions : TransactionDB) (I : Itemset) : float :=
  PrimFloat.div (of_int (support_count transactions I))
                (of_int (size transactions)).

(** The test of [apriori], lines 56-57 and 75-76: [sup = count / n_trans] and
    [sup >= min_support]. *)
Definition apriori_keeps (count n_trans : nat) (min_support : float) : bool :=
  let sup := PrimFloat.div (of_int count) (of_int n_trans) in
  PrimFloat.leb min_support sup.

(** The test of [eclat], line 76, and of [_eclat_recursive], line 44:
    [support_count >= min_support_count]. *)
Definition eclat_keeps (support_count n_trans : nat) (min_support : float)
    : outcome bool :=
  min_sup_count ← min_sup_count min_support n_trans;
  Returns (bool_decide (min_sup_count ≤ Z.of_nat support_count)%Z).

(** The two tests say the same of every count that a database of [n_trans]
    transactions can give. *)
Definition tests_agree (n_trans : nat) (min_support : float) : Prop :=
  ∀ count : nat, count ≤ n_trans →
    eclat_keeps count n_trans min_support
    = Returns (apriori_keeps count n_trans min_support).

(** What Apriori keeps: the non-empty itemsets over the items of the
    database of which every non-empty part passes the test.  A level is
    built from the level before only, so an itemset is reached through its
    parts. *)
Definition kept_by_apriori (transactions : TransactionDB) (min_support : float)
    (I : Itemset) : Prop :=
  I ≠ ∅ ∧ I ⊆ item_universe transactions
  ∧ ∀ J : Itemset, J ≠ ∅ → J ⊆ I →
      apriori_keeps (support_count transactions J) (size transactions)
        min_support = true.

(** What Eclat keeps at the absolute threshold [min_sup_count]. *)
Definition kept_by_eclat (transactions : TransactionDB) (min_sup_count : Z)
    (I : Itemset) : Prop :=
  I ≠ ∅ ∧ (min_sup_count ≤ Z.of_nat (support_count transactions I))%Z.

#[global] Instance kept_by_eclat_dec T c I : Decision (kept_by_eclat T c I).
Proof. unfold kept_by_eclat. apply _. Defined.

(** The state of [apriori] on entry to the level loop with level [k]. *)
Definition level_inv (T : TransactionDB) (s : float) (k : nat)
    (fr : gmap Itemset float) (Lk : list Itemset) : Prop :=
  (∀ I v, fr !! I = Some v
          ↔ (kept_by_apriori T s I ∧ size I < k) ∧ v = support_of T I)
  ∧ (∀ I, I ∈ Lk ↔ kept_by_apriori T s I ∧ size I = k - 1).

(** *** Concrete inputs *)

Definition zero_clock : timer := λ _, PrimFloat.zero.

(** The time that [apriori] and [eclat] report. *)
Definition elapsed (clock : timer) : float :=
  PrimFloat.sub (clock 1) (clock 0).

(** The support that a call records for an itemset, if any. *)
Definition recorded (o : outcome (gmap Itemset float * float)) (I : Itemset)
    : outcome (option float) :=
  '(m, _) ← o; Returns (m !! I).

(** The result map of a call as a list of items and support. *)
Definition entries (o : outcome (gmap Itemset float * float))
    : outcome (list (list string * float)) :=
  '(m, _) ← o; Returns (prod_map elements id <$> map_to_list m).

(** A rule list with the itemsets as lists of items. *)
Definition rule_entries (o : outcome (list Rule))
    : outcome (list (list string * list string * float * float * float)) :=
  rules ← o;
  Returns ((λ r : Rule, (elements (antecedent r), elements (consequent r),
                  support r, confidence r, lift r)) <$> (rules : list Rule)).

(** The binary64 value that the literal [0.28] denotes:
    5044031582654956 * 2^-54. *)
Definition min_support_028 : float :=
  FloatOps.SF2Prim (SpecFloat.S754_finite false 5044031582654956 (-54)).

(** The largest power of two in binary64, 2^1023. *)
Definition huge : float :=
  FloatOps.SF2Prim (SpecFloat.S754_finite false 4503599627370496 971).

(** Twenty-five transactions t0, ..., t24, of which the first seven hold the
    item a and the others nothing. *)
Definition tie_db : TransactionDB :=
  list_to_map ((λ i : nat, (String "t" (pretty i),
                            if decide (i < 7) then {["a"]} else ∅))
               <$> seq 0 25).

End Binary64.

(** ** Item names

    [standardize_item_name] of [src/preprocessing/preprocess.py].  A [str]
    is the sequence of its code points, and a [string] holds the code points
    below 256. *)

(** [c.isspace()]: the code points 9 to 13, 28 to 32, 133 and 160.  These
    are also what [\s] matches and what [strip()] removes. *)
Definition isspace (c : ascii) : bool :=
  let n := nat_of_ascii c in
  ((9 <=? n) && (n <=? 13)) || ((28 <=? n) && (n <=? 32))
  || (n =? 133) || (n =? 160).

(** [c.lower()] on one code point below 256: A to Z, and the letters from
    192 to 222 but for the multiplication sign 215, move up by 32. *)
Definition lower_char (c : ascii) : ascii :=
  let n := nat_of_ascii c in
  if ((65 <=? n) && (n <=? 90)) || ((192 <=? n) && (n <=? 222) && negb (n =? 215))
  then ascii_of_nat (n + 32) else c.

(** [s.lower()] *)
Fixpoint str_lower (s : string) : string :=
  match s with
  | EmptyString => EmptyString
  | String c s' => String (lower_char c) (str_lower s')
  end.

Fixpoint str_lstrip (s : string) : string :=
  match s with
  | EmptyString => EmptyString
  | String c s' => if isspace c then str_lstrip s' else s
  end.

Fixpoint str_rstrip (s : string) : string :=
  match s with
  | EmptyString => EmptyString
  | String c s' =>
      match str_rstrip s' with
      | EmptyString => if isspace c then EmptyString else String c EmptyString
      | r => String c r
      end
  end.

(** [s.strip()] *)
Definition str_strip (s : string) : string := str_rstrip (str_lstrip s).

(** [re.sub(r"\s+", " ", s)]: every maximal run of whitespace becomes one
    space; [in_run] says that the code point before was whitespace. *)
Fixpoint re_sub_whitespace (in_run : bool) (s : string) : string :=
  match s with
  | EmptyString => EmptyString
  | String c s' =>
      if isspace c then
        if in_run then re_sub_whitespace true s'
        else String " " (re_sub_whitespace true s')
      else String c (re_sub_whitespace false s')
  end.

(** [name] is a [str], which [str(name)] returns as it is. *)
Definition standardize_item_name (name : string) : string :=
  str_lower (re_sub_whitespace false (str_strip name)).

(** A name in the form that [standardize_item_name] gives: after the first
    code point, whitespace is one space with a code point after it that is
    not whitespace, and no code point has a lower case of its own. *)
Fixpoint standard_tail (s : string) : bool :=
  match s with
  | EmptyString => true
  | String c s' =>
      bool_decide (lower_char c = c)
      && (if isspace c then
            bool_decide (c = " "%char)
            && match s' with
               | EmptyString => false
               | String d _ => negb (isspace d)
               end
          else true)
      && standard_tail s'
  end.

Definition standard_name (s : string) : bool :=
  match s with
  | EmptyString => true
  | String c _ => negb (isspace c) && standard_tail s
  end.

(** ** Preprocessing

    [preprocess_transactions] of [src/preprocessing/preprocess.py]. *)

(** The variables that the loop of [preprocess_transactions] assigns. *)
Record Cleaning := mkCleaning {
  empty_transactions : nat;
  single_item_transactions : nat;
  invalid_items_count : Z;
  removed_transactions : nat;
  total_cleaned_items : nat;
  cleaned : TransactionDB
}.

(** Lines 46-69: what the loop does with one transaction. *)
Definition clean_transaction (valid_products : gset string) (st : Cleaning)
    (tid : string) (items : gset string) : Cleaning :=
  let std_items : gset string := set_map standardize_item_name items in
  let valid_items : gset string :=
    if decide (valid_products ≠ ∅)
    then filter (λ i, i ∈ valid_products) std_items
    else std_items in
  let invalid_items_count :=
    if decide (valid_products ≠ ∅)
    then (invalid_items_count st
          + (Z.of_nat (size std_items) - Z.of_nat (size valid_items)))%Z
    else invalid_items_count st in
  if decide (size valid_items = 0) then
    mkCleaning (empty_transactions st + 1) (single_item_transactions st)
      invalid_items_count (removed_transactions st + 1)
      (total_cleaned_items st) (cleaned st)
  else if decide (size valid_items = 1) then
    mkCleaning (empty_transactions st) (single_item_transactions st + 1)
      invalid_items_count (removed_transactions st + 1)
      (total_cleaned_items st) (cleaned st)
  else
    mkCleaning (empty_transactions st) (single_item_transactions st)
      invalid_items_count (removed_transactions st)
      (total_cleaned_items st + size valid_items)
      (<[tid := valid_items]> (cleaned st)).

(** Lines 38-69: the counters and the loop over the transactions. *)
Definition clean_transactions (transactions : TransactionDB)
    (valid_products : gset string) : Cleaning :=
  foldl (λ st '(tid, items), clean_transaction valid_products st tid items)
        (mkCleaning 0 0 0 0 0 ∅) (map_to_list transactions).

(** ["\n".join(lines)] *)
Fixpoint join_lines (lines : list string) : string :=
  match lines with
  | [] => EmptyString
  | [l] => l
  | l :: ls => l +:+ String "010" (join_lines ls)
  end.

(** Lines 77-93: the lines of the report; an [int] in an f-string is its
    decimal numeral. *)
Definition report_lines (before_count empty_transactions single_item_transactions
    : nat) (invalid_items_count : Z)
    (after_count total_cleaned_items unique_products removed_transactions : nat)
    : list string :=
  [ "Preprocessing Report:";
    "---------------------";
    "Before Cleaning:";
    "- Total transactions: " +:+ pretty before_count;
    "- Empty transactions (or became empty): " +:+ pretty empty_transactions;
    "- Single-item transactions: " +:+ pretty single_item_transactions;
    "- Invalid items removed: " +:+ pretty invalid_items_count;
    EmptyString;
    "After Cleaning:";
    "- Valid transactions: " +:+ pretty after_count;
    "- Total items (after cleaning): " +:+ pretty total_cleaned_items;
    "- Unique products: " +:+ pretty unique_products;
    "- Transactions removed: " +:+ pretty removed_transactions ].

Definition preprocess_transactions (transactions : TransactionDB)
    (valid_products : gset string) : TransactionDB * string :=
  let before_count := size transactions in
  let st := clean_transactions transactions valid_products in
  let after_count := size (cleaned st) in
  let all_clean_items : gset string :=
    if decide (cleaned st ≠ ∅) then ⋃ (map_to_list (cleaned st)).*2 else ∅ in
  let report :=
    join_lines (report_lines before_count (empty_transactions st)
      (single_item_transactions st) (invalid_items_count st) after_count
      (total_cleaned_items st) (size all_clean_items) (removed_transactions st)) in
  (cleaned st, report).

(** ** Statistics

    [basic_stats] of [src/data_io.py]; the dict it returns has these three
    keys. *)
Record Stats := mkStats {
  transaction_count : nat;
  total_items : nat;
  unique_items : nat
}.

Definition basic_stats (transactions : TransactionDB) : Stats :=
  let '(all_items, total_items) :=
    foldl (λ '(all_items, total_items) (items : gset string),
             (all_items ∪ items, total_items + size items))
          ((∅ : gset string), 0) (map_to_list transactions).*2 in
  mkStats (size transactions) total_items (size all_items).

(** What [preprocess_transactions] makes of the items of one transaction. *)
Definition clean_items (valid_products : gset string) (items : gset string)
    : gset string :=
  let std_items : gset string := set_map standardize_item_name items in
  if decide (valid_products ≠ ∅)
  then filter (λ i, i ∈ valid_products) std_items
  else std_items.

(** The sum of the counts of a [dict] of counts. *)
Definition sum_counts `{Countable K} (m : gmap K nat) : nat :=
  sum_list (map_to_list m).*2.

(** ** Recommendations

    [rules_for_item] of [src/main.py]. *)

(** [a < b] on two pairs of [float]s: the first components decide unless
    they are equal. *)
Definition pair_lt (a b : Q * Q) : bool :=
  match (a.1 ?= b.1)%Q with
  | Lt => true
  | Eq => match (a.2 ?= b.2)%Q with Lt => true | _ => false end
  | Gt => false
  end.

(** [l.sort(key=key, reverse=True)]: the sort is stable, so its result is
    the one list that holds the elements of [l] with larger keys first and
    equal keys in the order they had; inserting the elements from the last
    to the first gives that list. *)
Fixpoint insert_descending {A : Type} (key : A → Q * Q) (x : A) (l : list A)
    : list A :=
  match l with
  | [] => [x]
  | y :: l' =>
      if pair_lt (key x) (key y) then y :: insert_descending key x l'
      else x :: l
  end.

Definition list_sort_reverse {A : Type} (key : A → Q * Q) (l : list A) : list A :=
  foldr (insert_descending key) [] l.

Definition rules_for_item (rules : list Rule) (item : string) : list Rule :=
  let item_std := standardize_item_name item in
  let filtered := filter (λ r, item_std ∈ antecedent r) rules in
  list_sort_reverse (λ x, (confidence x, support x)) filtered.

(** [a >= b] on the sort keys of two rules. *)
Definition key_ge (a b : Rule) : Prop :=
  (confidence b < confidence a)%Q
  ∨ ((confidence a == confidence b)%Q ∧ (support b <= support a)%Q).

(** The two rules have the same sort key. *)
Definition key_eq (a b : Rule) : Prop :=
  (confidence a == confidence b)%Q ∧ (support a == support b)%Q.

#[global] Instance key_eq_dec a b : Decision (key_eq a b).
Proof.
  unfold key_eq.
  destruct (Qeq_dec (confidence a) (confidence b));
    destruct (Qeq_dec (support a) (support b)); [left|right..]; tauto.
Defined.

(** A store with a TID-set, a list with one entry that refers to it, and an
    empty result map. *)
Definition work_store : Store.heap :=
  {[ 1%positive := Store.OSet {[ "t1" ]};
     2%positive := Store.OWork [("a", 1%positive)];
     3%positive := Store.OFreq ∅ ]}.

(** * Properties *)

(** ** Loops *)

Lemma for_each_app {A S} (xs ys : list A) (body : A → S → outcome S) st :
  for_each (xs ++ ys) body st = st' ← for_each xs body st; for_each ys body st'.
Proof.
  revert st. induction xs as [|x xs IH]; intros st; simpl; [done|].
  destruct (body x st) as [st'| |]; simpl; [apply IH|done|done].
Qed.

(** The invariant rule for a [for] loop whose body always returns: [P done st]
    relates the elements already visited to the variables. *)
Lemma for_each_inv {A S} (P : list A → S → Prop) (xs : list A)
    (body : A → S → outcome S) (st : S) :
  P [] st →
  (∀ done x rest st, xs = done ++ x :: rest → P done st →
     ∃ st', body x st = Returns st' ∧ P (done ++ [x]) st') →
  ∃ st', for_each xs body st = Returns st' ∧ P xs st'.
Proof.
  intros H0 Hstep.
  cut (∀ rest done st, xs = done ++ rest → P done st →
         ∃ st', for_each rest body st = Returns st' ∧ P xs st').
  { intros Hc. apply (Hc xs [] st); done. }
  induction rest as [|x rest IH]; intros done st1 Hxs HP; simpl.
  - exists st1. split; [done|]. by rewrite Hxs, app_nil_r.
  - destruct (Hstep done x rest st1 Hxs HP) as (st2 & -> & HP2). simpl.
    apply (IH (done ++ [x])); [|done]. by rewrite <- app_assoc.
Qed.

Lemma foldl_inv {A B} (P : list B → A → Prop) (f : A → B → A) (xs : list B) (a : A) :
  P [] a →
  (∀ done x rest a, xs = done ++ x :: rest → P done a → P (done ++ [x]) (f a x)) →
  P xs (foldl f a xs).
Proof.
  intros H0 Hstep.
  cut (∀ rest done a, xs = done ++ rest → P done a → P xs (foldl f a rest)).
  { intros Hc. apply (Hc xs [] a); done. }
  induction rest as [|x rest IH]; intros done a1 Hxs HP; simpl.
  - by rewrite Hxs, app_nil_r.
  - apply (IH (done ++ [x])); [by rewrite <- app_assoc|]. by eapply Hstep.
Qed.

(** ** Counting transactions *)

Lemma length_filter_mono {A} (P1 P2 : A → Prop) `{∀ x, Decision (P1 x)}
    `{∀ x, Decision (P2 x)} (l : list A) :
  (∀ x, x ∈ l → P1 x → P2 x) → length (filter P1 l) ≤ length (filter P2 l).
Proof.
  induction l as [|x l IH]; intros Himp; [done|].
  rewrite !filter_cons.
  assert (length (filter P1 l) ≤ length (filter P2 l)) as Hle.
  { apply IH. intros y Hy. apply Himp. by right. }
  destruct (decide (P1 x)) as [HP|HP].
  - rewrite decide_True by (apply Himp; [left|done]). simpl. lia.
  - destruct (decide (P2 x)); simpl; lia.
Qed.

Lemma support_count_anti T (I J : Itemset) :
  J ⊆ I → support_count T I ≤ support_count T J.
Proof.
  intros HJI. apply length_filter_mono. intros items _ HI. set_solver.
Qed.

Lemma support_count_le_size T (I : Itemset) : support_count T I ≤ size T.
Proof.
  unfold support_count. etrans; [apply length_filter|].
  by rewrite length_fmap, length_map_to_list.
Qed.

Lemma support_count_pos_universe T (I : Itemset) :
  0 < support_count T I → I ⊆ item_universe T.
Proof.
  unfold support_count, item_universe. intros Hpos.
  destruct (filter (λ items, I ⊆ items) (map_to_list T).*2) as [|items l] eqn:Hf;
    [simpl in Hpos; lia|].
  assert (items ∈ filter (λ items, I ⊆ items) (map_to_list T).*2) as Hin
    by (rewrite Hf; left).
  apply list_elem_of_filter in Hin as [HI Hin].
  intros x Hx. apply elem_of_union_list. exists items. split; [done|]. by apply HI.
Qed.

Lemma item_universe_size T x : x ∈ item_universe T → 0 < size T.
Proof.
  unfold item_universe. intros (items & Hin & _)%elem_of_union_list.
  rewrite <- length_map_to_list, <- (length_fmap snd).
  destruct ((map_to_list T).*2); [by apply elem_of_nil in Hin|simpl; lia].
Qed.

Lemma elem_of_item_universe T x :
  x ∈ item_universe T ↔ ∃ tid items, T !! tid = Some items ∧ x ∈ items.
Proof.
  unfold item_universe. rewrite elem_of_union_list. split.
  - intros (items & Hin & Hx). apply list_elem_of_fmap in Hin as ([tid its] & -> & Hin).
    apply elem_of_map_to_list in Hin. eauto.
  - intros (tid & items & HT & Hx). exists items. split; [|done].
    apply list_elem_of_fmap. exists (tid, items). split; [done|].
    by apply elem_of_map_to_list.
Qed.

Lemma length_filter_snd {A B} (P : B → Prop) `{∀ x, Decision (P x)} (l : list (A * B)) :
  length (filter (λ p, P p.2) l) = length (filter P l.*2).
Proof.
  induction l as [|[a b] l IH]; [done|].
  rewrite fmap_cons, !filter_cons. simpl. destruct (decide (P b)); simpl; lia.
Qed.

Lemma map_to_list_filter_perm `{Countable K} {A} (P : K * A → Prop)
    `{∀ x, Decision (P x)} (m : gmap K A) :
  map_to_list (filter P m) ≡ₚ filter P (map_to_list m).
Proof.
  apply NoDup_Permutation.
  - apply NoDup_map_to_list.
  - apply NoDup_filter, NoDup_map_to_list.
  - intros [k a]. rewrite elem_of_map_to_list, list_elem_of_filter,
      elem_of_map_to_list, map_lookup_filter_Some. naive_solver.
Qed.

Lemma size_tids_of T (I : Itemset) : size (tids_of T I) = support_count T I.
Proof.
  unfold tids_of, support_count. rewrite size_dom, <- length_map_to_list.
  rewrite <- length_filter_snd. apply Permutation_length, map_to_list_filter_perm.
Qed.

Lemma elem_of_tids_of T (I : Itemset) tid :
  tid ∈ tids_of T I ↔ ∃ items, T !! tid = Some items ∧ I ⊆ items.
Proof.
  unfold tids_of. rewrite elem_of_dom. unfold is_Some.
  setoid_rewrite map_lookup_filter_Some. naive_solver.
Qed.

Lemma tids_of_union T (I J : Itemset) :
  tids_of T (I ∪ J) = tids_of T I ∩ tids_of T J.
Proof.
  apply set_eq. intros tid. rewrite elem_of_intersection, !elem_of_tids_of.
  split.
  - intros (items & HT & Hsub). split; exists items; set_solver.
  - intros [(i1 & H1 & Hs1) (i2 & H2 & Hs2)]. simplify_eq. exists i1. set_solver.
Qed.

(** ** Supports as rationals *)

Lemma Qle_bool_div_mono (s : Q) (c1 c2 n : nat) :
  c1 ≤ c2 →
  Qle_bool s (inject_Z (Z.of_nat c1) / inject_Z (Z.of_nat n)) = true →
  Qle_bool s (inject_Z (Z.of_nat c2) / inject_Z (Z.of_nat n)) = true.
Proof.
  rewrite !Qle_bool_iff. intros Hc Hs. eapply Qle_trans; [exact Hs|].
  unfold Qdiv. apply Qmult_le_compat_r.
  - rewrite <- Zle_Qle. lia.
  - apply Qinv_le_0_compat. replace 0%Q with (inject_Z 0) by done.
    rewrite <- Zle_Qle. lia.
Qed.

Lemma support_of_anti T (I J : Itemset) :
  J ⊆ I → (support_of T I <= support_of T J)%Q.
Proof.
  intros HJI. apply Qle_bool_iff.
  apply (Qle_bool_div_mono _ (support_count T I)); [by apply support_count_anti|].
  apply Qle_bool_iff, Qle_refl.
Qed.

Lemma frequent_apriori_anti T s (I J : Itemset) :
  J ⊆ I → J ≠ ∅ → frequent_apriori T s I → frequent_apriori T s J.
Proof.
  intros HJI HJ (_ & HU & Hs). split; [done|]. split; [set_solver|].
  apply Qle_bool_iff. eapply Qle_trans; [by apply Qle_bool_iff|].
  by apply support_of_anti.
Qed.

(** ** Combinations *)

Lemma elem_of_combinations {A} (l : list A) (r : nat) (sub : list A) :
  sub ∈ combinations l r ↔ sub `sublist_of` l ∧ length sub = r.
Proof.
  revert r sub. induction l as [|x l IH]; intros [|r] sub; simpl.
  - rewrite list_elem_of_singleton. split.
    + by intros ->.
    + intros [_ Hlen]. by destruct sub.
  - split; [by intros ?%elem_of_nil|]. intros [->%sublist_nil_r Hlen]. done.
  - rewrite list_elem_of_singleton. split.
    + intros ->. split; [apply sublist_nil_l|done].
    + intros [_ Hlen]. by destruct sub.
  - rewrite elem_of_app, list_elem_of_fmap, sublist_cons_r. split.
    + intros [(s' & -> & [Hs Hl]%IH)|[Hs Hl]%IH].
      * split; [right; eauto|simpl; lia].
      * split; [by left|done].
    + intros [[Hs|(s' & -> & Hs)] Hl].
      * right. by apply IH.
      * left. exists s'. split; [done|]. apply IH. simpl in Hl. split; [done|lia].
Qed.

Lemma subsets_combinations (X J : Itemset) (r : nat) :
  (∃ sub, sub ∈ combinations (elements X) r ∧ list_to_set sub = J)
  ↔ J ⊆ X ∧ size J = r.
Proof.
  split.
  - intros (sub & [Hsub Hlen]%elem_of_combinations & <-).
    assert (NoDup sub) by (eapply sublist_NoDup; [apply (NoDup_elements X)|done]).
    split.
    + intros x Hx%elem_of_list_to_set. apply elem_of_elements.
      eapply sublist_subseteq; done.
    + by rewrite size_list_to_set.
  - intros [HJX Hsize]. exists (filter (λ x, x ∈ J) (elements X)).
    assert (list_to_set (filter (λ x, x ∈ J) (elements X)) = J) as Heq.
    { apply set_eq. intros x.
      rewrite elem_of_list_to_set, list_elem_of_filter, elem_of_elements. set_solver. }
    split; [|done]. apply elem_of_combinations. split; [apply sublist_filter|].
    assert (NoDup (filter (λ x, x ∈ J) (elements X))) as Hnd
      by apply NoDup_filter, NoDup_elements.
    apply (size_list_to_set (C:=Itemset)) in Hnd. rewrite Heq in Hnd. congruence.
Qed.

(** ** The counts of Apriori *)

Lemma count_step_lookup (item_counts : gmap string nat) (l : list string) (x : string) :
  NoDup l →
  foldl (λ item_counts i, <[i := default 0 (item_counts !! i) + 1]> item_counts)
        item_counts l !! x
  = if decide (x ∈ l) then Some (default 0 (item_counts !! x) + 1)
    else item_counts !! x.
Proof.
  revert item_counts. induction l as [|i l IH]; intros ic Hnd; cbn [foldl].
  - case_decide as Hx; [by apply elem_of_nil in Hx|done].
  - apply NoDup_cons in Hnd as [Hi Hnd]. rewrite IH by done.
    destruct (decide (x = i)) as [->|Hne].
    + rewrite decide_False by done. rewrite decide_True by left.
      by rewrite lookup_insert_eq.
    + rewrite lookup_insert_ne by done.
      destruct (decide (x ∈ l)) as [Hx|Hx].
      * by rewrite decide_True by (by right).
      * rewrite decide_False; [done|]. by intros [?|?]%elem_of_cons.
Qed.

Lemma count_items_lookup T (i : string) :
  count_items T !! i
  = if decide (support_count T {[i]} = 0) then None
    else Some (support_count T {[i]}).
Proof.
  unfold count_items, support_count.
  pose (P := λ (done : list (gset string)) (ic : gmap string nat), ic !! i =
           if decide (length (filter (λ items : gset string, {[i]} ⊆ items) done) = 0)
           then None else Some (length (filter (λ items : gset string, {[i]} ⊆ items) done))).
  apply (foldl_inv P); unfold P.
  - done.
  - intros done items rest ic _ Hic.
    rewrite count_step_lookup by apply NoDup_elements.
    rewrite filter_app, length_app, filter_cons, filter_nil.
    clear P. destruct (decide (i ∈ elements items)) as [Hi|Hi];
      destruct (decide ({[i]} ⊆ items)) as [Hs|Hs];
      try (exfalso; set_solver); cbn [length].
    + rewrite Hic. case_decide as H0; [by rewrite H0|].
      rewrite decide_False by lia. done.
    + rewrite Nat.add_0_r. done.
Qed.

Lemma support_count_singleton_pos T (i : string) :
  0 < support_count T {[i]} ↔ i ∈ item_universe T.
Proof.
  split.
  - intros H%support_count_pos_universe. set_solver.
  - unfold item_universe, support_count. intros (items & Hin & Hi)%elem_of_union_list.
    assert (items ∈ filter (λ items : gset string, {[i]} ⊆ items) (map_to_list T).*2) as Hf.
    { apply list_elem_of_filter. split; [set_solver|done]. }
    destruct (filter _ _); [by apply elem_of_nil in Hf|simpl; lia].
Qed.

Lemma dom_count_items T : dom (count_items T) = item_universe T.
Proof.
  apply set_eq. intros i. rewrite elem_of_dom, count_items_lookup.
  rewrite <- support_count_singleton_pos.
  case_decide as H0; [rewrite H0|].
  - split; [by intros [? ?]|lia].
  - split; [lia|eauto].
Qed.

Lemma keep_frequent_spec {K} (key : K → Itemset) (counts : list (K * nat))
    (n : nat) (s : Q) (fr : gmap Itemset Q) (g : Itemset → nat) :
  (counts = [] ∨ 0 < n) →
  (∀ c cnt, (c, cnt) ∈ counts → cnt = g (key c)) →
  ∃ fr' Lk', keep_frequent key counts n s fr = Returns (fr', Lk')
    ∧ (∀ I, fr' !! I =
         if decide (I ∈ key <$> counts.*1 ∧ Qle_bool s (rel_support g n I) = true)
         then Some (rel_support g n I) else fr !! I)
    ∧ (∀ I, I ∈ Lk' ↔ I ∈ key <$> counts.*1 ∧ Qle_bool s (rel_support g n I) = true).
Proof.
  intros Hn Hg. unfold keep_frequent.
  pose (P := λ (done : list (K * nat)) (st : gmap Itemset Q * list Itemset),
    (∀ I, st.1 !! I =
       if decide (I ∈ key <$> done.*1 ∧ Qle_bool s (rel_support g n I) = true)
       then Some (rel_support g n I) else fr !! I)
    ∧ (∀ I, I ∈ st.2 ↔ I ∈ key <$> done.*1 ∧ Qle_bool s (rel_support g n I) = true)).
  match goal with |- context [for_each counts ?body ?st] =>
    destruct (for_each_inv P counts body st) as ([fr' Lk'] & Hrun & HP1 & HP2) end.
  - split; intros I; cbn [fst snd].
    + rewrite decide_False; [done|]. intros [[]%elem_of_nil _].
    + split; [by intros ?%elem_of_nil|]. intros [[]%elem_of_nil _].
  - intros done [c cnt] rest [fr1 L1] Hcounts [HP1 HP2]. cbn [fst snd] in HP1, HP2.
    assert (0 < n) as Hpos.
    { destruct Hn as [->|]; [|done]. by destruct done. }
    assert (cnt = g (key c)) as ->.
    { apply Hg. rewrite Hcounts. apply elem_of_app. right. left. }
    assert (py_truediv_int (g (key c)) n = Returns (rel_support g n (key c))) as Hdiv.
    { destruct n; [lia|done]. }
    rewrite Hdiv. cbn [mbind outcome_bind].
    assert (∀ I, I ∈ key <$> (done ++ [(c, g (key c))]).*1
                 ↔ I = key c ∨ I ∈ key <$> done.*1) as Hmem.
    { intros I. rewrite !fmap_app, elem_of_app. cbn [fmap list_fmap fst].
      rewrite list_elem_of_singleton. tauto. }
    destruct (Qle_bool s (rel_support g n (key c))) eqn:Hle.
    + eexists. split; [done|]. split; intros I; cbn [fst snd].
      * destruct (decide (I = key c)) as [->|Hne].
        -- rewrite lookup_insert_eq. rewrite decide_True; [done|].
           split; [apply Hmem; by left|done].
        -- rewrite lookup_insert_ne by done. rewrite HP1.
           apply decide_ext. rewrite Hmem. tauto.
      * rewrite elem_of_app, list_elem_of_singleton, HP2, Hmem.
        split; [|tauto]. intros [?| ->]; [tauto|]. tauto.
    + eexists. split; [done|]. split; intros I; cbn [fst snd].
      * rewrite HP1. apply decide_ext. rewrite Hmem.
        split; [tauto|]. intros [[->|?] ?]; [congruence|done].
      * rewrite HP2, Hmem. split; [tauto|]. intros [[->|?] ?]; [congruence|done].
  - exists fr', Lk'. done.
Qed.

Lemma init_counts_lookup (Ck : list Itemset) (d : gmap Itemset nat) (c : Itemset) :
  foldl (λ d c, <[c := 0]> d) d Ck !! c
  = if decide (c ∈ Ck) then Some 0 else d !! c.
Proof.
  revert d. induction Ck as [|x Ck IH]; intros d; cbn [foldl].
  - case_decide as Hc; [by apply elem_of_nil in Hc|done].
  - rewrite IH. destruct (decide (c ∈ Ck)) as [Hc|Hc].
    + rewrite decide_True by (by right). done.
    + destruct (decide (c = x)) as [->|Hne].
      * rewrite lookup_insert_eq. rewrite decide_True by left. done.
      * rewrite lookup_insert_ne by done. rewrite decide_False; [done|].
        by intros [?|?]%elem_of_cons.
Qed.

(** One transaction of the scan: every candidate it contains gains one. *)
Lemma scan_one_spec (Ck : list Itemset) (items : gset string)
    (f : Itemset → nat) (sc : gmap Itemset nat) :
  NoDup Ck →
  (∀ c, sc !! c = if decide (c ∈ Ck) then Some (f c) else None) →
  ∃ sc', for_each Ck (λ c support_counts,
           if decide (c ⊆ items) then
             count ← dict_getitem support_counts c;
             Returns (<[c := count + 1]> support_counts)
           else Returns support_counts) sc = Returns sc'
    ∧ ∀ c, sc' !! c =
        if decide (c ∈ Ck) then Some (f c + (if decide (c ⊆ items) then 1 else 0))
        else None.
Proof.
  intros Hnd Hsc.
  pose (P := λ (done : list Itemset) (sc' : gmap Itemset nat),
    ∀ c, sc' !! c =
      if decide (c ∈ Ck)
      then Some (f c + (if decide (c ∈ done ∧ c ⊆ items) then 1 else 0))
      else None).
  match goal with |- context [for_each Ck ?body sc] =>
    destruct (for_each_inv P Ck body sc) as (sc' & Hrun & HP) end.
  - intros c. rewrite Hsc. case_decide; [|done].
    rewrite decide_False; [by rewrite Nat.add_0_r|]. by intros [?%elem_of_nil _].
  - intros done x rest sc1 HCk HP. unfold P in HP.
    assert (x ∈ Ck) as HxCk by (rewrite HCk; set_solver).
    assert (x ∉ done) as Hxdone.
    { rewrite HCk in Hnd. apply NoDup_app in Hnd as (_ & Hdis & _).
      intros Hx. apply (Hdis x Hx). left. }
    destruct (decide (x ⊆ items)) as [Hsub|Hsub].
    + unfold dict_getitem. rewrite HP. rewrite decide_True by done.
      rewrite decide_False by tauto. cbn [mbind outcome_bind].
      eexists. split; [done|]. intros c.
      destruct (decide (c = x)) as [->|Hne].
      * rewrite lookup_insert_eq. rewrite decide_True by done.
        rewrite decide_True; [f_equal; lia|]. split; [set_solver|done].
      * rewrite lookup_insert_ne by done. rewrite HP.
        case_decide; [|done]. f_equal. f_equal. apply decide_ext.
        rewrite elem_of_app, list_elem_of_singleton. tauto.
    + exists sc1. split; [done|]. intros c. rewrite HP.
      case_decide; [|done]. f_equal. f_equal. apply decide_ext.
      rewrite elem_of_app, list_elem_of_singleton. split; [tauto|].
      intros [[?| ->] ?]; tauto.
  - exists sc'. split; [done|]. intros c. rewrite HP.
    case_decide; [|done]. f_equal. f_equal. apply decide_ext. tauto.
Qed.

Lemma count_candidates_spec T (Ck : list Itemset) :
  NoDup Ck →
  ∃ sc, count_candidates T Ck = Returns sc
    ∧ ∀ c, sc !! c = if decide (c ∈ Ck) then Some (support_count T c) else None.
Proof.
  intros Hnd. unfold count_candidates, support_count.
  pose (P := λ (done : list (gset string)) (sc : gmap Itemset nat),
    ∀ c, sc !! c =
      if decide (c ∈ Ck) then Some (length (filter (λ items, c ⊆ items) done))
      else None).
  match goal with |- context [for_each ?xs ?body ?st] =>
    destruct (for_each_inv P xs body st) as (sc' & Hrun & HP) end.
  - intros c. rewrite init_counts_lookup. by case_decide.
  - intros done items rest sc _ HP.
    destruct (scan_one_spec Ck items _ sc Hnd HP) as (sc' & -> & Hsc').
    exists sc'. split; [done|]. intros c. rewrite Hsc'.
    case_decide; [|done]. f_equal.
    rewrite filter_app, length_app, filter_cons, filter_nil.
    by destruct (decide (c ⊆ items)).
  - by exists sc'.
Qed.

(** ** Candidate generation *)

Lemma prune_check_spec (prev : list Itemset) (union : Itemset) (r : nat) :
  forallb (λ subset : list string,
             bool_decide (list_to_set (C:=Itemset) subset ∈ prev))
          (combinations (elements union) r) = true
  ↔ ∀ J : Itemset, J ⊆ union → size J = r → J ∈ prev.
Proof.
  rewrite forallb_forall. split.
  - intros Hall J HJ Hsize.
    destruct (proj2 (subsets_combinations union J r) (conj HJ Hsize))
      as (sub & Hsub & <-).
    apply list_elem_of_In, Hall in Hsub. by apply bool_decide_eq_true in Hsub.
  - intros Hall sub Hsub%list_elem_of_In. apply bool_decide_eq_true.
    destruct (proj1 (subsets_combinations union (list_to_set sub) r)) as [HJ Hsize];
      [by exists sub|]. by apply Hall.
Qed.

Lemma _generate_candidates_spec (prev : list Itemset) (k : nat) (I : Itemset) :
  I ∈ _generate_candidates prev k
  ↔ ∃ i j, i < j < length prev ∧ joins prev k i j I.
Proof.
  unfold _generate_candidates. rewrite elem_of_elements.
  set (n := length prev).
  pose (P := λ (done : list nat) (cands : gset Itemset),
    ∀ I, I ∈ cands ↔ ∃ i j, i ∈ done ∧ i < j < n ∧ joins prev k i j I).
  match goal with |- context [foldl ?f ∅ (seq 0 n)] =>
    assert (P (seq 0 n) (foldl f ∅ (seq 0 n))) as HP end.
  { apply (foldl_inv P).
    - intros I'. split; [set_solver|]. by intros (i & j & []%elem_of_nil & _).
    - intros done i rest cands Hseq HP. unfold P in HP.
      pose (Q := λ (done_j : list nat) (cands' : gset Itemset),
        ∀ I, I ∈ cands' ↔ I ∈ cands ∨ ∃ j, j ∈ done_j ∧ joins prev k i j I).
      match goal with |- P _ (foldl ?f cands ?xs) =>
        assert (Q xs (foldl f cands xs)) as HQ end.
      { apply (foldl_inv Q).
        - intros I'. split; [by left|]. intros [?|(j & []%elem_of_nil & _)]. done.
        - intros done_j j rest_j cands' _ HQ I'. unfold Q in HQ.
          assert (∀ X, (∃ j0, j0 ∈ done_j ++ [j] ∧ X j0)
                       ↔ (∃ j0, j0 ∈ done_j ∧ X j0) ∨ X j) as Hsplit.
          { intros X. split.
            - intros (j0 & [?| ->%list_elem_of_singleton]%elem_of_app & ?); eauto.
            - intros [(j0 & ? & ?)| ?]; [exists j0|exists j];
                (split; [set_solver|done]). }
          rewrite Hsplit. clear Hsplit. unfold joins at 2.
          destruct (decide (size (prev !!! i ∪ prev !!! j) = k)) as [Hk|Hk].
          + destruct (forallb _ _) eqn:Hall.
            * pose proof (proj1 (prune_check_spec _ _ _) Hall) as Hall'.
              rewrite elem_of_union, elem_of_singleton, HQ. split; [|naive_solver].
              intros [[Ha|Hb]|Hc]; [tauto|tauto|]. subst I'. right. right. done.
            * rewrite HQ. split; [tauto|].
              intros [?|[?|(-> & _ & Hall')]]; [tauto|tauto|].
              pose proof (proj2 (prune_check_spec _ _ _) Hall') as Ht. congruence.
          + rewrite HQ. split; [tauto|].
            intros [?|[?|(-> & ? & _)]]; [tauto|tauto|done]. }
      unfold Q in HQ. intros I'. rewrite HQ, HP. split.
      + intros [(i0 & j & Hi0 & Hj & ?)|(j & Hj & ?)].
        * exists i0, j. split; [set_solver|done].
        * exists i, j. split; [set_solver|]. split; [|done].
          apply elem_of_seq in Hj. lia.
      + intros (i0 & j & [Hi0| ->%list_elem_of_singleton]%elem_of_app & Hj & ?).
        * left. eauto.
        * right. exists j. split; [|done]. apply elem_of_seq. lia. }
  unfold P in HP. rewrite HP. split.
  - intros (i & j & _ & ? & ?). eauto.
  - intros (i & j & ? & ?). exists i, j. split; [|done]. apply elem_of_seq. lia.
Qed.

Lemma NoDup_generate_candidates (prev : list Itemset) (k : nat) :
  NoDup (_generate_candidates prev k).
Proof. apply NoDup_elements. Qed.

(** ** Subsets of a given size *)

Lemma subset_of_size (I : Itemset) (r : nat) :
  r ≤ size I → ∃ J : Itemset, J ⊆ I ∧ size J = r.
Proof.
  intros Hr. exists (list_to_set (take r (elements I))). split.
  - intros x Hx%elem_of_list_to_set. apply elem_of_elements.
    eapply (sublist_subseteq (take r (elements I))); [apply sublist_take|done].
  - rewrite size_list_to_set.
    + rewrite length_take. unfold size, set_size in Hr. simpl in Hr. lia.
    + eapply sublist_NoDup; [apply (NoDup_elements I)|apply sublist_take].
Qed.

Lemma size_remove (I : Itemset) (x : string) :
  x ∈ I → size (I ∖ {[x]}) = size I - 1.
Proof.
  intros Hx. rewrite size_difference by set_solver. by rewrite size_singleton.
Qed.

Lemma two_elements (I : Itemset) :
  2 ≤ size I → ∃ x y, x ∈ I ∧ y ∈ I ∧ x ≠ y.
Proof.
  intros Hsz. unfold size, set_size in Hsz. simpl in Hsz.
  pose proof (NoDup_elements I) as Hnd.
  destruct (elements I) as [|x [|y l]] eqn:He; simpl in Hsz; [lia|lia|].
  exists x, y. rewrite <- !elem_of_elements, He.
  split; [left|]. split; [right; left|].
  apply NoDup_cons in Hnd as [Hx _]. intros ->. apply Hx. left.
Qed.

(** ** The levels of Apriori *)

(** The candidates that reach the threshold are the frequent itemsets of the
    next size: pruning loses nothing because support never grows with the
    itemset. *)
Lemma candidates_frequent T s (k : nat) (Lk : list Itemset) (I : Itemset) :
  2 ≤ k →
  (∀ I, I ∈ Lk ↔ frequent_apriori T s I ∧ size I = k - 1) →
  I ∈ _generate_candidates Lk k ∧ Qle_bool s (support_of T I) = true
  ↔ frequent_apriori T s I ∧ size I = k.
Proof.
  intros Hk HLk. rewrite _generate_candidates_spec. split.
  - intros [(i & j & Hij & -> & Hsz & Hsub) Hs].
    split; [|done]. split; [|split; [|done]].
    + intros Hempty. rewrite Hempty, size_empty in Hsz. lia.
    + assert (∀ i, i < length Lk → Lk !!! i ⊆ item_universe T) as HU.
      { intros i' Hi'. apply list_lookup_lookup_total_lt in Hi'.
        apply list_elem_of_lookup_2, HLk in Hi' as [(_ & ? & _) _]. done. }
      apply union_least; apply HU; lia.
  - intros [HI Hsz].
    assert (∀ J : Itemset, J ⊆ I → size J = k - 1 → J ∈ Lk) as Hsub.
    { intros J HJ HszJ. apply HLk. split; [|done].
      apply (frequent_apriori_anti T s I); [done| |done].
      intros ->. rewrite size_empty in HszJ. lia. }
    split; [|by destruct HI as (_ & _ & ?)].
    destruct (two_elements I) as (x & y & Hx & Hy & Hxy); [lia|].
    assert (I ∖ {[x]} ∈ Lk) as [i Hi]%list_elem_of_lookup_1.
    { apply Hsub; [set_solver|]. rewrite size_remove by done. lia. }
    assert (I ∖ {[y]} ∈ Lk) as [j Hj]%list_elem_of_lookup_1.
    { apply Hsub; [set_solver|]. rewrite size_remove by done. lia. }
    assert (i ≠ j) as Hne.
    { intros ->. rewrite Hi in Hj. injection Hj as Heq.
      assert (y ∈ I ∖ {[x]}) as Hin by set_solver. rewrite Heq in Hin. set_solver. }
    assert (I = I ∖ {[x]} ∪ I ∖ {[y]}) as HIeq.
    { apply set_eq. intros z. rewrite elem_of_union, !elem_of_difference,
        !elem_of_singleton. destruct (decide (z = x)); naive_solver. }
    pose proof (lookup_lt_Some _ _ _ Hi) as Hli.
    pose proof (lookup_lt_Some _ _ _ Hj) as Hlj.
    apply list_lookup_total_correct in Hi, Hj.
    destruct (decide (i < j)).
    + exists i, j. split; [lia|]. split; [by rewrite Hi, Hj|done].
    + exists j, i. split; [lia|]. split; [|done].
      rewrite Hi, Hj. rewrite (union_comm_L (I ∖ {[y]})). done.
Qed.

Lemma apriori_levels_spec T s (fuel k : nat) (fr : gmap Itemset Q) (Lk : list Itemset) :
  2 ≤ k →
  level_inv T s k fr Lk →
  size (item_universe T) + 2 ≤ fuel + k →
  ∃ m, apriori_levels fuel T s (size T) fr Lk k = Returns m
    ∧ ∀ I, m !! I = if decide (frequent_apriori T s I)
                    then Some (support_of T I) else None.
Proof.
  revert k fr Lk. induction fuel as [|fuel IH]; intros k fr Lk Hk [Hfr HLk] Hfuel.
  - destruct Lk as [|I0 Lk]; cbn [apriori_levels].
    + exists fr. split; [done|]. intros I. rewrite Hfr. apply decide_ext.
      split; [tauto|]. intros HI. split; [done|].
      destruct (decide (size I < k)) as [|Hge]; [done|].
      destruct (subset_of_size I (k - 1)) as (J & HJ & HszJ); [lia|].
      assert (J ∈ []) as []%elem_of_nil. apply HLk. split; [|done].
      apply (frequent_apriori_anti T s I); [done| |done].
      intros ->. rewrite size_empty in HszJ. lia.
    + exfalso. assert (I0 ∈ I0 :: Lk) as [(_ & HU & _) Hsz]%HLk by left.
      apply subseteq_size in HU. lia.
  - destruct Lk as [|I0 Lk0] eqn:HeqLk; cbn [apriori_levels].
    + exists fr. split; [done|]. intros I. rewrite Hfr. apply decide_ext.
      split; [tauto|]. intros HI. split; [done|].
      destruct (decide (size I < k)) as [|Hge]; [done|].
      destruct (subset_of_size I (k - 1)) as (J & HJ & HszJ); [lia|].
      assert (J ∈ []) as []%elem_of_nil. apply HLk. split; [|done].
      apply (frequent_apriori_anti T s I); [done| |done].
      intros ->. rewrite size_empty in HszJ. lia.
    + rewrite <- HeqLk in *.
      assert (0 < size T) as Hn.
      { assert (I0 ∈ Lk) as [(Hne & HU & _) _]%HLk by (rewrite HeqLk; left).
        apply set_choose_L in Hne as [x Hx]. apply (item_universe_size T x). set_solver. }
      destruct (count_candidates_spec T (_generate_candidates Lk k))
        as (sc & -> & Hsc); [apply NoDup_generate_candidates|].
      cbn [mbind outcome_bind].
      destruct (keep_frequent_spec id (map_to_list sc) (size T) s fr (support_count T))
        as (fr' & Lk' & -> & Hfr' & HLk').
      { by right. }
      { intros c cnt Hc%elem_of_map_to_list. rewrite Hsc in Hc.
        case_decide; [|done]. by injection Hc as <-. }
      cbn [mbind outcome_bind].
      assert (∀ I, I ∈ id <$> (map_to_list sc).*1 ↔ I ∈ _generate_candidates Lk k) as Hdom.
      { intros I. rewrite list_fmap_id. rewrite list_elem_of_fmap. split.
        - intros ([c cnt] & -> & Hc%elem_of_map_to_list). rewrite Hsc in Hc.
          by case_decide.
        - intros HI. exists (I, support_count T I). split; [done|].
          apply elem_of_map_to_list. rewrite Hsc. by rewrite decide_True. }
      assert (∀ I, I ∈ id <$> (map_to_list sc).*1
                   ∧ Qle_bool s (rel_support (support_count T) (size T) I) = true
                   ↔ frequent_apriori T s I ∧ size I = k) as Hcand.
      { intros I. rewrite Hdom. by apply candidates_frequent. }
      apply IH; [lia| |lia]. split.
      * intros I. rewrite Hfr', Hfr.
        rewrite (decide_ext _ _ _ _ (Hcand I)).
        destruct (decide (frequent_apriori T s I ∧ size I = k)) as [[HI Hsz]|Hno].
        -- rewrite decide_True; [done|]. split; [done|lia].
        -- apply decide_ext. split; [intros [? ?]; split; [done|lia]|].
           intros [? ?]. split; [done|]. destruct (decide (size I = k)); [tauto|lia].
      * intros I. rewrite HLk', Hcand.
        replace (k + 1 - 1) with k by lia. done.
Qed.

Lemma itemset_size_pos (I : Itemset) : I ≠ ∅ ↔ 0 < size I.
Proof.
  split.
  - intros Hne. destruct (decide (size I = 0)) as [H0|]; [|lia].
    apply size_empty_iff in H0. by apply leibniz_equiv in H0.
  - intros Hsz ->. rewrite size_empty in Hsz. lia.
Qed.

Lemma singletons_of_counts T (I : Itemset) :
  I ∈ (λ item : string, {[item]} : Itemset) <$> (map_to_list (count_items T)).*1
  ↔ ∃ i, i ∈ item_universe T ∧ I = {[i]}.
Proof.
  rewrite list_elem_of_fmap. setoid_rewrite list_elem_of_fmap. split.
  - intros (i & -> & [i' c] & -> & Hic%elem_of_map_to_list). exists i'.
    split; [|done]. rewrite <- dom_count_items. by apply elem_of_dom_2 in Hic.
  - intros (i & Hi & ->). exists i. split; [done|].
    rewrite <- dom_count_items in Hi. apply elem_of_dom in Hi as [c Hc].
    exists (i, c). split; [done|]. by apply elem_of_map_to_list.
Qed.

Theorem apriori_frequents_spec T s (fuel : nat) :
  apriori_fuel T ≤ fuel →
  ∃ m, apriori_frequents fuel T s = Returns m
    ∧ ∀ I, m !! I = if decide (frequent_apriori T s I)
                    then Some (support_of T I) else None.
Proof.
  intros Hfuel. unfold apriori_frequents, apriori_fuel in *.
  destruct (keep_frequent_spec (λ item : string, {[item]})
              (map_to_list (count_items T)) (size T) s ∅ (support_count T))
    as (fr & Lk & -> & Hfr & HLk).
  { destruct (map_to_list (count_items T)) as [|[i c] l] eqn:Hl; [by left|right].
    assert ((i, c) ∈ map_to_list (count_items T)) as Hic by (rewrite Hl; left).
    apply elem_of_map_to_list, elem_of_dom_2 in Hic.
    rewrite dom_count_items in Hic. by apply (item_universe_size T i). }
  { intros i c Hic%elem_of_map_to_list. rewrite count_items_lookup in Hic.
    case_decide; [done|]. by injection Hic as <-. }
  cbn [mbind outcome_bind].
  assert (∀ I, I ∈ (λ item : string, {[item]} : Itemset) <$> (map_to_list (count_items T)).*1
               ∧ Qle_bool s (rel_support (support_count T) (size T) I) = true
               ↔ frequent_apriori T s I ∧ size I < 2) as Hone.
  { intros I. rewrite singletons_of_counts. split.
    - intros [(i & Hi & ->) Hs]. split; [|rewrite size_singleton; lia].
      split; [set_solver|]. split; [set_solver|done].
    - intros [(Hne & HU & Hs) Hsz]. split; [|done].
      assert (size I = 1) as (i & Hi)%size_1_elem_of.
      { apply itemset_size_pos in Hne. lia. }
      apply leibniz_equiv in Hi. exists i. split; [set_solver|done]. }
  apply apriori_levels_spec; [lia| |lia]. split.
  - intros I. rewrite Hfr, lookup_empty. apply decide_ext, Hone.
  - intros I. rewrite HLk, Hone. split.
    + intros [HI Hsz]. split; [done|].
      destruct HI as (Hne%itemset_size_pos & _). simpl. lia.
    + intros [HI Hsz]. split; [done|]. simpl in Hsz. lia.
Qed.

(** ** The vertical representation *)

Lemma vertical_step_spec (tid : string) (l : list string) (v : gmap string TIDSet) :
  NoDup l →
  ∃ v', for_each l (λ item vertical,
          let vertical : gmap string TIDSet :=
            if decide (item ∉ dom vertical) then <[item := ∅]> vertical else vertical in
          tids ← dict_getitem vertical item;
          Returns (<[item := tids ∪ {[tid]}]> vertical)) v = Returns v'
    ∧ ∀ x, v' !! x = if decide (x ∈ l) then Some (default ∅ (v !! x) ∪ {[tid]})
                     else v !! x.
Proof.
  revert v. induction l as [|i l IH]; intros v Hnd.
  - exists v. split; [done|]. intros x. case_decide as Hx; [by apply elem_of_nil in Hx|done].
  - apply NoDup_cons in Hnd as [Hi Hnd].
    match goal with |- context [for_each _ ?body _] => set (b := body) end.
    change (for_each (i :: l) b v) with (b i v ≫= for_each l b).
    set (v1 := if decide (i ∉ dom v) then <[i := ∅]> v else v).
    assert (v1 !! i = Some (default ∅ (v !! i))
            ∧ ∀ x, x ≠ i → v1 !! x = v !! x) as [Hv1 Hv1'].
    { unfold v1. case_decide as Hd.
      - apply not_elem_of_dom in Hd. rewrite Hd, lookup_insert_eq. split; [done|].
        intros x Hx. by rewrite lookup_insert_ne.
      - apply elem_of_dom in Hd as [t Ht]. by rewrite Ht. }
    assert (b i v = Returns (<[i := default ∅ (v !! i) ∪ {[tid]}]> v1)) as ->.
    { unfold b. cbn zeta. fold v1. unfold dict_getitem. by rewrite Hv1. }
    cbn [mbind outcome_bind].
    destruct (IH (<[i := default ∅ (v !! i) ∪ {[tid]}]> v1) Hnd) as (v' & Hrun & Hv').
    exists v'. split; [exact Hrun|]. intros x. rewrite Hv'.
    destruct (decide (x = i)) as [->|Hne].
    + rewrite decide_False by done. rewrite decide_True by left.
      by rewrite lookup_insert_eq.
    + rewrite lookup_insert_ne by done. rewrite Hv1' by done.
      destruct (decide (x ∈ l)) as [Hx|Hx].
      * by rewrite decide_True by (by right).
      * rewrite decide_False; [done|]. by intros [?|?]%elem_of_cons.
Qed.

Lemma tids_in_snoc done tid items item :
  tids_in (done ++ [(tid, items)]) item
  = if decide (item ∈ items) then tids_in done item ∪ {[tid]} else tids_in done item.
Proof.
  unfold tids_in. rewrite filter_app, fmap_app, list_to_set_app_L.
  rewrite filter_cons, filter_nil. cbn [snd].
  destruct (decide (item ∈ items)); cbn [fmap list_fmap fst list_to_set]; set_solver.
Qed.

Lemma elem_of_tids_in done item tid :
  tid ∈ tids_in done item ↔ ∃ items, (tid, items) ∈ done ∧ item ∈ items.
Proof.
  unfold tids_in. rewrite elem_of_list_to_set, list_elem_of_fmap. split.
  - intros ([tid' items] & -> & [Hi Hin]%list_elem_of_filter). eauto.
  - intros (items & Hin & Hi). exists (tid, items). split; [done|].
    by apply list_elem_of_filter.
Qed.

Lemma tids_in_map_to_list T item :
  tids_in (map_to_list T) item = tids_of T {[item]}.
Proof.
  apply set_eq. intros tid. rewrite elem_of_tids_in, elem_of_tids_of.
  setoid_rewrite elem_of_map_to_list. setoid_rewrite singleton_subseteq_l. done.
Qed.

Lemma tids_of_singleton_empty T (item : string) :
  tids_of T {[item]} = ∅ ↔ item ∉ item_universe T.
Proof.
  rewrite elem_of_item_universe. split.
  - intros He (tid & items & HT & Hi).
    assert (tid ∈ tids_of T {[item]}) as Hin.
    { apply elem_of_tids_of. exists items. split; [done|]. by apply singleton_subseteq_l. }
    rewrite He in Hin. set_solver.
  - intros Hno. apply set_eq. intros tid. rewrite elem_of_tids_of. split; [|set_solver].
    intros (items & HT & Hi%singleton_subseteq_l). exfalso. apply Hno. eauto.
Qed.

Lemma union_singleton_non_empty (X : gset string) (x : string) : X ∪ {[x]} ≠ ∅.
Proof. set_solver. Qed.

Lemma build_vertical_representation_spec T :
  ∃ v, build_vertical_representation T = Returns v
    ∧ ∀ item, v !! item = if decide (item ∈ item_universe T)
                          then Some (tids_of T {[item]}) else None.
Proof.
  unfold build_vertical_representation.
  pose (P := λ (done : list (string * gset string)) (v : gmap string TIDSet),
    ∀ item, v !! item = if decide (tids_in done item = ∅) then None
                        else Some (tids_in done item)).
  match goal with |- context [for_each ?xs ?body ?st] =>
    destruct (for_each_inv P xs body st) as (v & Hrun & HP) end.
  - intros item. by rewrite lookup_empty.
  - intros done [tid items] rest v _ HP. unfold P in *. clear P.
    destruct (vertical_step_spec tid (elements items) v (NoDup_elements items))
      as (v' & Hrun & Hv').
    exists v'. split; [exact Hrun|]. intros item. rewrite Hv', tids_in_snoc, HP.
    destruct (decide (item ∈ elements items)) as [Hi|Hi];
      rewrite elem_of_elements in Hi.
    + rewrite (decide_True (P:=item ∈ items)) by done.
      rewrite (decide_False (P:=tids_in done item ∪ {[tid]} = ∅))
        by apply union_singleton_non_empty.
      destruct (decide (tids_in done item = ∅)) as [->|]; done.
    + rewrite (decide_False (P:=item ∈ items)) by done. done.
  - exists v. split; [done|]. intros item. rewrite HP, tids_in_map_to_list.
    rewrite (decide_ext _ _ _ _ (tids_of_singleton_empty T item)).
    destruct (decide (item ∈ item_universe T)).
    + rewrite decide_False; tauto.
    + rewrite decide_True; tauto.
Qed.

(** ** The depth-first search of Eclat *)

Lemma list_pop_nil {A} : list_pop (@nil A) = None.
Proof. done. Qed.

Lemma list_pop_snoc {A} (l : list A) (x : A) : list_pop (l ++ [x]) = Some (x, l).
Proof. unfold list_pop. by rewrite reverse_snoc, reverse_involutive. Qed.

Lemma list_pop_Some {A} (l r : list A) (x : A) :
  list_pop l = Some (x, r) → l = r ++ [x].
Proof.
  destruct l as [|y l' _] using rev_ind; [done|].
  rewrite list_pop_snoc. by intros [= -> ->].
Qed.

Lemma list_pop_None {A} (l : list A) : list_pop l = None → l = [].
Proof.
  destruct l as [|y l' _] using rev_ind; [done|]. by rewrite list_pop_snoc.
Qed.

(** Lines 50-54: the pairs that stay frequent together with the chosen item. *)
Lemma new_items_tids_spec (tids : TIDSet) (minc : Z)
    (rest new_items_tids : list (string * TIDSet)) :
  new_items_tids =
    foldl (λ new_items_tids '(other_item, other_tids),
      let inter := tids ∩ other_tids in
      if bool_decide (minc ≤ Z.of_nat (size inter))%Z
      then new_items_tids ++ [(other_item, inter)]
      else new_items_tids) [] rest →
  new_items_tids.*1 `sublist_of` rest.*1
  ∧ ∀ x t, (x, t) ∈ new_items_tids
      ↔ ∃ t0, (x, t0) ∈ rest ∧ t = tids ∩ t0 ∧ (minc ≤ Z.of_nat (size t))%Z.
Proof.
  intros ->.
  pose (P := λ (done new : list (string * TIDSet)),
    new.*1 `sublist_of` done.*1
    ∧ ∀ x t, (x, t) ∈ new
        ↔ ∃ t0, (x, t0) ∈ done ∧ t = tids ∩ t0 ∧ (minc ≤ Z.of_nat (size t))%Z).
  apply (foldl_inv P); unfold P; clear P.
  - split; [done|]. intros x t. split; [by intros ?%elem_of_nil|].
    by intros (t0 & ?%elem_of_nil & _).
  - intros done [y ty] rest' new _ [Hsub Hmem]. case_bool_decide as Hc.
    + split.
      * rewrite !fmap_app. by apply sublist_app.
      * intros x t. rewrite elem_of_app, Hmem, list_elem_of_singleton. split.
        -- intros [(t0 & ? & ? & ?)|[= -> ->]].
           ++ exists t0. split; [set_solver|done].
           ++ exists ty. split; [set_solver|done].
        -- intros (t0 & [?|[= -> ->]%list_elem_of_singleton]%elem_of_app & -> & ?).
           ++ left. eauto.
           ++ by right.
    + split.
      * rewrite fmap_app. by apply sublist_inserts_r.
      * intros x t. rewrite Hmem. split.
        -- intros (t0 & ? & ? & ?). exists t0. split; [set_solver|done].
        -- intros (t0 & [?|[= -> ->]%list_elem_of_singleton]%elem_of_app & -> & ?).
           ++ eauto.
           ++ done.
Qed.

Lemma support_of_div T (I : Itemset) :
  0 < size T →
  py_truediv_int (support_count T I) (size T) = Returns (support_of T I).
Proof. intros Hn. unfold py_truediv_int, support_of. destruct (size T); [lia|done]. Qed.

Lemma extends_empty (prefix I : Itemset) : ¬ extends prefix ∅ I.
Proof. unfold extends. set_solver. Qed.

Section extends.
Variables (prefix R N : gset string) (x : string) (fq : Itemset → Prop).
Hypothesis x_fresh : x ∉ prefix.
Hypothesis x_not_rest : x ∉ R.
Hypothesis fq_anti : ∀ I J : Itemset, J ⊆ I → fq I → fq J.

Lemma extends_skip (I : Itemset) :
  ¬ fq (prefix ∪ {[x]}) →
  extends prefix (R ∪ {[x]}) I ∧ fq I ↔ extends prefix R I ∧ fq I.
Proof.
  intros Hno. unfold extends. split.
  - intros [(Hp & Hne & Hsub) Hfq]. split; [|done].
    assert (x ∉ I).
    { intros Hx. apply Hno, (fq_anti I); [set_solver|done]. }
    set_solver.
  - intros [(Hp & Hne & Hsub) Hfq]. split; [|done]. set_solver.
Qed.

Lemma extends_split (I : Itemset) :
  (∀ y, y ∈ N ↔ y ∈ R ∧ fq (prefix ∪ {[x]} ∪ {[y]})) →
  fq (prefix ∪ {[x]}) →
  extends prefix (R ∪ {[x]}) I ∧ fq I
  ↔ (extends prefix R I ∧ fq I)
    ∨ (extends (prefix ∪ {[x]}) N I ∧ fq I)
    ∨ I = prefix ∪ {[x]}.
Proof.
  intros HN Hnew. unfold extends. split.
  - intros [(Hp & Hne & Hsub) Hfq].
    destruct (decide (x ∈ I)) as [Hx|Hx]; [|left; set_solver].
    destruct (decide (I = prefix ∪ {[x]})) as [|Hneq]; [by right; right|].
    right. left. split; [|done]. split; [set_solver|]. split.
    + intros Hempty. apply Hneq. apply set_eq. intros z.
      destruct (decide (z ∈ prefix ∪ {[x]})); set_solver.
    + intros y Hy. apply HN. split; [set_solver|].
      apply (fq_anti I); [set_solver|done].
  - intros [[(Hp & Hne & Hsub) Hfq]|[[(Hp & Hne & Hsub) Hfq]| ->]].
    + split; [|done]. set_solver.
    + split; [|done]. split; [set_solver|]. split.
      * assert (x ∈ I ∖ prefix) by set_solver. set_solver.
      * intros y Hy. destruct (decide (y = x)) as [->|]; [set_solver|].
        assert (y ∈ N) as Hin by set_solver. apply HN in Hin. set_solver.
    + split; [|done]. split; [set_solver|]. split; [|set_solver].
      assert (x ∈ (prefix ∪ {[x]}) ∖ prefix) by set_solver. set_solver.
Qed.

End extends.

Lemma count_reaches_anti T (minc : Z) (I J : Itemset) :
  J ⊆ I →
  (minc ≤ Z.of_nat (support_count T I))%Z →
  (minc ≤ Z.of_nat (support_count T J))%Z.
Proof. intros HJI Hc. pose proof (support_count_anti T I J HJI). lia. Qed.

Lemma _eclat_recursive_spec T (minc : Z) (fuel : nat) :
  (1 ≤ minc)%Z →
  ∀ (prefix : Itemset) (its : list (string * TIDSet)) (res : gmap Itemset Q),
    length its ≤ fuel →
    NoDup its.*1 →
    (∀ x t, (x, t) ∈ its → (x ∉ prefix) ∧ t = tids_of T (prefix ∪ {[x]})) →
    ∃ res', _eclat_recursive fuel prefix its minc res (size T) = Returns res'
      ∧ ∀ I, res' !! I =
          if decide (extends prefix (list_to_set its.*1) I
                     ∧ (minc ≤ Z.of_nat (support_count T I))%Z)
          then Some (support_of T I) else res !! I.
Proof.
  intros Hminc. induction fuel as [|fuel IH]; intros prefix its res Hlen Hnd Hits.
  - destruct its; [|simpl in Hlen; lia]. exists res. split; [done|].
    intros I. rewrite decide_False; [done|]. intros [[]%extends_empty _].
  - cbn [_eclat_recursive].
    destruct (list_pop its) as [[[x t] rest]|] eqn:Hpop.
    2: { apply list_pop_None in Hpop as ->. exists res. split; [done|].
         intros I. rewrite decide_False; [done|]. intros [[]%extends_empty _]. }
    apply list_pop_Some in Hpop as ->.
    rewrite fmap_app, list_to_set_app_L. cbn [fmap list_fmap fst list_to_set].
    rewrite (right_id_L ∅ (∪)).
    rewrite fmap_app in Hnd. apply NoDup_app in Hnd as (Hnd & Hx_rest & _).
    assert (x ∉ list_to_set (C:=gset string) rest.*1) as Hx_R.
    { rewrite elem_of_list_to_set. intros Hx. apply (Hx_rest x Hx). left. }
    destruct (Hits x t) as [Hx_pre ->]; [set_solver|].
    assert (∀ y t0, (y, t0) ∈ rest → (y ∉ prefix) ∧ t0 = tids_of T (prefix ∪ {[y]})) as Hrest.
    { intros y t0 Hy. apply Hits. set_solver. }
    rewrite length_app in Hlen. cbn [length] in Hlen.
    rewrite size_tids_of.
    pose proof (count_reaches_anti T minc) as Hanti.
    case_bool_decide as Hc.
    + assert (0 < size T) as Hn.
      { pose proof (support_count_le_size T (prefix ∪ {[x]})). lia. }
      rewrite support_of_div by done. cbn [mbind outcome_bind].
      match goal with |- context [_eclat_recursive fuel (prefix ∪ {[x]}) ?nl _ _ _] =>
        set (new := nl) end.
      destruct (new_items_tids_spec (tids_of T (prefix ∪ {[x]})) minc rest new eq_refl)
        as [Hsub Hnew]. clearbody new.
      destruct (IH (prefix ∪ {[x]}) new (<[prefix ∪ {[x]} := support_of T (prefix ∪ {[x]})]> res))
        as (res2 & -> & Hres2).
      { apply sublist_length in Hsub. rewrite !length_fmap in Hsub. lia. }
      { by eapply sublist_NoDup. }
      { intros y t' (t0 & Hy & -> & _)%Hnew. destruct (Hrest y t0 Hy) as [Hy_pre ->].
        split.
        - assert (y ∈ rest.*1) by (apply list_elem_of_fmap; by exists (y, tids_of T (prefix ∪ {[y]}))).
          intros [?|Heq%elem_of_singleton]%elem_of_union; [done|]. subst y.
          apply (Hx_rest x); [done|left].
        - rewrite <- tids_of_union. f_equal. set_solver. }
      cbn [mbind outcome_bind].
      destruct (IH prefix rest res2) as (res3 & -> & Hres3); [lia|done|done|].
      exists res3. split; [done|]. intros I. rewrite Hres3, Hres2.
      assert (∀ y, y ∈ list_to_set (C:=gset string) new.*1
                   ↔ y ∈ list_to_set (C:=gset string) rest.*1
                     ∧ (minc ≤ Z.of_nat (support_count T (prefix ∪ {[x]} ∪ {[y]})))%Z) as HN.
      { intros y. rewrite !elem_of_list_to_set, !list_elem_of_fmap. split.
        - intros ([y' t'] & -> & (t0 & Hy & -> & Hsz)%Hnew). cbn [fst].
          split; [by exists (y', t0)|].
          destruct (Hrest y' t0 Hy) as [_ ->].
          rewrite <- tids_of_union, size_tids_of in Hsz.
          by replace (prefix ∪ {[x]} ∪ {[y']}) with (prefix ∪ {[x]} ∪ (prefix ∪ {[y']}))
            by set_solver.
        - intros [([y' t0] & -> & Hy) Hsz]. cbn [fst] in *.
          exists (y', tids_of T (prefix ∪ {[x]}) ∩ t0). split; [done|].
          apply Hnew. exists t0. split; [done|]. split; [done|].
          destruct (Hrest y' t0 Hy) as [_ ->].
          rewrite <- tids_of_union, size_tids_of.
          by replace (prefix ∪ {[x]} ∪ (prefix ∪ {[y']})) with (prefix ∪ {[x]} ∪ {[y']})
            by set_solver. }
      rewrite (decide_ext _ _ _ _
        (extends_split prefix _ _ x (λ I, (minc ≤ Z.of_nat (support_count T I))%Z)
           Hx_pre Hx_R Hanti I HN Hc)).
      destruct (decide (extends prefix (list_to_set rest.*1) I
                        ∧ (minc ≤ Z.of_nat (support_count T I))%Z)) as [HA|HA].
      { rewrite decide_True by tauto. done. }
      destruct (decide (extends (prefix ∪ {[x]}) (list_to_set new.*1) I
                        ∧ (minc ≤ Z.of_nat (support_count T I))%Z)) as [HB|HB].
      { rewrite decide_True by tauto. done. }
      destruct (decide (I = prefix ∪ {[x]})) as [->|HC].
      { rewrite lookup_insert_eq. rewrite decide_True by tauto. done. }
      rewrite lookup_insert_ne by done. rewrite decide_False by tauto. done.
    + destruct (IH prefix rest res) as (res' & -> & Hres'); [lia|done|done|].
      exists res'. split; [done|]. intros I. rewrite Hres'. apply decide_ext.
      symmetry. by apply (extends_skip prefix _ x
        (λ I, (minc ≤ Z.of_nat (support_count T I))%Z)).
Qed.

Theorem eclat_frequents_spec T s (fuel : nat) :
  eclat_fuel T ≤ fuel →
  ∃ m, eclat_frequents fuel T s = Returns m
    ∧ ∀ I, m !! I = if decide (frequent_eclat T s I)
                    then Some (support_of T I) else None.
Proof.
  intros Hfuel. unfold eclat_frequents, eclat_fuel in *.
  destruct (build_vertical_representation_spec T) as (v & -> & Hv).
  cbn [mbind outcome_bind].
  fold (min_sup_count T s).
  assert (dom v = item_universe T) as Hdom.
  { apply set_eq. intros x. rewrite elem_of_dom, Hv. case_decide; [|by split; [intros []|]].
    split; [done|eauto]. }
  destruct (_eclat_recursive_spec T (min_sup_count T s) fuel) with
    (prefix := (∅ : Itemset)) (its := map_to_list v) (res := (∅ : gmap Itemset Q))
    as (m & -> & Hm).
  - unfold min_sup_count. lia.
  - rewrite length_map_to_list, <- size_dom, Hdom. done.
  - apply NoDup_fst_map_to_list.
  - intros x t Hx%elem_of_map_to_list. rewrite Hv in Hx. split; [set_solver|].
    case_decide; [|done]. injection Hx as <-. by rewrite (left_id_L ∅ (∪)).
  - exists m. split; [done|]. intros I. rewrite Hm, lookup_empty. apply decide_ext.
    assert (list_to_set (C:=gset string) (map_to_list v).*1 = item_universe T) as ->.
    { rewrite <- Hdom. apply set_eq. intros x.
      rewrite elem_of_list_to_set, elem_of_dom, list_elem_of_fmap. split.
      - intros ([x' t] & -> & Hx%elem_of_map_to_list). eauto.
      - intros [t Ht]. exists (x, t). split; [done|]. by apply elem_of_map_to_list. }
    unfold frequent_eclat, extends. split.
    + intros [(_ & Hne & _) Hc]. split; [|done].
      by rewrite difference_empty_L in Hne.
    + intros [Hne Hc]. split; [|done]. rewrite difference_empty_L.
      split; [set_solver|]. split; [done|].
      apply support_count_pos_universe. unfold min_sup_count in Hc. lia.
Qed.

(** ** The two thresholds *)



(** ** The entry points *)

Lemma apriori_returns (clock : timer) T s :
  ∃ m, apriori clock T s = Returns (m, (clock 1%nat - clock 0%nat)%Q)
    ∧ ∀ I, m !! I = if decide (frequent_apriori T s I)
                    then Some (support_of T I) else None.
Proof.
  unfold apriori.
  destruct (apriori_frequents_spec T s (apriori_fuel T)) as (m & -> & Hm); [done|].
  by exists m.
Qed.

Lemma eclat_returns (clock : timer) T s :
  ∃ m, eclat clock T s = Returns (m, (clock 1%nat - clock 0%nat)%Q)
    ∧ ∀ I, m !! I = if decide (frequent_eclat T s I)
                    then Some (support_of T I) else None.
Proof.
  unfold eclat.
  destruct (eclat_frequents_spec T s (eclat_fuel T)) as (m & -> & Hm); [done|].
  by exists m.
Qed.

(** More fuel changes nothing. *)
Lemma apriori_frequents_fuel T s (fuel : nat) :
  apriori_fuel T ≤ fuel →
  apriori_frequents fuel T s = apriori_frequents (apriori_fuel T) T s.
Proof.
  intros Hfuel.
  destruct (apriori_frequents_spec T s fuel Hfuel) as (m1 & -> & Hm1).
  destruct (apriori_frequents_spec T s (apriori_fuel T)) as (m2 & -> & Hm2); [done|].
  f_equal. apply map_eq. intros I. by rewrite Hm1, Hm2.
Qed.

Lemma eclat_frequents_fuel T s (fuel : nat) :
  eclat_fuel T ≤ fuel →
  eclat_frequents fuel T s = eclat_frequents (eclat_fuel T) T s.
Proof.
  intros Hfuel.
  destruct (eclat_frequents_spec T s fuel Hfuel) as (m1 & -> & Hm1).
  destruct (eclat_frequents_spec T s (eclat_fuel T)) as (m2 & -> & Hm2); [done|].
  f_equal. apply map_eq. intros I. by rewrite Hm1, Hm2.
Qed.

(** ** Loops that keep a property of the variables *)

Lemma for_each_preserves {A S} (P : S → Prop) (xs : list A)
    (body : A → S → outcome S) (st : S) :
  P st →
  (∀ x st, x ∈ xs → P st → ∃ st', body x st = Returns st' ∧ P st') →
  ∃ st', for_each xs body st = Returns st' ∧ P st'.
Proof.
  intros H0 Hstep. apply (for_each_inv (λ _, P)); [done|].
  intros done x rest st1 Hxs HP. apply Hstep; [|done]. rewrite Hxs. set_solver.
Qed.


(** ** The rule generator *)

Lemma nonzero_lookup (m : gmap Itemset Q) (I : Itemset) :
  Qeq_bool (default 0%Q (m !! I)) 0 = false →
  m !! I = Some (default 0%Q (m !! I)) ∧ ¬ (default 0%Q (m !! I) == 0)%Q.
Proof.
  intros Hz. split.
  - destruct (m !! I); [done|]. done.
  - by apply Qeq_bool_neq.
Qed.

Lemma py_truediv_nonzero (a b : Q) :
  Qeq_bool b 0 = false → py_truediv a b = Returns (a / b)%Q.
Proof. intros Hb. unfold py_truediv. by rewrite Hb. Qed.

Lemma generate_association_rules_spec (m : gmap Itemset Q) (c : Q) :
  ∃ rules, generate_association_rules m c = Returns rules
    ∧ Forall (rule_of m c) rules.
Proof.
  unfold generate_association_rules.
  apply (for_each_preserves (Forall (rule_of m c))); [done|].
  intros [itemset sup_xy] rules Hkey%elem_of_map_to_list Hrules.
  case_decide as Hsz; [by exists rules|].
  apply (for_each_preserves (Forall (rule_of m c))); [done|].
  intros r rules1 Hr%elem_of_seq Hrules1.
  apply (for_each_preserves (Forall (rule_of m c))); [done|].
  intros tuple rules2 Htuple Hrules2. cbn zeta.
  destruct (proj1 (subsets_combinations itemset (list_to_set tuple) r)) as [Hsub Hsize];
    [by exists tuple|].
  destruct (Qeq_bool (default 0%Q (m !! list_to_set tuple)) 0) eqn:Hx;
    [by exists rules2|].
  destruct (Qeq_bool (default 0%Q (m !! (itemset ∖ list_to_set tuple))) 0) eqn:Hy;
    [by exists rules2|].
  cbn [orb]. rewrite py_truediv_nonzero by done. cbn [mbind outcome_bind].
  destruct (Qle_bool c _) eqn:Hc; [|by exists rules2].
  rewrite py_truediv_nonzero by done. cbn [mbind outcome_bind].
  eexists. split; [done|]. apply Forall_app. split; [done|].
  apply Forall_singleton.
  destruct (nonzero_lookup m _ Hx) as [Hmx Hnx].
  destruct (nonzero_lookup m _ Hy) as [Hmy Hny].
  exists itemset, sup_xy, (default 0%Q (m !! list_to_set tuple)),
    (default 0%Q (m !! (itemset ∖ list_to_set tuple))).
  cbn [antecedent consequent support confidence lift].
  split; [done|]. split; [done|]. split.
  { rewrite Hsize. change (size itemset) with (length (elements itemset)). lia. }
  split; [done|]. split; [done|]. split; [done|]. split; [done|].
  split; [done|]. split; [done|]. split; [done|]. split; [done|].
  by apply Qle_bool_iff.
Qed.


(** ** Supports are fractions *)

Lemma support_of_range T (I : Itemset) : (0 <= support_of T I <= 1)%Q.
Proof.
  unfold support_of. pose proof (support_count_le_size T I) as Hle.
  destruct (size T) as [|n] eqn:Hn.
  - assert (support_count T I = 0) as -> by lia. done.
  - assert (0 < inject_Z (Z.of_nat (S n)))%Q as Hpos.
    { replace 0%Q with (inject_Z 0) by done. rewrite <- Zlt_Qlt. lia. }
    split.
    + apply Qle_shift_div_l; [done|]. rewrite Qmult_0_l.
      replace 0%Q with (inject_Z 0) by done. rewrite <- Zle_Qle. lia.
    + apply Qle_shift_div_r; [done|]. rewrite Qmult_1_l. rewrite <- Zle_Qle. lia.
Qed.






Lemma result_map_lookup T (P : Itemset → Prop) `{∀ I, Decision (P I)}
    (m : gmap Itemset Q) (I : Itemset) (q : Q) :
  (∀ I, m !! I = if decide (P I) then Some (support_of T I) else None) →
  m !! I = Some q ↔ P I ∧ q = support_of T I.
Proof.
  intros Hm. rewrite Hm. case_decide; naive_solver.
Qed.


Lemma result_map_supports_wf T (P : Itemset → Prop) `{∀ I, Decision (P I)}
    (m : gmap Itemset Q) :
  (∀ I, m !! I = if decide (P I) then Some (support_of T I) else None) →
  supports_wf m.
Proof.
  intros Hm I q [_ ->]%(result_map_lookup T P); [|done]. split.
  - apply support_of_range.
  - intros J q' HJI [_ ->]%(result_map_lookup T P); [|done]. by apply support_of_anti.
Qed.

(** ** The engines in binary64 *)

(** *** Apriori *)

Lemma kept_by_apriori_anti T s (I J : Itemset) :
  J ⊆ I → J ≠ ∅ → Binary64.kept_by_apriori T s I → Binary64.kept_by_apriori T s J.
Proof.
  intros HJI HJ (_ & HU & Hs). split; [done|]. split; [set_solver|].
  intros J' HJ' Hsub. apply Hs; [done|set_solver].
Qed.

Lemma binary64_keep_frequent_spec {K} (key : K → Itemset) (counts : list (K * nat))
    (n : nat) (s : float) (fr : gmap Itemset float)
    (g : Itemset → nat) :
  (counts = [] ∨ 0 < n) →
  (∀ c cnt, (c, cnt) ∈ counts → cnt = g (key c)) →
  ∃ fr' Lk', Binary64.keep_frequent key counts n s fr = Returns (fr', Lk')
    ∧ (∀ I, fr' !! I =
         if decide (I ∈ key <$> counts.*1 ∧ Binary64.apriori_keeps (g I) n s = true)
         then Some (PrimFloat.div (Binary64.of_int (g I)) (Binary64.of_int n))
         else fr !! I)
    ∧ (∀ I, I ∈ Lk' ↔ I ∈ key <$> counts.*1 ∧ Binary64.apriori_keeps (g I) n s = true).
Proof.
  intros Hn Hg. unfold Binary64.keep_frequent.
  pose (P := λ (done : list (K * nat)) (st : gmap Itemset float * list Itemset),
    (∀ I, st.1 !! I =
       if decide (I ∈ key <$> done.*1 ∧ Binary64.apriori_keeps (g I) n s = true)
       then Some (PrimFloat.div (Binary64.of_int (g I)) (Binary64.of_int n))
       else fr !! I)
    ∧ (∀ I, I ∈ st.2 ↔ I ∈ key <$> done.*1 ∧ Binary64.apriori_keeps (g I) n s = true)).
  match goal with |- context [for_each counts ?body ?st] =>
    destruct (for_each_inv P counts body st) as ([fr' Lk'] & Hrun & HP1 & HP2) end.
  - split; intros I; cbn [fst snd].
    + rewrite decide_False; [done|]. intros [[]%elem_of_nil _].
    + split; [by intros ?%elem_of_nil|]. intros [[]%elem_of_nil _].
  - intros done [c cnt] rest [fr1 L1] Hcounts [HP1 HP2]. cbn [fst snd] in HP1, HP2.
    assert (0 < n) as Hpos.
    { destruct Hn as [->|]; [|done]. by destruct done. }
    assert (cnt = g (key c)) as ->.
    { apply Hg. rewrite Hcounts. apply elem_of_app. right. left. }
    assert (Binary64.py_truediv_int (g (key c)) n
            = Returns (PrimFloat.div (Binary64.of_int (g (key c))) (Binary64.of_int n)))
      as Hdiv.
    { destruct n; [lia|done]. }
    rewrite Hdiv. cbn [mbind outcome_bind].
    assert (∀ I, I ∈ key <$> (done ++ [(c, g (key c))]).*1
                 ↔ I = key c ∨ I ∈ key <$> done.*1) as Hmem.
    { intros I. rewrite !fmap_app, elem_of_app. cbn [fmap list_fmap fst].
      rewrite list_elem_of_singleton. tauto. }
    change (PrimFloat.leb s (PrimFloat.div (Binary64.of_int (g (key c))) (Binary64.of_int n)))
      with (Binary64.apriori_keeps (g (key c)) n s).
    destruct (Binary64.apriori_keeps (g (key c)) n s) eqn:Hle.
    + eexists. split; [done|]. split; intros I; cbn [fst snd].
      * destruct (decide (I = key c)) as [->|Hne].
        -- rewrite lookup_insert_eq. rewrite decide_True; [done|].
           split; [apply Hmem; by left|done].
        -- rewrite lookup_insert_ne by done. rewrite HP1.
           apply decide_ext. rewrite Hmem. tauto.
      * rewrite elem_of_app, list_elem_of_singleton, HP2, Hmem.
        split; [|tauto]. intros [?| ->]; [tauto|]. tauto.
    + eexists. split; [done|]. split; intros I; cbn [fst snd].
      * rewrite HP1. apply decide_ext. rewrite Hmem.
        split; [tauto|]. intros [[->|?] ?]; [congruence|done].
      * rewrite HP2, Hmem. split; [tauto|]. intros [[->|?] ?]; [congruence|done].
  - exists fr', Lk'. done.
Qed.

(** The candidates that pass the test are the itemsets of the next size that
    Apriori keeps: a candidate has all its parts of one item less in the
    level before, and these hold every smaller part. *)
Lemma binary64_candidates_kept T s (k : nat) (Lk : list Itemset) (I : Itemset) :
  2 ≤ k →
  (∀ I, I ∈ Lk ↔ Binary64.kept_by_apriori T s I ∧ size I = k - 1) →
  I ∈ _generate_candidates Lk k
    ∧ Binary64.apriori_keeps (support_count T I) (size T) s = true
  ↔ Binary64.kept_by_apriori T s I ∧ size I = k.
Proof.
  intros Hk HLk. rewrite _generate_candidates_spec. split.
  - intros [(i & j & Hij & HI & Hsz & Hsub) Hs].
    split; [|done]. split; [|split].
    + intros Hempty. rewrite Hempty, size_empty in Hsz. lia.
    + assert (∀ i, i < length Lk → Lk !!! i ⊆ item_universe T) as HU.
      { intros i' Hi'. apply list_lookup_lookup_total_lt in Hi'.
        apply list_elem_of_lookup_2, HLk in Hi' as [(_ & ? & _) _]. done. }
      rewrite HI. apply union_least; apply HU; lia.
    + intros J HJ HJI. destruct (decide (J = I)) as [->|Hne]; [done|].
      assert (∃ x, x ∈ I ∧ x ∉ J) as (x & Hx & HxJ).
      { destruct (set_choose_L (I ∖ J)) as [x Hx]; [|exists x; set_solver].
        intros Hempty. apply Hne, set_eq. intros z. split; [set_solver|].
        intros Hz. destruct (decide (z ∈ J)); [done|].
        assert (z ∈ I ∖ J) as Hin by set_solver. rewrite Hempty in Hin. set_solver. }
      assert (I ∖ {[x]} ∈ Lk) as [(_ & _ & Hparts) _]%HLk.
      { apply Hsub; [set_solver|]. rewrite size_remove by done. lia. }
      apply Hparts; [done|set_solver].
  - intros [HI Hsz].
    assert (∀ J : Itemset, J ⊆ I → size J = k - 1 → J ∈ Lk) as Hsub.
    { intros J HJ HszJ. apply HLk. split; [|done].
      apply (kept_by_apriori_anti T s I); [done| |done].
      intros ->. rewrite size_empty in HszJ. lia. }
    split; [|destruct HI as (Hne & _ & Hparts); by apply Hparts].
    destruct (two_elements I) as (x & y & Hx & Hy & Hxy); [lia|].
    assert (I ∖ {[x]} ∈ Lk) as [i Hi]%list_elem_of_lookup_1.
    { apply Hsub; [set_solver|]. rewrite size_remove by done. lia. }
    assert (I ∖ {[y]} ∈ Lk) as [j Hj]%list_elem_of_lookup_1.
    { apply Hsub; [set_solver|]. rewrite size_remove by done. lia. }
    assert (i ≠ j) as Hne.
    { intros ->. rewrite Hi in Hj. injection Hj as Heq.
      assert (y ∈ I ∖ {[x]}) as Hin by set_solver. rewrite Heq in Hin. set_solver. }
    assert (I = I ∖ {[x]} ∪ I ∖ {[y]}) as HIeq.
    { apply set_eq. intros z. rewrite elem_of_union, !elem_of_difference,
        !elem_of_singleton. destruct (decide (z = x)); naive_solver. }
    pose proof (lookup_lt_Some _ _ _ Hi) as Hli.
    pose proof (lookup_lt_Some _ _ _ Hj) as Hlj.
    apply list_lookup_total_correct in Hi, Hj.
    destruct (decide (i < j)).
    + exists i, j. split; [lia|]. split; [by rewrite Hi, Hj|done].
    + exists j, i. split; [lia|]. split; [|done].
      rewrite Hi, Hj. rewrite (union_comm_L (I ∖ {[y]})). done.
Qed.

(** With the last level empty nothing larger is kept. *)
Lemma kept_by_apriori_small T s (k : nat) (I : Itemset) :
  2 ≤ k →
  (∀ J : Itemset, ¬ (Binary64.kept_by_apriori T s J ∧ size J = k - 1)) →
  Binary64.kept_by_apriori T s I → size I < k.
Proof.
  intros Hk Hnone HI. destruct (decide (size I < k)) as [|Hge]; [done|].
  destruct (subset_of_size I (k - 1)) as (J & HJ & HszJ); [lia|].
  destruct (Hnone J). split; [|done].
  apply (kept_by_apriori_anti T s I); [done| |done].
  intros ->. rewrite size_empty in HszJ. lia.
Qed.

Lemma binary64_apriori_levels_spec T s (fuel k : nat)
    (fr : gmap Itemset float) (Lk : list Itemset) :
  2 ≤ k →
  Binary64.level_inv T s k fr Lk →
  size (item_universe T) + 2 ≤ fuel + k →
  ∃ m, Binary64.apriori_levels fuel T s (size T) fr Lk k = Returns m
    ∧ ∀ I v, m !! I = Some v
             ↔ Binary64.kept_by_apriori T s I ∧ v = Binary64.support_of T I.
Proof.
  revert k fr Lk. induction fuel as [|fuel IH]; intros k fr Lk Hk [Hfr HLk] Hfuel.
  - destruct Lk as [|I0 Lk]; cbn [Binary64.apriori_levels].
    + exists fr. split; [done|]. intros I v. rewrite Hfr.
      split; [tauto|]. intros [HI Hv]. split; [|done]. split; [done|].
      apply (kept_by_apriori_small T s); [lia| |done].
      intros J HJ%HLk. by apply elem_of_nil in HJ.
    + exfalso. assert (I0 ∈ I0 :: Lk) as [(_ & HU & _) Hsz]%HLk by left.
      apply subseteq_size in HU. lia.
  - destruct Lk as [|I0 Lk0] eqn:HeqLk; cbn [Binary64.apriori_levels].
    + exists fr. split; [done|]. intros I v. rewrite Hfr.
      split; [tauto|]. intros [HI Hv]. split; [|done]. split; [done|].
      apply (kept_by_apriori_small T s); [lia| |done].
      intros J HJ%HLk. by apply elem_of_nil in HJ.
    + rewrite <- HeqLk in *.
      assert (0 < size T) as Hn.
      { assert (I0 ∈ Lk) as [(Hne & HU & _) _]%HLk by (rewrite HeqLk; left).
        apply set_choose_L in Hne as [x Hx]. apply (item_universe_size T x). set_solver. }
      destruct (count_candidates_spec T (_generate_candidates Lk k))
        as (sc & -> & Hsc); [apply NoDup_generate_candidates|].
      cbn [mbind outcome_bind].
      destruct (binary64_keep_frequent_spec id (map_to_list sc) (size T) s fr
                  (support_count T))
        as (fr' & Lk' & -> & Hfr' & HLk').
      { by right. }
      { intros c cnt Hc%elem_of_map_to_list. rewrite Hsc in Hc.
        case_decide; [|done]. by injection Hc as <-. }
      cbn [mbind outcome_bind].
      assert (∀ I, I ∈ id <$> (map_to_list sc).*1 ↔ I ∈ _generate_candidates Lk k) as Hdom.
      { intros I. rewrite list_fmap_id. rewrite list_elem_of_fmap. split.
        - intros ([c cnt] & -> & Hc%elem_of_map_to_list). rewrite Hsc in Hc.
          by case_decide.
        - intros HI. exists (I, support_count T I). split; [done|].
          apply elem_of_map_to_list. rewrite Hsc. by rewrite decide_True. }
      assert (∀ I, I ∈ id <$> (map_to_list sc).*1
                   ∧ Binary64.apriori_keeps (support_count T I) (size T) s = true
                   ↔ Binary64.kept_by_apriori T s I ∧ size I = k) as Hcand.
      { intros I. rewrite Hdom. by apply binary64_candidates_kept. }
      apply IH; [lia| |lia]. split.
      * intros I v. rewrite Hfr'. fold (Binary64.support_of T I).
        case_decide as Hc.
        -- apply Hcand in Hc as [HI Hsz]. split.
           ++ intros [= <-]. split; [|done]. split; [done|lia].
           ++ intros [_ ->]. done.
        -- rewrite Hfr. split.
           ++ intros [[HI Hsz] Hv]. split; [|done]. split; [done|lia].
           ++ intros [[HI Hsz] Hv]. split; [|done]. split; [done|].
              destruct (decide (size I = k)); [|lia].
              destruct Hc. by apply Hcand.
      * intros I. rewrite HLk', Hcand.
        replace (k + 1 - 1) with k by lia. done.
Qed.

Lemma binary64_apriori_frequents_spec T s (fuel : nat) :
  apriori_fuel T ≤ fuel →
  ∃ m, Binary64.apriori_frequents fuel T s = Returns m
    ∧ ∀ I v, m !! I = Some v
             ↔ Binary64.kept_by_apriori T s I ∧ v = Binary64.support_of T I.
Proof.
  intros Hfuel. unfold Binary64.apriori_frequents, apriori_fuel in *.
  destruct (binary64_keep_frequent_spec (λ item : string, {[item]})
              (map_to_list (count_items T)) (size T) s ∅ (support_count T))
    as (fr & Lk & -> & Hfr & HLk).
  { destruct (map_to_list (count_items T)) as [|[i c] l] eqn:Hl; [by left|right].
    assert ((i, c) ∈ map_to_list (count_items T)) as Hic by (rewrite Hl; left).
    apply elem_of_map_to_list, elem_of_dom_2 in Hic.
    rewrite dom_count_items in Hic. by apply (item_universe_size T i). }
  { intros i c Hic%elem_of_map_to_list. rewrite count_items_lookup in Hic.
    case_decide; [done|]. by injection Hic as <-. }
  cbn [mbind outcome_bind].
  assert (∀ I, I ∈ (λ item : string, {[item]} : Itemset) <$> (map_to_list (count_items T)).*1
               ∧ Binary64.apriori_keeps (support_count T I) (size T) s = true
               ↔ Binary64.kept_by_apriori T s I ∧ size I < 2) as Hone.
  { intros I. rewrite singletons_of_counts. split.
    - intros [(i & Hi & ->) Hs]. split; [|rewrite size_singleton; lia].
      split; [set_solver|]. split; [set_solver|].
      intros J HJ HJi. replace J with ({[i]} : Itemset); [done|].
      apply set_choose_L in HJ as [x Hx]. apply set_eq. intros z.
      rewrite elem_of_singleton. split; [intros ->|]; set_solver.
    - intros [(Hne & HU & Hs) Hsz]. split; [|by apply Hs].
      assert (size I = 1) as (i & Hi)%size_1_elem_of.
      { apply itemset_size_pos in Hne. lia. }
      apply leibniz_equiv in Hi. exists i. split; [set_solver|done]. }
  apply binary64_apriori_levels_spec; [lia| |lia]. split.
  - intros I v. rewrite Hfr, lookup_empty. fold (Binary64.support_of T I).
    case_decide as HI.
    + apply Hone in HI. split; [by intros [= <-]|by intros [_ ->]].
    + split; [done|]. intros [?%Hone _]. done.
  - intros I. rewrite HLk, Hone. split.
    + intros [HI Hsz]. split; [done|].
      destruct HI as (Hne%itemset_size_pos & _). simpl. lia.
    + intros [HI Hsz]. split; [done|]. simpl in Hsz. lia.
Qed.

(** [apriori] returns for every threshold, and its map holds what
    [kept_by_apriori] describes, each itemset with its rounded support. *)
Lemma binary64_apriori_returns (clock : Binary64.timer) T s :
  ∃ m, Binary64.apriori clock T s = Returns (m, Binary64.elapsed clock)
    ∧ ∀ I v, m !! I = Some v
             ↔ Binary64.kept_by_apriori T s I ∧ v = Binary64.support_of T I.
Proof.
  destruct (binary64_apriori_frequents_spec T s (apriori_fuel T)) as (m & Hrun & Hm);
    [done|].
  exists m. split; [|done]. unfold Binary64.apriori. by rewrite Hrun.
Qed.

(** *** Eclat *)

Lemma binary64_support_of_div T (I : Itemset) :
  0 < size T →
  Binary64.py_truediv_int (support_count T I) (size T)
  = Returns (Binary64.support_of T I).
Proof.
  intros Hn. unfold Binary64.py_truediv_int, Binary64.support_of.
  destruct (size T); [lia|done].
Qed.

Lemma binary64_eclat_recursive_spec T (minc : Z) (fuel : nat) :
  (1 ≤ minc)%Z →
  ∀ (prefix : Itemset) (its : list (string * TIDSet))
    (res : gmap Itemset float),
    length its ≤ fuel →
    NoDup its.*1 →
    (∀ x t, (x, t) ∈ its → (x ∉ prefix) ∧ t = tids_of T (prefix ∪ {[x]})) →
    ∃ res', Binary64._eclat_recursive fuel prefix its minc res (size T) = Returns res'
      ∧ ∀ I, res' !! I =
          if decide (extends prefix (list_to_set its.*1) I
                     ∧ (minc ≤ Z.of_nat (support_count T I))%Z)
          then Some (Binary64.support_of T I) else res !! I.
Proof.
  intros Hminc. induction fuel as [|fuel IH]; intros prefix its res Hlen Hnd Hits.
  - destruct its; [|simpl in Hlen; lia]. exists res. split; [done|].
    intros I. rewrite decide_False; [done|]. intros [[]%extends_empty _].
  - cbn [Binary64._eclat_recursive].
    destruct (list_pop its) as [[[x t] rest]|] eqn:Hpop.
    2: { apply list_pop_None in Hpop as ->. exists res. split; [done|].
         intros I. rewrite decide_False; [done|]. intros [[]%extends_empty _]. }
    apply list_pop_Some in Hpop as ->.
    rewrite fmap_app, list_to_set_app_L. cbn [fmap list_fmap fst list_to_set].
    rewrite (right_id_L ∅ (∪)).
    rewrite fmap_app in Hnd. apply NoDup_app in Hnd as (Hnd & Hx_rest & _).
    assert (x ∉ list_to_set (C:=gset string) rest.*1) as Hx_R.
    { rewrite elem_of_list_to_set. intros Hx. apply (Hx_rest x Hx). left. }
    destruct (Hits x t) as [Hx_pre ->]; [set_solver|].
    assert (∀ y t0, (y, t0) ∈ rest → (y ∉ prefix) ∧ t0 = tids_of T (prefix ∪ {[y]})) as Hrest.
    { intros y t0 Hy. apply Hits. set_solver. }
    rewrite length_app in Hlen. cbn [length] in Hlen.
    rewrite size_tids_of.
    pose proof (count_reaches_anti T minc) as Hanti.
    case_bool_decide as Hc.
    + assert (0 < size T) as Hn.
      { pose proof (support_count_le_size T (prefix ∪ {[x]})). lia. }
      rewrite binary64_support_of_div by done. cbn [mbind outcome_bind].
      match goal with
      | |- context [Binary64._eclat_recursive fuel (prefix ∪ {[x]}) ?nl _ _ _] =>
          set (new := nl) end.
      destruct (new_items_tids_spec (tids_of T (prefix ∪ {[x]})) minc rest new eq_refl)
        as [Hsub Hnew]. clearbody new.
      destruct (IH (prefix ∪ {[x]}) new
                  (<[prefix ∪ {[x]} := Binary64.support_of T (prefix ∪ {[x]})]> res))
        as (res2 & -> & Hres2).
      { apply sublist_length in Hsub. rewrite !length_fmap in Hsub. lia. }
      { by eapply sublist_NoDup. }
      { intros y t' (t0 & Hy & -> & _)%Hnew. destruct (Hrest y t0 Hy) as [Hy_pre ->].
        split.
        - assert (y ∈ rest.*1) by (apply list_elem_of_fmap; by exists (y, tids_of T (prefix ∪ {[y]}))).
          intros [?|Heq%elem_of_singleton]%elem_of_union; [done|]. subst y.
          apply (Hx_rest x); [done|left].
        - rewrite <- tids_of_union. f_equal. set_solver. }
      cbn [mbind outcome_bind].
      destruct (IH prefix rest res2) as (res3 & -> & Hres3); [lia|done|done|].
      exists res3. split; [done|]. intros I. rewrite Hres3, Hres2.
      assert (∀ y, y ∈ list_to_set (C:=gset string) new.*1
                   ↔ y ∈ list_to_set (C:=gset string) rest.*1
                     ∧ (minc ≤ Z.of_nat (support_count T (prefix ∪ {[x]} ∪ {[y]})))%Z) as HN.
      { intros y. rewrite !elem_of_list_to_set, !list_elem_of_fmap. split.
        - intros ([y' t'] & -> & (t0 & Hy & -> & Hsz)%Hnew). cbn [fst].
          split; [by exists (y', t0)|].
          destruct (Hrest y' t0 Hy) as [_ ->].
          rewrite <- tids_of_union, size_tids_of in Hsz.
          by replace (prefix ∪ {[x]} ∪ {[y']}) with (prefix ∪ {[x]} ∪ (prefix ∪ {[y']}))
            by set_solver.
        - intros [([y' t0] & -> & Hy) Hsz]. cbn [fst] in *.
          exists (y', tids_of T (prefix ∪ {[x]}) ∩ t0). split; [done|].
          apply Hnew. exists t0. split; [done|]. split; [done|].
          destruct (Hrest y' t0 Hy) as [_ ->].
          rewrite <- tids_of_union, size_tids_of.
          by replace (prefix ∪ {[x]} ∪ (prefix ∪ {[y']})) with (prefix ∪ {[x]} ∪ {[y']})
            by set_solver. }
      rewrite (decide_ext _ _ _ _
        (extends_split prefix _ _ x (λ I, (minc ≤ Z.of_nat (support_count T I))%Z)
           Hx_pre Hx_R Hanti I HN Hc)).
      destruct (decide (extends prefix (list_to_set rest.*1) I
                        ∧ (minc ≤ Z.of_nat (support_count T I))%Z)) as [HA|HA].
      { rewrite decide_True by tauto. done. }
      destruct (decide (extends (prefix ∪ {[x]}) (list_to_set new.*1) I
                        ∧ (minc ≤ Z.of_nat (support_count T I))%Z)) as [HB|HB].
      { rewrite decide_True by tauto. done. }
      destruct (decide (I = prefix ∪ {[x]})) as [->|HC].
      { rewrite lookup_insert_eq. rewrite decide_True by tauto. done. }
      rewrite lookup_insert_ne by done. rewrite decide_False by tauto. done.
    + destruct (IH prefix rest res) as (res' & -> & Hres'); [lia|done|done|].
      exists res'. split; [done|]. intros I. rewrite Hres'. apply decide_ext.
      symmetry. by apply (extends_skip prefix _ x
        (λ I, (minc ≤ Z.of_nat (support_count T I))%Z)).
Qed.

(** [eclat] returns when [math.ceil] does, with the itemsets that reach the
    absolute threshold. *)
Lemma binary64_eclat_returns (clock : Binary64.timer) T s (minc : Z) :
  Binary64.min_sup_count s (size T) = Returns minc →
  ∃ m, Binary64.eclat clock T s = Returns (m, Binary64.elapsed clock)
    ∧ ∀ I, m !! I = if decide (Binary64.kept_by_eclat T minc I)
                    then Some (Binary64.support_of T I) else None.
Proof.
  intros Hminc. unfold Binary64.eclat, Binary64.eclat_frequents, eclat_fuel.
  destruct (build_vertical_representation_spec T) as (v & -> & Hv).
  cbn [mbind outcome_bind]. rewrite Hminc. cbn [mbind outcome_bind].
  assert (1 ≤ minc)%Z as Hone.
  { unfold Binary64.min_sup_count in Hminc.
    destruct (Binary64.math_ceil _); [|done..].
    cbn [mbind outcome_bind] in Hminc. injection Hminc as <-. lia. }
  assert (dom v = item_universe T) as Hdom.
  { apply set_eq. intros x. rewrite elem_of_dom, Hv. case_decide; [|by split; [intros []|]].
    split; [done|eauto]. }
  destruct (binary64_eclat_recursive_spec T minc (size (item_universe T)) Hone
              (∅ : Itemset) (map_to_list v) (∅ : gmap Itemset float))
    as (m & -> & Hm).
  - rewrite length_map_to_list, <- size_dom, Hdom. done.
  - apply NoDup_fst_map_to_list.
  - intros x t Hx%elem_of_map_to_list. rewrite Hv in Hx. split; [set_solver|].
    case_decide; [|done]. injection Hx as <-. by rewrite (left_id_L ∅ (∪)).
  - exists m. split; [done|]. intros I. rewrite Hm, lookup_empty. apply decide_ext.
    assert (list_to_set (C:=gset string) (map_to_list v).*1 = item_universe T) as ->.
    { rewrite <- Hdom. apply set_eq. intros x.
      rewrite elem_of_list_to_set, elem_of_dom, list_elem_of_fmap. split.
      - intros ([x' t] & -> & Hx%elem_of_map_to_list). eauto.
      - intros [t Ht]. exists (x, t). split; [done|]. by apply elem_of_map_to_list. }
    unfold Binary64.kept_by_eclat, extends. split.
    + intros [(_ & Hne & _) Hc]. split; [|done].
      by rewrite difference_empty_L in Hne.
    + intros [Hne Hc]. split; [|done]. rewrite difference_empty_L.
      split; [set_solver|]. split; [done|].
      apply support_count_pos_universe. lia.
Qed.

(** When [math.ceil] raises, on an infinite product or a NaN, so does
    [eclat]. *)
Lemma binary64_eclat_raises (clock : Binary64.timer) T s (e : exn) :
  Binary64.min_sup_count s (size T) = Raises e →
  Binary64.eclat clock T s = Raises e.
Proof.
  intros Hminc. unfold Binary64.eclat, Binary64.eclat_frequents.
  destruct (build_vertical_representation_spec T) as (v & -> & _).
  cbn [mbind outcome_bind]. by rewrite Hminc.
Qed.

(** *** The rule generator *)

Lemma binary64_py_truediv_nonzero (a b : float) :
  PrimFloat.eqb b PrimFloat.zero = false →
  Binary64.py_truediv a b = Returns (PrimFloat.div a b).
Proof. intros Hb. unfold Binary64.py_truediv. by rewrite Hb. Qed.

(** The guard of line 114 keeps both divisions from a zero divisor, so the
    generator returns on every map and every threshold. *)
Lemma binary64_rules_spec (m : gmap Itemset float) (c : float) :
  ∃ rules, Binary64.generate_association_rules m c = Returns rules
    ∧ Forall (λ r, PrimFloat.leb c (Binary64.confidence r) = true) rules.
Proof.
  unfold Binary64.generate_association_rules.
  set (P := Forall (λ r, PrimFloat.leb c (Binary64.confidence r) = true)).
  apply (for_each_preserves P); [by apply Forall_nil|].
  intros [itemset sup_xy] rules _ Hrules.
  case_decide as Hsz; [by exists rules|].
  apply (for_each_preserves P); [done|].
  intros r rules1 _ Hrules1.
  apply (for_each_preserves P); [done|].
  intros tuple rules2 _ Hrules2. cbn zeta.
  destruct (PrimFloat.eqb (default PrimFloat.zero (m !! list_to_set tuple))
              PrimFloat.zero) eqn:Hx; [by exists rules2|].
  destruct (PrimFloat.eqb (default PrimFloat.zero (m !! (itemset ∖ list_to_set tuple)))
              PrimFloat.zero) eqn:Hy; [by exists rules2|].
  cbn [orb]. rewrite binary64_py_truediv_nonzero by done. cbn [mbind outcome_bind].
  destruct (PrimFloat.leb c _) eqn:Hc; [|by exists rules2].
  rewrite binary64_py_truediv_nonzero by done. cbn [mbind outcome_bind].
  eexists. split; [done|]. apply Forall_app. split; [done|].
  by apply Forall_singleton.
Qed.

(** *** The two tests *)

Lemma tests_agree_min_sup_count (n : nat) (s : float) :
  Binary64.tests_agree n s →
  ∃ minc, Binary64.min_sup_count s n = Returns minc
    ∧ ∀ c, c ≤ n →
        Binary64.apriori_keeps c n s = bool_decide (minc ≤ Z.of_nat c)%Z.
Proof.
  intros Hagree. pose proof (Hagree 0 (Nat.le_0_l n)) as H0.
  unfold Binary64.eclat_keeps in H0.
  destruct (Binary64.min_sup_count s n) as [minc| |] eqn:Hminc; [|done..].
  exists minc. split; [done|]. intros c Hc.
  specialize (Hagree c Hc). unfold Binary64.eclat_keeps in Hagree.
  rewrite Hminc in Hagree. cbn [mbind outcome_bind] in Hagree.
  by injection Hagree as <-.
Qed.

(** Where the two tests agree on the counts, the two engines keep the same
    itemsets. *)
Lemma kept_by_both T (s : float) (minc : Z) (I : Itemset) :
  (1 ≤ minc)%Z →
  (∀ c, c ≤ size T →
     Binary64.apriori_keeps c (size T) s = bool_decide (minc ≤ Z.of_nat c)%Z) →
  Binary64.kept_by_apriori T s I ↔ Binary64.kept_by_eclat T minc I.
Proof.
  intros Hone Hkeeps. split.
  - intros (Hne & _ & Hparts). split; [done|].
    specialize (Hparts I Hne (reflexivity _)).
    rewrite Hkeeps in Hparts by apply support_count_le_size.
    by apply bool_decide_eq_true in Hparts.
  - intros [Hne Hc]. split; [done|]. split.
    + apply support_count_pos_universe. lia.
    + intros J HJ HJI. rewrite Hkeeps by apply support_count_le_size.
      apply bool_decide_eq_true. by apply (count_reaches_anti T minc I).
Qed.

Lemma binary64_min_sup_count_pos (s : float) (n : nat) (minc : Z) :
  Binary64.min_sup_count s n = Returns minc → (1 ≤ minc)%Z.
Proof.
  unfold Binary64.min_sup_count. destruct (Binary64.math_ceil _); [|done..].
  cbn [mbind outcome_bind]. intros [= <-]. lia.
Qed.

Lemma binary64_engines_agree (clock : Binary64.timer) T (s : float) :
  Binary64.tests_agree (size T) s →
  ∃ m, Binary64.apriori clock T s = Returns (m, Binary64.elapsed clock)
     ∧ Binary64.eclat clock T s = Returns (m, Binary64.elapsed clock).
Proof.
  intros (minc & Hminc & Hkeeps)%tests_agree_min_sup_count.
  destruct (binary64_apriori_returns clock T s) as (ma & Ha & Hma).
  destruct (binary64_eclat_returns clock T s minc Hminc) as (me & He & Hme).
  exists ma. split; [done|]. rewrite He. do 2 f_equal.
  apply map_eq. intros I. apply option_eq. intros v. rewrite Hma, Hme.
  pose proof (kept_by_both T s minc I (binary64_min_sup_count_pos _ _ _ Hminc) Hkeeps)
    as Hboth.
  case_decide as Hk.
  - split; [intros [= <-]|intros [_ ->]; done]. split; [by apply Hboth|done].
  - split; [done|]. intros [?%Hboth _]. done.
Qed.

(** * The claims *)

(** ** C1: the two engines against each other *)

(** C1, as stated, fails at [min_support = 0]: on the database
    t1 = {a}, t2 = {b} Apriori records the pair {a, b} with support 0, and
    Eclat, whose absolute threshold is at least one occurrence, does not
    record it. *)
Lemma engines_differ_at_zero_support :
  PrimFloat.leb 0 0 = true ∧ PrimFloat.leb 0 1 = true
  ∧ Binary64.recorded (Binary64.apriori Binary64.zero_clock disjoint_db 0)
      {["a"; "b"]} = Returns (Some 0%float)
  ∧ Binary64.recorded (Binary64.eclat Binary64.zero_clock disjoint_db 0)
      {["a"; "b"]} = Returns None.
Proof. repeat split; vm_compute; reflexivity. Qed.

(** The two result maps of that run in full. *)
Example disjoint_db_at_zero_support :
  Binary64.entries (Binary64.apriori Binary64.zero_clock disjoint_db 0)
    = Returns [(["a"; "b"], 0%float); (["b"], 0.5%float); (["a"], 0.5%float)]
  ∧ Binary64.entries (Binary64.eclat Binary64.zero_clock disjoint_db 0)
    = Returns [(["b"], 0.5%float); (["a"], 0.5%float)].
Proof. split; vm_compute; reflexivity. Qed.

(** The engines also differ where rounding makes their tests differ.  With
    25 transactions and [min_support = 0.28], an item that occurs 7 times
    is kept by Apriori, for [7 / 25] rounds to the very float [0.28], and
    dropped by Eclat, for [0.28 * 25] rounds to a float above 7, whose
    ceiling is 8. *)
Example engines_differ_at_a_rounding_tie :
  Binary64.apriori_keeps 7 25 Binary64.min_support_028 = true
  ∧ Binary64.min_sup_count Binary64.min_support_028 25 = Returns 8%Z
  ∧ Binary64.eclat_keeps 7 25 Binary64.min_support_028 = Returns false
  ∧ Binary64.entries (Binary64.apriori Binary64.zero_clock Binary64.tie_db
                        Binary64.min_support_028)
    = Returns [(["a"], Binary64.min_support_028)]
  ∧ Binary64.entries (Binary64.eclat Binary64.zero_clock Binary64.tie_db
                        Binary64.min_support_028)
    = Returns [].
Proof. repeat split; vm_compute; reflexivity. Qed.

(** C1, amended: for every database of fewer than 2^53 transactions and
    every [min_support] at which the two threshold tests agree on each count
    from 0 to the number of transactions, that is
    [count / n_trans >= min_support] exactly when
    [count >= max(1, math.ceil(min_support * n_trans))], both in binary64,
    [apriori] and [eclat] return the same result map, supports included.
    The tests differ on the count 0 when [min_support] is 0, and they can
    differ at a rounding tie; of those thresholds nothing is said. *)
Theorem cross_engine_equivalence (clock : Binary64.timer) (T : TransactionDB)
    (s : float) :
  Binary64.fits T →
  Binary64.tests_agree (size T) s →
  ∃ m, Binary64.apriori clock T s = Returns (m, Binary64.elapsed clock)
     ∧ Binary64.eclat clock T s = Returns (m, Binary64.elapsed clock).
Proof. intros _. apply binary64_engines_agree. Qed.

Lemma cross_engine_equivalence_witness :
  ∃ m, Binary64.apriori Binary64.zero_clock scenario_db 0.5
       = Returns (m, Binary64.elapsed Binary64.zero_clock)
     ∧ Binary64.eclat Binary64.zero_clock scenario_db 0.5
       = Returns (m, Binary64.elapsed Binary64.zero_clock).
Proof.
  apply (cross_engine_equivalence Binary64.zero_clock scenario_db 0.5).
  - vm_compute. reflexivity.
  - replace (size scenario_db) with 4 by (vm_compute; reflexivity).
    intros c Hc. do 5 (destruct c as [|c]; [vm_compute; reflexivity|]). lia.
Defined.

(** On the scenario at 1/2 both engines return these five itemsets. *)
Example scenario_at_one_half :
  Binary64.entries (Binary64.apriori Binary64.zero_clock scenario_db 0.5)
  = Binary64.entries (Binary64.eclat Binary64.zero_clock scenario_db 0.5)
  ∧ Binary64.recorded (Binary64.eclat Binary64.zero_clock scenario_db 0.5) {["a"; "b"]}
    = Returns (Some 0.5%float)
  ∧ Binary64.recorded (Binary64.eclat Binary64.zero_clock scenario_db 0.5) {["a"; "c"]}
    = Returns None.
Proof. repeat split; vm_compute; reflexivity. Qed.

(** ** C2: the recorded supports *)



(** The scenario of the testable properties: the pair {b, c} is in t2 and in
    t4, so it is frequent at 1/2 as well. *)
Example scenario_frequent_itemsets :
  entries (apriori zero_clock scenario_db (1 # 2))
    = Returns [(["c"], (2 # 4)%Q); (["c"; "b"], (2 # 4)%Q); (["a"; "b"], (2 # 4)%Q);
               (["b"], (3 # 4)%Q); (["a"], (3 # 4)%Q)]
  ∧ entries (eclat zero_clock scenario_db (1 # 2))
    = entries (apriori zero_clock scenario_db (1 # 2)).
Proof. split; vm_compute; reflexivity. Qed.

(** ** C3: downward closure *)



(** ** C4: thresholds outside [0, 1] *)

(** C4, as stated, fails: with [min_support = -1] both engines return a
    result map, and with [min_confidence = 7] the rule generator returns a
    rule list; nothing is reported to the caller. *)
Lemma out_of_range_thresholds_return :
  PrimFloat.leb 0 (-1) = false ∧ PrimFloat.leb 7 1 = false
  ∧ Binary64.entries (Binary64.apriori Binary64.zero_clock disjoint_db (-1))
    = Returns [(["a"; "b"], 0%float); (["b"], 0.5%float); (["a"], 0.5%float)]
  ∧ Binary64.entries (Binary64.eclat Binary64.zero_clock disjoint_db (-1))
    = Returns [(["b"], 0.5%float); (["a"], 0.5%float)]
  ∧ Binary64.rule_entries
      ('(m, _) ← Binary64.apriori Binary64.zero_clock disjoint_db (-1);
       Binary64.generate_association_rules m 7) = Returns [].
Proof. repeat split; vm_compute; reflexivity. Qed.

(** The only errors that a threshold can cause are those of [math.ceil] in
    [eclat]: with two transactions and [min_support = 2^1023] the product is
    infinite. *)
Example eclat_overflow :
  Binary64.eclat Binary64.zero_clock disjoint_db Binary64.huge
    = Raises OverflowError
  ∧ Binary64.eclat Binary64.zero_clock disjoint_db nan = Raises ValueError
  ∧ Binary64.entries (Binary64.apriori Binary64.zero_clock disjoint_db Binary64.huge)
    = Returns []
  ∧ Binary64.entries (Binary64.apriori Binary64.zero_clock disjoint_db nan)
    = Returns [].
Proof. repeat split; vm_compute; reflexivity. Qed.

(** C4, amended: no entry point validates its threshold.  On a database of
    fewer than 2^53 transactions, [apriori] returns a result map for every
    [min_support]; [eclat] returns a result map when the product
    [min_support * n_trans] is finite, and raises the [OverflowError] of
    [math.ceil] when the product is infinite and its [ValueError] when it is
    a NaN; the rule generator returns a rule list for every map and every
    [min_confidence], and every rule of the list passed
    [conf >= min_confidence]. *)
Theorem thresholds_not_validated (clock : Binary64.timer) (T : TransactionDB)
    (s : float) (frequent_itemsets : gmap Itemset float) (min_confidence : float) :
  Binary64.fits T →
  (∃ m, Binary64.apriori clock T s = Returns (m, Binary64.elapsed clock))
  ∧ match FloatOps.Prim2SF (PrimFloat.mul s (Binary64.of_int (size T))) with
    | SpecFloat.S754_infinity _ => Binary64.eclat clock T s = Raises OverflowError
    | SpecFloat.S754_nan => Binary64.eclat clock T s = Raises ValueError
    | _ => ∃ m, Binary64.eclat clock T s = Returns (m, Binary64.elapsed clock)
    end
  ∧ (∃ rules,
       Binary64.generate_association_rules frequent_itemsets min_confidence
       = Returns rules
       ∧ Forall (λ r, PrimFloat.leb min_confidence (Binary64.confidence r) = true)
           rules).
Proof.
  intros _. split; [|split].
  - destruct (binary64_apriori_returns clock T s) as (m & Hrun & _). by exists m.
  - pose proof (binary64_eclat_returns clock T s) as Hret.
    pose proof (binary64_eclat_raises clock T s) as Hraise.
    unfold Binary64.min_sup_count, Binary64.math_ceil in Hret, Hraise.
    destruct (FloatOps.Prim2SF _) as [sg|sg| |sg m e];
      cbn [mbind outcome_bind] in Hret, Hraise.
    + destruct (Hret _ eq_refl) as (m & Hm & _). by exists m.
    + by apply Hraise.
    + by apply Hraise.
    + destruct (Hret _ eq_refl) as (m' & Hm & _). by exists m'.
  - apply binary64_rules_spec.
Qed.

Lemma thresholds_not_validated_witness :
  (∃ m, Binary64.apriori Binary64.zero_clock disjoint_db (-1)
        = Returns (m, Binary64.elapsed Binary64.zero_clock))
  ∧ (∃ m, Binary64.eclat Binary64.zero_clock disjoint_db (-1)
          = Returns (m, Binary64.elapsed Binary64.zero_clock))
  ∧ (∃ rules, Binary64.generate_association_rules ∅ 7 = Returns rules
       ∧ Forall (λ r, PrimFloat.leb 7 (Binary64.confidence r) = true) rules).
Proof.
  apply (thresholds_not_validated Binary64.zero_clock disjoint_db (-1) ∅ 7).
  vm_compute. reflexivity.
Defined.

(** ** C6: the empty database *)



(** ** C7: monotonicity in the thresholds *)



(** ** C8: repeated calls *)


(** ** C5: the shape of a rule *)

Lemma Qdiv_nonneg (a b : Q) : (0 <= a)%Q → (0 < b)%Q → (0 <= a / b)%Q.
Proof.
  intros Ha Hb. apply Qle_shift_div_l; [done|]. by rewrite Qmult_0_l.
Qed.

Lemma Qdiv_pos (a b : Q) : (0 < a)%Q → (0 < b)%Q → (0 < a / b)%Q.
Proof.
  intros Ha Hb. apply Qlt_shift_div_l; [done|]. by rewrite Qmult_0_l.
Qed.

Lemma Qdiv_le_1 (a b : Q) : (a <= b)%Q → (0 < b)%Q → (a / b <= 1)%Q.
Proof.
  intros Hab Hb. apply Qle_shift_div_r; [done|]. by rewrite Qmult_1_l.
Qed.

Lemma Qnonneg_nonzero_pos (a : Q) : (0 <= a)%Q → ¬ (a == 0)%Q → (0 < a)%Q.
Proof.
  intros Ha Hne. apply Qle_lt_or_eq in Ha as [|Heq]; [done|].
  exfalso. apply Hne. by symmetry.
Qed.

(** C5, as stated, fails on a result map of the horizontal engine: at
    [min_support = 0] Apriori records {a, b} with support 0 on the database
    t1 = {a}, t2 = {b}, and at [min_confidence = 0] the generator emits
    {a} -> {b} with confidence 0, which is not in (0, 1]. *)
Lemma zero_confidence_rule :
  rule_entries ('(m, _) ← apriori zero_clock disjoint_db 0;
                generate_association_rules m 0)
  = Returns [(["a"], ["b"], (0 # 2)%Q, (0 # 2)%Q, (0 # 2)%Q);
             (["b"], ["a"], (0 # 2)%Q, (0 # 2)%Q, (0 # 2)%Q)]
  ∧ ¬ (0 < (0 # 2))%Q.
Proof. split; [vm_compute; reflexivity|]. by intros H. Qed.

(** C5, amended: for every map and every [min_confidence], every rule that
    the generator returns has a non-empty antecedent and a non-empty
    consequent, the two are disjoint, and their union is a key of the map.
    When the supports of the map are in [0, 1] and do not grow with the
    itemset, as in the result of either engine, the confidence is in [0, 1],
    it is positive when the support of the union is, and the lift is at
    least 0. *)
Theorem rule_well_formedness (frequent_itemsets : gmap Itemset Q)
    (min_confidence : Q) :
  ∃ rules,
    generate_association_rules frequent_itemsets min_confidence = Returns rules
    ∧ ∀ r, r ∈ rules →
        antecedent r ≠ ∅ ∧ consequent r ≠ ∅
        ∧ antecedent r ∩ consequent r = ∅
        ∧ frequent_itemsets !! (antecedent r ∪ consequent r) = Some (support r)
        ∧ (supports_wf frequent_itemsets →
             (0 <= confidence r <= 1)%Q
             ∧ ((0 < support r)%Q → (0 < confidence r)%Q)
             ∧ (0 <= lift r)%Q).
Proof.
  destruct (generate_association_rules_spec frequent_itemsets min_confidence)
    as (rules & Hrun & Hrules).
  exists rules. split; [done|]. intros r Hr.
  rewrite Forall_forall in Hrules.
  destruct (Hrules r Hr) as (itemset & sup_xy & sup_x & sup_y & Hxy & Hsub & Hsz
    & Hcons & Hx & Hnx & Hy & Hny & Hsup & Hconf & Hlift & _).
  assert (antecedent r ∪ consequent r = itemset) as Hunion.
  { rewrite Hcons. apply set_eq. intros z.
    destruct (decide (z ∈ antecedent r)); set_solver. }
  split; [apply itemset_size_pos; lia|]. split.
  { rewrite Hcons. apply itemset_size_pos.
    rewrite size_difference by done. lia. }
  split; [rewrite Hcons; set_solver|].
  split; [by rewrite Hunion, Hsup|].
  intros Hwf.
  destruct (Hwf _ _ Hxy) as [[Hxy0 _] Hanti].
  destruct (Hwf _ _ Hx) as [[Hx0 _] _].
  destruct (Hwf _ _ Hy) as [[Hy0 _] _].
  pose proof (Hanti _ _ Hsub Hx) as Hle.
  pose proof (Qnonneg_nonzero_pos _ Hx0 Hnx) as Hxpos.
  pose proof (Qnonneg_nonzero_pos _ Hy0 Hny) as Hypos.
  rewrite Hlift, Hconf, Hsup. split; [split|split].
  - by apply Qdiv_nonneg.
  - by apply Qdiv_le_1.
  - intros Hpos. by apply Qdiv_pos.
  - apply Qdiv_nonneg; [|done]. by apply Qdiv_nonneg.
Qed.

(** On the scenario, with the result of Apriori at 1/2 and
    [min_confidence = 6/10]: the four rules of the pairs {a, b} and {b, c}. *)
Example scenario_rules :
  rule_entries ('(m, _) ← apriori zero_clock scenario_db (1 # 2);
                generate_association_rules m (6 # 10))
  = Returns [(["c"], ["b"], (2 # 4)%Q, (8 # 8)%Q, (32 # 24)%Q);
             (["b"], ["c"], (2 # 4)%Q, (8 # 12)%Q, (32 # 24)%Q);
             (["a"], ["b"], (2 # 4)%Q, (8 # 12)%Q, (32 # 36)%Q);
             (["b"], ["a"], (2 # 4)%Q, (8 # 12)%Q, (32 # 36)%Q)].
Proof. vm_compute. reflexivity. Qed.

(** The result maps of the engines have well-formed supports. *)
Lemma engines_supports_wf (clock : timer) (T : TransactionDB) (s : Q) :
  ∃ ma me, apriori clock T s = Returns (ma, elapsed clock)
    ∧ eclat clock T s = Returns (me, elapsed clock)
    ∧ supports_wf ma ∧ supports_wf me.
Proof.
  destruct (apriori_returns clock T s) as (ma & Ha & Hma).
  destruct (eclat_returns clock T s) as (me & He & Hme).
  exists ma, me. split; [done|]. split; [done|].
  split; by eapply (result_map_supports_wf T).
Qed.

(** ** C10: rule generation never divides by zero *)

(** C10: for every map and every [min_confidence] the generator returns,
    and the antecedent and the consequent of every rule it returns are keys
    of the map whose support is not zero, hence positive when the map holds
    no negative support. *)
Theorem rule_generation_total (frequent_itemsets : gmap Itemset Q)
    (min_confidence : Q) :
  ∃ rules,
    generate_association_rules frequent_itemsets min_confidence = Returns rules
    ∧ ∀ r, r ∈ rules →
        ∃ sup_x sup_y : Q,
          frequent_itemsets !! antecedent r = Some sup_x
          ∧ frequent_itemsets !! consequent r = Some sup_y
          ∧ ¬ (sup_x == 0)%Q ∧ ¬ (sup_y == 0)%Q
          ∧ confidence r = (support r / sup_x)%Q
          ∧ lift r = (confidence r / sup_y)%Q
          ∧ ((∀ I q, frequent_itemsets !! I = Some q → (0 <= q)%Q) →
               (0 < sup_x)%Q ∧ (0 < sup_y)%Q).
Proof.
  destruct (generate_association_rules_spec frequent_itemsets min_confidence)
    as (rules & Hrun & Hrules).
  exists rules. split; [done|]. intros r Hr.
  rewrite Forall_forall in Hrules.
  destruct (Hrules r Hr) as (itemset & sup_xy & sup_x & sup_y & Hxy & Hsub & Hsz
    & Hcons & Hx & Hnx & Hy & Hny & Hsup & Hconf & Hlift & _).
  exists sup_x, sup_y. split; [done|]. split; [done|]. split; [done|].
  split; [done|]. split; [by rewrite Hsup|]. split; [by rewrite Hconf|].
  intros Hnonneg. split; apply Qnonneg_nonzero_pos; eauto.
Qed.

(** On the scenario: the rules of Apriori's result at 1/2. *)
Lemma scenario_rules_exist :
  ∃ m rules r,
    apriori zero_clock scenario_db (1 # 2) = Returns (m, elapsed zero_clock)
    ∧ supports_wf m
    ∧ generate_association_rules m (6 # 10) = Returns rules
    ∧ r ∈ rules.
Proof.
  destruct (engines_supports_wf zero_clock scenario_db (1 # 2))
    as (m & me & Ha & _ & Hwf & _).
  destruct (generate_association_rules_spec m (6 # 10)) as (rules & Hrun & _).
  pose proof scenario_rules as Hex. rewrite Ha in Hex.
  cbn [mbind outcome_bind] in Hex. rewrite Hrun in Hex.
  destruct rules as [|r rules]; [discriminate Hex|].
  exists m, (r :: rules), r.
  split; [exact Ha|].
  split; [exact Hwf|].
  split; [exact Hrun|].
  apply list_elem_of_here.
Qed.

Lemma rule_well_formedness_witness :
  ∃ m r,
    apriori zero_clock scenario_db (1 # 2) = Returns (m, elapsed zero_clock)
    ∧ antecedent r ≠ ∅ ∧ consequent r ≠ ∅
    ∧ antecedent r ∩ consequent r = ∅
    ∧ m !! (antecedent r ∪ consequent r) = Some (support r)
    ∧ (0 <= confidence r <= 1)%Q ∧ (0 <= lift r)%Q.
Proof.
  destruct scenario_rules_exist as (m & rules & r & Ha & Hwf & Hrun & Hr).
  destruct (rule_well_formedness m (6 # 10)) as (rules' & Hrun' & Hall).
  rewrite Hrun in Hrun'. injection Hrun' as <-.
  destruct (Hall r Hr) as (H1 & H2 & H3 & H4 & H5).
  destruct (H5 Hwf) as (H6 & _ & H7).
  exists m, r. repeat (split; [assumption|]). assumption.
Defined.

Lemma rule_generation_total_witness :
  ∃ m r (sup_x sup_y : Q),
    apriori zero_clock scenario_db (1 # 2) = Returns (m, elapsed zero_clock)
    ∧ m !! antecedent r = Some sup_x ∧ m !! consequent r = Some sup_y
    ∧ (0 < sup_x)%Q ∧ (0 < sup_y)%Q.
Proof.
  destruct scenario_rules_exist as (m & rules & r & Ha & Hwf & Hrun & Hr).
  destruct (rule_generation_total m (6 # 10)) as (rules' & Hrun' & Hall).
  rewrite Hrun in Hrun'. injection Hrun' as <-.
  destruct (Hall r Hr) as (sup_x & sup_y & Hx & Hy & _ & _ & _ & _ & Hpos).
  destruct Hpos as [Hxpos Hypos].
  { intros I q HI. destruct (Hwf I q HI) as [[H0 _] _]. exact H0. }
  exists m, r, sup_x, sup_y. repeat (split; [assumption|]). assumption.
Defined.

(** ** A program logic for the store *)

Module StoreLogic.
Import Store.

Lemma triple_ret {A} (P : heap → Prop) (a : A) (Q : A → heap → Prop) :
  (∀ h, P h → Q a h) → triple P (ret a) Q.
Proof. intros HQ h a' h' HP [= <- <-]. by apply HQ. Qed.

Lemma triple_bind {A B} (P : heap → Prop) (R : A → heap → Prop)
    (Q : B → heap → Prop) (m : M A) (k : A → M B) :
  triple P m R → (∀ a, triple (R a) (k a) Q) → triple P (bind m k) Q.
Proof.
  intros Hm Hk h b h' HP Hrun. unfold bind in Hrun.
  destruct (m h) as [[a h1]| |] eqn:Hmh; [|done|done].
  eapply Hk; [|exact Hrun]. by eapply Hm.
Qed.

Lemma triple_conseq {A} (P P' : heap → Prop) (Q Q' : A → heap → Prop) (m : M A) :
  triple P' m Q' → (∀ h, P h → P' h) → (∀ a h, Q' a h → Q a h) → triple P m Q.
Proof. intros Hm HP HQ h a h' Hh Hrun. apply HQ. eapply Hm; [|done]. by apply HP. Qed.

Lemma triple_pre {A} (P P' : heap → Prop) (Q : A → heap → Prop) (m : M A) :
  (∀ h, P h → P' h) → triple P' m Q → triple P m Q.
Proof. intros HP Hm. by eapply triple_conseq. Qed.

Lemma triple_post {A} (P : heap → Prop) (Q Q' : A → heap → Prop) (m : M A) :
  triple P m Q' → (∀ a h, Q' a h → Q a h) → triple P m Q.
Proof. intros Hm HQ. by eapply triple_conseq. Qed.

Lemma triple_lift {A} (P : heap → Prop) (o : outcome A) :
  triple P (lift o) (λ _, P).
Proof. intros h a h' HP Hrun. unfold lift in Hrun. destruct o; by simplify_eq. Qed.

Lemma triple_out_of_fuel {A} (P : heap → Prop) (Q : A → heap → Prop) :
  triple P (λ _, OutOfFuel) Q.
Proof. by intros h a h' _ ?. Qed.

Lemma triple_for_in {A S} (I : S → heap → Prop) (xs : list A)
    (body : A → S → M S) (st : S) :
  (∀ x st, x ∈ xs → triple (I st) (body x st) I) →
  triple (I st) (for_in xs body st) I.
Proof.
  revert st. induction xs as [|x xs IH]; intros st Hbody h st' h' HI Hrun.
  - unfold for_in in Hrun. cbn [for_each] in Hrun. by simplify_eq.
  - unfold for_in in Hrun. cbn [for_each mbind outcome_bind] in Hrun.
    destruct (body x st h) as [[st1 h1]| |] eqn:Hb; [|done|done].
    eapply (IH st1); [| |exact Hrun].
    + intros y st2 Hy. apply Hbody. by right.
    + eapply Hbody; [left|exact HI|exact Hb].
Qed.

(** Reading leaves the store as it is. *)
Lemma triple_get_set (P : heap → Prop) (l : loc) : triple P (get_set l) (λ _, P).
Proof.
  intros h a h' HP Hrun. unfold get_set in Hrun.
  destruct (h !! l) as [[]|]; by simplify_eq.
Qed.

Lemma triple_get_db (P : heap → Prop) (l : loc) :
  triple P (get_db l) (λ d h, P h ∧ h !! l = Some (ODb d)).
Proof.
  intros h a h' HP Hrun. unfold get_db in Hrun.
  destruct (h !! l) as [[]|] eqn:Hl; by simplify_eq.
Qed.

Lemma triple_get_freq (P : heap → Prop) (l : loc) : triple P (get_freq l) (λ _, P).
Proof.
  intros h a h' HP Hrun. unfold get_freq in Hrun.
  destruct (h !! l) as [[]|]; by simplify_eq.
Qed.

Lemma triple_get_work (P : heap → Prop) (l : loc) : triple P (get_work l) (λ _, P).
Proof.
  intros h a h' HP Hrun. unfold get_work in Hrun.
  destruct (h !! l) as [[]|]; by simplify_eq.
Qed.

Lemma triple_get_rules (P : heap → Prop) (l : loc) : triple P (get_rules l) (λ _, P).
Proof.
  intros h a h' HP Hrun. unfold get_rules in Hrun.
  destruct (h !! l) as [[]|]; by simplify_eq.
Qed.

(** ** What a call leaves of the store it started from *)

Lemma frame_refl (h0 : heap) : frame h0 ∅ h0.
Proof. split; [done|set_solver]. Qed.

Lemma frame_weaken (h0 h : heap) (X Y : gset loc) :
  frame h0 X h → Y ⊆ X → frame h0 Y h.
Proof. intros [Hsub HX] HY. split; [done|set_solver]. Qed.

Lemma frame_insert (h0 h : heap) (X : gset loc) (l : loc) (o : object) :
  frame h0 X h → l ∉ dom h0 → frame h0 (X ∪ {[l]}) (<[l := o]> h).
Proof.
  intros [Hsub HX] Hl. split.
  - apply insert_subseteq_r; [|done]. by apply not_elem_of_dom.
  - rewrite dom_insert. set_solver.
Qed.

Lemma frame_insert_keep (h0 h : heap) (X : gset loc) (l : loc) (o : object) :
  frame h0 X h → l ∉ dom h0 → frame h0 X (<[l := o]> h).
Proof.
  intros Hf Hl. eapply frame_weaken; [by apply frame_insert|set_solver].
Qed.

Lemma frame_fresh (h0 h : heap) (X : gset loc) :
  frame h0 X h → fresh (dom h) ∉ dom h0.
Proof.
  intros [Hsub _] Hin. apply (is_fresh (dom h)).
  by apply (subseteq_dom h0 h) in Hin.
Qed.

(** A write to an object made after [h0], and a new object. *)
Lemma triple_put (h0 : heap) (X : gset loc) (l : loc) (o : object) :
  l ∉ dom h0 → triple (frame h0 X) (put l o) (λ _, frame h0 X).
Proof.
  intros Hl h [] h' HP [= <-].
  eapply frame_weaken; [by apply frame_insert|set_solver].
Qed.

Lemma triple_alloc (h0 : heap) (X : gset loc) (o : object) :
  triple (frame h0 X) (alloc o) (λ l h, frame h0 (X ∪ {[l]}) h ∧ l ∉ dom h0).
Proof.
  intros h l h' HP [= <- <-]. pose proof (frame_fresh h0 h X HP).
  split; [by apply frame_insert|done].
Qed.

Lemma triple_freq_setitem (h0 : heap) (X : gset loc) (frequents : loc) key sup :
  frequents ∉ dom h0 →
  triple (frame h0 X) (freq_setitem frequents key sup) (λ _, frame h0 X).
Proof.
  intros Hl. unfold freq_setitem.
  eapply triple_bind; [apply triple_get_freq|]. intros m. by apply triple_put.
Qed.

(** *** Apriori *)

Lemma count_items_frame (P : heap → Prop) (transactions : loc) :
  triple P (Store.count_items transactions) (λ _, P).
Proof.
  unfold Store.count_items.
  eapply triple_bind; [apply triple_get_db|]. intros d.
  eapply triple_conseq; [apply (triple_for_in (λ _, P))| |done].
  - intros items_ref ic _.
    eapply triple_bind; [apply triple_get_set|]. intros items. by apply triple_ret.
  - by intros h [? _].
Qed.

Lemma count_candidates_frame (P : heap → Prop) (transactions : loc) Ck :
  triple P (Store.count_candidates transactions Ck) (λ _, P).
Proof.
  unfold Store.count_candidates.
  eapply triple_bind; [apply triple_get_db|]. intros d.
  eapply triple_conseq; [apply (triple_for_in (λ _, P))| |done].
  - intros items_ref sc _.
    eapply triple_bind; [apply triple_get_set|]. intros items.
    apply (triple_for_in (λ _, P)). intros c sc' _.
    case_decide; [|by apply triple_ret].
    eapply triple_bind; [apply triple_lift|]. intros count. by apply triple_ret.
  - by intros h [? _].
Qed.

Lemma keep_frequent_frame {K} (h0 : heap) (X : gset loc) (key : K → Itemset)
    counts n s (frequents : loc) :
  frequents ∉ dom h0 →
  triple (frame h0 X) (Store.keep_frequent key counts n s frequents)
    (λ _, frame h0 X).
Proof.
  intros Hl. unfold Store.keep_frequent.
  apply (triple_for_in (λ _, frame h0 X)). intros [c count] Lk _.
  eapply triple_bind; [apply triple_lift|]. intros sup.
  destruct (Qle_bool s sup); [|by apply triple_ret].
  eapply triple_bind; [by apply triple_freq_setitem|]. intros u. by apply triple_ret.
Qed.

Lemma apriori_levels_frame (h0 : heap) (X : gset loc) fuel transactions s n
    (frequents : loc) Lk k :
  frequents ∉ dom h0 →
  triple (frame h0 X) (Store.apriori_levels fuel transactions s n frequents Lk k)
    (λ _, frame h0 X).
Proof.
  intros Hl. revert Lk k. induction fuel as [|fuel IH]; intros Lk k.
  - destruct Lk; cbn [Store.apriori_levels];
      [by apply triple_ret|apply triple_out_of_fuel].
  - destruct Lk; cbn [Store.apriori_levels]; [by apply triple_ret|].
    eapply triple_bind; [apply count_candidates_frame|]. intros sc.
    eapply triple_bind; [by apply keep_frequent_frame|]. intros Lk'. apply IH.
Qed.

(** A statement that runs with a location it has just made. *)
Lemma triple_with_new {B} (h0 : heap) (o : object) (k : loc → M B)
    (Q : B → heap → Prop) :
  (∀ l, l ∉ dom h0 → triple (frame h0 {[l]}) (k l) Q) →
  triple (frame h0 ∅) (bind (alloc o) k) Q.
Proof.
  intros Hk. eapply triple_bind; [apply triple_alloc|].
  intros l h b h' [Hf Hl] Hrun. eapply (Hk l Hl); [|exact Hrun].
  eapply frame_weaken; [exact Hf|set_solver].
Qed.

Lemma apriori_frame (h0 : heap) (clock : timer) (transactions : loc) (s : Q) :
  triple (frame h0 ∅) (Store.apriori clock transactions s)
    (λ r h, frame h0 {[r.1]} h ∧ r.1 ∉ dom h0).
Proof.
  unfold Store.apriori. cbn zeta.
  eapply triple_bind; [apply count_items_frame|]. intros item_counts.
  eapply triple_bind; [apply triple_get_db|]. intros d.
  apply (triple_pre _ (frame h0 ∅)); [by intros h [? _]|].
  apply triple_with_new. intros frequents Hl.
  eapply triple_bind; [by apply keep_frequent_frame|]. intros Lk.
  eapply triple_bind; [by apply apriori_levels_frame|]. intros u.
  by apply triple_ret.
Qed.

(** *** Eclat *)

Lemma triple_alloc_eq (P : heap → Prop) (o : object) :
  triple P (alloc o) (λ l h', ∃ h, P h ∧ (l ∉ dom h) ∧ h' = <[l := o]> h).
Proof. intros h l h' HP [= <- <-]. exists h. split; [done|]. split; [apply is_fresh|done]. Qed.

Lemma triple_put_eq (P : heap → Prop) (l : loc) (o : object) :
  triple P (put l o) (λ _ h', ∃ h, P h ∧ h' = <[l := o]> h).
Proof. intros h [] h' HP [= <-]. by exists h. Qed.

Lemma triple_lift_eq {A} (P : heap → Prop) (o : outcome A) :
  triple P (lift o) (λ a h, P h ∧ o = Returns a).
Proof. intros h a h' HP Hrun. unfold lift in Hrun. destruct o; by simplify_eq. Qed.

(** A statement that keeps the frame may make a location first. *)
Lemma triple_alloc_frame {B} (h0 : heap) (X : gset loc) (o : object)
    (k : loc → M B) (Q : B → heap → Prop) :
  (∀ l, l ∉ dom h0 → triple (frame h0 (X ∪ {[l]})) (k l) Q) →
  triple (frame h0 X) (bind (alloc o) k) Q.
Proof.
  intros Hk. eapply triple_bind; [apply triple_alloc|].
  intros l h b h' [Hf Hl] Hrun. by eapply (Hk l Hl).
Qed.

Lemma triple_frame_weaken {A} (h0 : heap) (X Y : gset loc) (P : heap → Prop)
    (m : M A) :
  Y ⊆ X → triple P m (λ _, frame h0 X) → triple P m (λ _, frame h0 Y).
Proof.
  intros HY Hm. apply (triple_conseq P P _ (λ _, frame h0 X) m Hm); [done|].
  intros a h Hf. by eapply frame_weaken.
Qed.

(** One item of a transaction in [build_vertical_representation]. *)
Lemma vertical_item_frame (h0 : heap) (vertical : loc) (tid item : string) :
  vertical ∉ dom h0 →
  triple (λ h, frame h0 {[vertical]} h ∧ index_owned h0 vertical h)
    (let* vd := get_db vertical in
     (if decide (item ∉ dom vd) then
        let* new := alloc (OSet ∅) in put vertical (ODb (<[item := new]> vd))
      else ret tt) ;;
     let* vd := get_db vertical in
     let* tids_ref := lift (dict_getitem vd item) in
     let* tids := get_set tids_ref in
     put tids_ref (OSet (tids ∪ {[tid]})))
    (λ _ h, frame h0 {[vertical]} h ∧ index_owned h0 vertical h).
Proof.
  intros Hv.
  eapply triple_bind; [apply triple_get_db|]. intros vd.
  eapply (triple_bind _ (λ _ h, frame h0 {[vertical]} h ∧ index_owned h0 vertical h)).
  - case_decide as Hd.
    + eapply triple_bind; [apply triple_alloc_eq|]. intros new.
      eapply triple_post; [apply triple_put_eq|].
      intros [] h2 (h1 & (h & ((Hf & Hown) & Hvd) & Hnew & ->) & ->).
      assert (new ∉ dom h0) as Hnew0.
      { intros Hin. apply Hnew. destruct Hf as [Hsub _].
        by apply (subseteq_dom h0 h) in Hin. }
      assert (new ≠ vertical) as Hne.
      { intros ->. apply Hnew. destruct Hf as [_ HX]. set_solver. }
      split.
      * apply frame_insert_keep; [|exact Hv].
        apply frame_insert_keep; [exact Hf|exact Hnew0].
      * intros vd' Hvd' item' l Hl. rewrite lookup_insert_eq in Hvd'.
        injection Hvd' as <-.
        destruct (decide (item = item')) as [<-|Hi].
        -- rewrite lookup_insert_eq in Hl. by injection Hl as <-.
        -- rewrite lookup_insert_ne in Hl by done. by eapply (Hown vd).
    + apply triple_ret. by intros h [? _].
  - intros u.
    eapply triple_bind; [apply triple_get_db|]. intros vd'.
    eapply triple_bind; [apply triple_lift_eq|]. intros tids_ref.
    eapply triple_bind; [apply triple_get_set|]. intros tids.
    eapply triple_post; [apply triple_put_eq|].
    intros [] h2 (h & (([Hf Hown] & Hvd) & Hget) & ->).
    unfold dict_getitem in Hget.
    destruct (vd' !! item) as [l|] eqn:Hitem; [|done]. injection Hget as ->.
    pose proof (Hown vd' Hvd item tids_ref Hitem) as Hl0.
    split.
    + by apply frame_insert_keep.
    + intros vd2 Hvd2 item' l Hl.
      destruct (decide (tids_ref = vertical)) as [->|Hne].
      * by rewrite lookup_insert_eq in Hvd2.
      * rewrite lookup_insert_ne in Hvd2 by done. by eapply (Hown vd2).
Qed.

Lemma build_vertical_representation_frame (h0 : heap) (transactions : loc) :
  triple (frame h0 ∅) (Store.build_vertical_representation transactions)
    (λ vertical h, frame h0 {[vertical]} h ∧ vertical ∉ dom h0).
Proof.
  unfold Store.build_vertical_representation.
  eapply triple_bind; [apply triple_alloc_eq|]. intros vertical.
  eapply (triple_bind _
    (λ _ h, (frame h0 {[vertical]} h ∧ index_owned h0 vertical h) ∧ vertical ∉ dom h0)).
  - eapply triple_conseq; [apply triple_get_db| |].
    + intros h (h1 & Hf & Hnew & ->).
      assert (vertical ∉ dom h0) as Hv.
      { intros Hin. apply Hnew. destruct Hf as [Hsub _].
        by apply (subseteq_dom h0 h1) in Hin. }
      instantiate (1 := λ h, (frame h0 {[vertical]} h ∧ index_owned h0 vertical h)
                              ∧ vertical ∉ dom h0).
      split; [|done]. split.
      * eapply frame_weaken; [by apply (frame_insert h0 h1 ∅)|set_solver].
      * intros vd Hvd item l Hl. rewrite lookup_insert_eq in Hvd.
        injection Hvd as <-. by rewrite lookup_empty in Hl.
    + by intros d h [? _].
  - intros d.
    eapply triple_bind.
    + apply (triple_for_in
        (λ _ h, (frame h0 {[vertical]} h ∧ index_owned h0 vertical h)
                ∧ vertical ∉ dom h0)).
      intros [tid items_ref] [] _.
      eapply triple_bind; [apply triple_get_set|]. intros items.
      apply (triple_for_in
        (λ _ h, (frame h0 {[vertical]} h ∧ index_owned h0 vertical h)
                ∧ vertical ∉ dom h0)).
      intros item [] _ h [] h' [HI Hv] Hrun. split; [|done].
      by eapply (vertical_item_frame h0 vertical tid item Hv h).
    + intros []. apply triple_ret. by intros h [[? _] ?].
Qed.

Lemma _eclat_recursive_frame (h0 : heap) (fuel : nat) :
  ∀ (X : gset loc) (prefix : Itemset) (items_tids : loc) (minc : Z)
    (results : loc) (n : nat),
    items_tids ∉ dom h0 → results ∉ dom h0 →
    triple (frame h0 X)
      (Store._eclat_recursive fuel prefix items_tids minc results n)
      (λ _, frame h0 X).
Proof.
  induction fuel as [|fuel IH]; intros X prefix items_tids minc results n Hi Hr.
  - cbn [Store._eclat_recursive].
    eapply triple_bind; [apply triple_get_work|]. intros work.
    destruct (list_pop work) as [[[item tids] rest]|];
      [apply triple_out_of_fuel|by apply triple_ret].
  - cbn [Store._eclat_recursive].
    eapply triple_bind; [apply triple_get_work|]. intros work.
    destruct (list_pop work) as [[[item tids] rest]|]; [|by apply triple_ret].
    eapply triple_bind; [by apply triple_put|]. intros u.
    eapply triple_bind; [apply triple_get_set|]. intros tids_now.
    case_bool_decide; [|by apply IH].
    eapply triple_bind; [apply triple_lift|]. intros support.
    eapply triple_bind; [by apply triple_freq_setitem|]. intros u'.
    apply triple_alloc_frame. intros new Hnew.
    apply (triple_frame_weaken h0 (X ∪ {[new]})); [set_solver|].
    eapply triple_bind; [apply triple_get_work|]. intros work'.
    eapply (triple_bind _ (λ _, frame h0 (X ∪ {[new]}))).
    + apply (triple_for_in (λ _, frame h0 (X ∪ {[new]}))).
      intros [other_item other_tids] [] _.
      eapply triple_bind; [apply triple_get_set|]. intros s1.
      eapply triple_bind; [apply triple_get_set|]. intros s2.
      apply triple_alloc_frame. intros inter Hinter.
      apply (triple_frame_weaken h0 (X ∪ {[new]} ∪ {[inter]})); [set_solver|].
      eapply triple_bind; [apply triple_get_set|]. intros s.
      case_bool_decide; [|by apply triple_ret].
      eapply triple_bind; [apply triple_get_work|]. intros new_work.
      by apply triple_put.
    + intros u''.
      eapply triple_bind; [by apply IH|]. intros u3. by apply IH.
Qed.

Lemma eclat_frame (h0 : heap) (clock : timer) (transactions : loc) (s : Q) :
  triple (frame h0 ∅) (Store.eclat clock transactions s)
    (λ r h, frame h0 {[r.1]} h ∧ r.1 ∉ dom h0).
Proof.
  unfold Store.eclat. cbn zeta.
  eapply triple_bind; [apply build_vertical_representation_frame|]. intros vertical.
  apply (triple_pre _ (frame h0 ∅)).
  { intros h [Hf _]. eapply frame_weaken; [exact Hf|set_solver]. }
  eapply triple_bind; [apply triple_get_db|]. intros d.
  apply (triple_pre _ (frame h0 ∅)); [by intros h [? _]|].
  eapply triple_bind; [apply triple_get_db|]. intros vd.
  apply (triple_pre _ (frame h0 ∅)); [by intros h [? _]|].
  apply triple_alloc_frame. intros items_tids Hi.
  apply triple_alloc_frame. intros results Hr.
  eapply triple_bind; [by apply _eclat_recursive_frame|]. intros u.
  apply triple_ret. intros h Hf. split; [|done].
  eapply frame_weaken; [exact Hf|set_solver].
Qed.

(** *** The rule generator *)

Lemma generate_association_rules_frame (h0 : heap) (frequent_itemsets : loc)
    (min_confidence : Q) :
  triple (frame h0 ∅)
    (Store.generate_association_rules frequent_itemsets min_confidence)
    (λ rules h, frame h0 {[rules]} h ∧ rules ∉ dom h0).
Proof.
  unfold Store.generate_association_rules.
  apply triple_with_new. intros rules Hrules.
  eapply triple_bind; [apply triple_get_freq|]. intros m.
  eapply triple_bind.
  - apply (triple_for_in (λ _, frame h0 {[rules]})).
    intros [itemset sup_xy] [] _.
    case_decide; [by apply triple_ret|].
    apply (triple_for_in (λ _, frame h0 {[rules]})). intros r [] _.
    apply (triple_for_in (λ _, frame h0 {[rules]})). intros tuple [] _. cbn zeta.
    eapply triple_bind; [apply triple_get_freq|]. intros m1.
    eapply triple_bind; [apply triple_get_freq|]. intros m2.
    destruct (_ || _); [by apply triple_ret|].
    eapply triple_bind; [apply triple_lift|]. intros conf.
    destruct (Qle_bool _ _); [|by apply triple_ret].
    eapply triple_bind; [apply triple_lift|]. intros lift_.
    eapply triple_bind; [apply triple_get_rules|]. intros rs.
    by apply triple_put.
  - intros []. by apply triple_ret.
Qed.

Lemma holds_db_frame (h0 h : heap) (X : gset loc) (transactions : loc)
    (T : TransactionDB) :
  frame h0 X h → holds_db h0 transactions T → holds_db h transactions T.
Proof.
  intros [Hsub _] (d & Hd & Hsets). exists d. split.
  - by eapply lookup_weaken.
  - intros tid. destruct (Hsets tid) as [l items Hl|]; constructor.
    by eapply lookup_weaken.
Qed.

End StoreLogic.

(** ** The calls on any store *)

(** Whatever the store holds before a call of [apriori], [eclat] or
    [generate_association_rules] (it need not hold a database or a result
    map at the locations passed), a call that returns leaves every object of
    it unchanged and returns a location that was not allocated before. *)
Lemma calls_extend_the_store (clock : timer) (h : Store.heap)
    (transactions frequent_itemsets : Store.loc) (min_support min_confidence : Q) :
  (∀ r e h',
     Store.apriori clock transactions min_support h = Returns ((r, e), h') →
     h ⊆ h' ∧ (r ∉ dom h) ∧ r ∈ dom h'
     ∧ ∀ T, holds_db h transactions T → holds_db h' transactions T)
  ∧ (∀ r e h',
     Store.eclat clock transactions min_support h = Returns ((r, e), h') →
     h ⊆ h' ∧ (r ∉ dom h) ∧ r ∈ dom h'
     ∧ ∀ T, holds_db h transactions T → holds_db h' transactions T)
  ∧ (∀ r h',
     Store.generate_association_rules frequent_itemsets min_confidence h
       = Returns (r, h') →
     h ⊆ h' ∧ (r ∉ dom h) ∧ r ∈ dom h'
     ∧ ∀ m, h !! frequent_itemsets = Some (Store.OFreq m) →
            h' !! frequent_itemsets = Some (Store.OFreq m)).
Proof.
  split; [|split].
  - intros r e h' Hrun.
    destruct (StoreLogic.apriori_frame h clock transactions min_support h (r, e) h'
                (StoreLogic.frame_refl h) Hrun) as [Hf Hr].
    pose proof Hf as [Hsub HX]. split; [done|]. split; [done|].
    split; [set_solver|]. intros T. by apply (StoreLogic.holds_db_frame h h' {[r]}).
  - intros r e h' Hrun.
    destruct (StoreLogic.eclat_frame h clock transactions min_support h (r, e) h'
                (StoreLogic.frame_refl h) Hrun) as [Hf Hr].
    pose proof Hf as [Hsub HX]. split; [done|]. split; [done|].
    split; [set_solver|]. intros T. by apply (StoreLogic.holds_db_frame h h' {[r]}).
  - intros r h' Hrun.
    destruct (StoreLogic.generate_association_rules_frame h frequent_itemsets min_confidence
                h r h' (StoreLogic.frame_refl h) Hrun) as [Hf Hr].
    pose proof Hf as [Hsub HX]. split; [done|]. split; [done|].
    split; [set_solver|]. intros m Hm. by eapply lookup_weaken.
Qed.

(** ** The store against the values

    A call on a store that holds its arguments returns what the call on the
    values returns: the loops of the two embeddings run in step, related by
    what the store holds at the locations of the objects in use. *)




Lemma refines_for_in {A S T} (R : S → Store.heap → T → Prop) (xs : list A)
    (body : A → S → Store.M S) (pbody : A → T → outcome T) st h pst :
  (∀ x st h pst, x ∈ xs → R st h pst → refines R (body x st h) (pbody x pst)) →
  R st h pst →
  refines R (Store.for_in xs body st h) (for_each xs pbody pst).
Proof.
  revert st h pst. induction xs as [|x xs IH]; intros st h pst Hbody HR; [done|].
  unfold Store.for_in. cbn [for_each mbind outcome_bind].
  assert (refines R (body x st h) (pbody x pst)) as Hx by (apply Hbody; [left|done]).
  unfold refines in Hx.
  destruct (body x st h) as [[st1 h1]| |], (pbody x pst) as [pst1| |]; try done.
  apply IH; [|done]. intros y st2 h2 pst2 Hy. apply Hbody. by right.
Qed.

(** A loop through locations against the loop through the sets they hold. *)
Lemma refines_for_in_fmap {A A' S T} (f : A → A') (R : S → Store.heap → T → Prop)
    (xs : list A) (body : A → S → Store.M S) (pbody : A' → T → outcome T) st h pst :
  (∀ x st h pst, x ∈ xs → R st h pst → refines R (body x st h) (pbody (f x) pst)) →
  R st h pst →
  refines R (Store.for_in xs body st h) (for_each (f <$> xs) pbody pst).
Proof.
  intros Hbody HR.
  assert (for_each (f <$> xs) pbody pst = for_each xs (λ x, pbody (f x)) pst) as ->.
  { clear. revert pst. induction xs as [|x xs IH]; intros pst; [done|].
    cbn [fmap list_fmap for_each]. destruct (pbody (f x) pst); [apply IH|done|done]. }
  by apply refines_for_in.
Qed.

Lemma foldl_for_each {A S} (g : S → A → S) (xs : list A) (st : S) :
  for_each xs (λ x st, Returns (g st x)) st = Returns (foldl g st xs).
Proof. revert st. induction xs as [|x xs IH]; intros st; [done|]. apply IH. Qed.

(** *** Reading the database *)

Lemma holds_db_lookup (h : Store.heap) (transactions : Store.loc) T :
  holds_db h transactions T →
  ∃ d, h !! transactions = Some (Store.ODb d)
    ∧ T = set_at h <$> d
    ∧ ∀ tid l, d !! tid = Some l → h !! l = Some (Store.OSet (set_at h l)).
Proof.
  intros (d & Hd & Hsets). exists d. split; [done|]. split.
  - apply map_eq. intros tid. rewrite lookup_fmap.
    destruct (Hsets tid) as [l items Hl|]; [|done].
    cbn. unfold set_at. by rewrite Hl.
  - intros tid l Hl. specialize (Hsets tid). rewrite Hl in Hsets.
    inversion Hsets as [? items Hitems|]; subst. unfold set_at. by rewrite Hitems.
Qed.



Lemma get_set_run (h : Store.heap) (l : Store.loc) (s : gset string) :
  h !! l = Some (Store.OSet s) → Store.get_set l h = Returns (s, h).
Proof. intros Hl. unfold Store.get_set. by rewrite Hl. Qed.

Lemma get_db_run (h : Store.heap) (l : Store.loc) d :
  h !! l = Some (Store.ODb d) → Store.get_db l h = Returns (d, h).
Proof. intros Hl. unfold Store.get_db. by rewrite Hl. Qed.

Lemma get_freq_run (h : Store.heap) (l : Store.loc) m :
  h !! l = Some (Store.OFreq m) → Store.get_freq l h = Returns (m, h).
Proof. intros Hl. unfold Store.get_freq. by rewrite Hl. Qed.

(** *** Apriori *)








Lemma get_work_run (h : Store.heap) (l : Store.loc) w :
  h !! l = Some (Store.OWork w) → Store.get_work l h = Returns (w, h).
Proof. intros Hl. unfold Store.get_work. by rewrite Hl. Qed.

(** *** The rule generator *)

Lemma refines_bind_ret {A A' B} (R : A → Store.heap → B → Prop)
    (Q : A' → Store.heap → B → Prop) (m : Store.M A) (f : A → A')
    (h : Store.heap) (p : outcome B) :
  refines R (m h) p →
  (∀ a h' b, R a h' b → Q (f a) h' b) →
  refines Q (Store.bind m (λ a, Store.ret (f a)) h) p.
Proof.
  intros Hm Hk. unfold Store.bind, refines in *.
  destruct (m h) as [[a h']| |], p as [b| |]; try done. by apply Hk.
Qed.


(** *** The vertical index *)

Lemma holds_db_items (h : Store.heap) (transactions : Store.loc) T d :
  holds_db h transactions T → h !! transactions = Some (Store.ODb d) →
  map_to_list T = prod_map id (set_at h) <$> map_to_list d
  ∧ Forall (λ p, h !! p.2 = Some (Store.OSet (set_at h p.2))) (map_to_list d).
Proof.
  intros (d' & Hd' & -> & Hsets)%holds_db_lookup Hd. simplify_eq. split.
  - by rewrite map_to_list_fmap.
  - apply Forall_forall. intros [tid l] Hin%elem_of_map_to_list. by eapply Hsets.
Qed.

Lemma set_at_insert_ne (h : Store.heap) (l l' : Store.loc) (o : Store.object) :
  l ≠ l' → set_at (<[l := o]> h) l' = set_at h l'.
Proof. intros Hne. unfold set_at. by rewrite lookup_insert_ne. Qed.

Lemma set_at_insert_eq (h : Store.heap) (l : Store.loc) (s : gset string) :
  set_at (<[l := Store.OSet s]> h) l = s.
Proof. unfold set_at. by rewrite lookup_insert_eq. Qed.

Lemma index_rel_empty (h : Store.heap) :
  index_rel h (fresh (dom h)) (<[fresh (dom h) := Store.ODb ∅]> h) ∅ ∅.
Proof.
  split; [|split; [|split; [|split]]].
  - apply insert_subseteq, not_elem_of_dom, is_fresh.
  - apply lookup_insert_eq.
  - by rewrite fmap_empty.
  - intros i l Hi. by rewrite lookup_empty in Hi.
  - intros i j l Hi. by rewrite lookup_empty in Hi.
Qed.

Lemma index_rel_new h0 vertical h vd v (item : string) :
  vertical ∉ dom h0 → index_rel h0 vertical h vd v →
  index_rel h0 vertical
    (<[vertical := Store.ODb (<[item := fresh (dom h)]> vd)]>
       (<[fresh (dom h) := Store.OSet ∅]> h))
    (<[item := fresh (dom h)]> vd) (<[item := ∅]> v).
Proof.
  intros Hv0 (Hsub & Hv & -> & Hsets & Hinj).
  pose proof (is_fresh (dom h)) as Hfresh. set (new := fresh (dom h)) in *.
  assert (new ≠ vertical) as Hnv.
  { intros Heq. apply Hfresh, elem_of_dom. rewrite Heq. by eexists. }
  assert (new ∉ dom h0) as Hn0.
  { intros Hin. apply Hfresh. by eapply subseteq_dom. }
  assert (∀ i l, vd !! i = Some l → new ≠ l ∧ vertical ≠ l) as Hold.
  { intros i l [Hl _]%Hsets. split.
    - intros <-. apply Hfresh, elem_of_dom. by eexists.
    - intros <-. congruence. }
  set (h2 := <[vertical := _]> _).
  assert (∀ i l, vd !! i = Some l → h2 !! l = h !! l) as Hsame.
  { intros i l [Hn Hv']%Hold. unfold h2. by rewrite !lookup_insert_ne. }
  assert (h2 !! new = Some (Store.OSet ∅)) as Hnew.
  { unfold h2. rewrite lookup_insert_ne by done. apply lookup_insert_eq. }
  split; [|split; [|split; [|split]]].
  - apply insert_subseteq_r; [by apply not_elem_of_dom|].
    apply insert_subseteq_r; [by apply not_elem_of_dom|done].
  - apply lookup_insert_eq.
  - rewrite fmap_insert.
    assert (set_at h2 new = ∅) as -> by (unfold set_at; by rewrite Hnew).
    f_equal.
    apply map_fmap_ext. intros i l Hi. unfold set_at. by rewrite (Hsame i l Hi).
  - intros i l. rewrite lookup_insert. case_decide as Hi.
    + intros [= <-]. unfold set_at. by rewrite Hnew.
    + intros Hl. unfold set_at. rewrite (Hsame i l Hl). by apply (Hsets i).
  - intros i j l. rewrite !lookup_insert.
    repeat case_decide; subst; [done| | |by apply Hinj].
    + intros [= <-] Hj. by destruct (Hold j new Hj).
    + intros Hi [= <-]. by destruct (Hold i new Hi).
Qed.

Lemma index_rel_add h0 vertical h vd v (item : string) (l : Store.loc)
    (tids : TIDSet) :
  index_rel h0 vertical h vd v → vd !! item = Some l →
  index_rel h0 vertical (<[l := Store.OSet tids]> h) vd (<[item := tids]> v).
Proof.
  intros (Hsub & Hv & -> & Hsets & Hinj) Hl.
  destruct (Hsets item l Hl) as [Hset Hl0].
  split; [|split; [|split; [|split]]].
  - apply insert_subseteq_r; [by apply not_elem_of_dom|done].
  - rewrite lookup_insert_ne; [done|]. intros <-. congruence.
  - apply map_eq. intros i. rewrite lookup_insert, !lookup_fmap. case_decide as Hi.
    + subst i. rewrite Hl. cbn. by rewrite set_at_insert_eq.
    + destruct (vd !! i) as [l'|] eqn:Hl'; [|done]. cbn.
      rewrite set_at_insert_ne; [done|]. intros <-. by apply Hi, (Hinj item i l).
  - intros i l' Hl'. destruct (Hsets i l' Hl') as [Hset' Hl0']. split; [|done].
    destruct (decide (l = l')) as [<-|Hne].
    + by rewrite set_at_insert_eq, lookup_insert_eq.
    + by rewrite set_at_insert_ne, lookup_insert_ne.
  - done.
Qed.

Lemma build_vertical_representation_run (h : Store.heap) (transactions : Store.loc) T :
  holds_db h transactions T →
  refines (λ vertical h' v, vertical = fresh (dom h) ∧ ∃ vd, index_rel h vertical h' vd v)
    (Store.build_vertical_representation transactions h)
    (build_vertical_representation T).
Proof.
  intros Hdb. pose proof Hdb as (d & Hd & _).
  destruct (holds_db_items h transactions T d Hdb Hd) as (Hlist & Hsets).
  unfold Store.build_vertical_representation, build_vertical_representation.
  unfold Store.bind at 1, Store.alloc.
  pose proof (is_fresh (dom h)) as Hfresh. set (vertical := fresh (dom h)) in *.
  assert (vertical ≠ transactions) as Hne.
  { intros Heq. apply Hfresh, elem_of_dom. rewrite Heq. by eexists. }
  unfold Store.bind at 1. rewrite (get_db_run _ transactions d) by by rewrite lookup_insert_ne.
  apply (refines_bind_ret (λ _ h' v, ∃ vd, index_rel h vertical h' vd v));
    [|by intros].
  rewrite Hlist. apply refines_for_in_fmap; [|eexists; apply index_rel_empty].
  intros [tid items_ref] u h1 v Hin (vd & Hrel). cbn [prod_map fst snd id].
  rewrite Forall_forall in Hsets. specialize (Hsets _ Hin). cbn in Hsets.
  unfold Store.bind at 1. rewrite (get_set_run h1 items_ref (set_at h items_ref)).
  2:{ destruct Hrel as (Hsub & _). by eapply lookup_weaken. }
  apply refines_for_in; [|by eexists].
  clear vd Hrel. intros item u1 h2 v2 _ (vd & Hrel).
  pose proof Hrel as (Hsub & Hv & -> & Hvd & Hinj).
  unfold Store.bind at 1. rewrite (get_db_run _ _ _ Hv).
  rewrite dom_fmap_L.
  destruct (decide (item ∉ dom vd)) as [Hnew|Hold].
  - unfold Store.bind at 1. cbn [Store.bind Store.alloc Store.put].
    unfold Store.bind at 1, Store.get_db. rewrite lookup_insert_eq.
    unfold Store.bind at 1, Store.lift, dict_getitem. rewrite !lookup_insert_eq.
    cbn [mbind outcome_bind].
    set (new := fresh (dom h2)).
    assert (vertical ≠ new) as Hnv.
    { intros Heq. apply (is_fresh (dom h2)), elem_of_dom. fold new. rewrite <- Heq. by eexists. }
    unfold Store.bind, Store.get_set, Store.put.
    rewrite lookup_insert_ne, lookup_insert_eq by done.
    exists (<[item := new]> vd).
    eapply index_rel_add; [|apply lookup_insert_eq].
    by apply index_rel_new.
  - apply dec_stable in Hold. apply elem_of_dom in Hold as [l Hl].
    cbn [Store.bind Store.ret]. unfold Store.bind at 1. rewrite (get_db_run _ _ _ Hv).
    unfold Store.bind at 1, Store.lift, dict_getitem. rewrite lookup_fmap, Hl.
    cbn [mbind outcome_bind fmap option_fmap option_map].
    destruct (Hvd item l Hl) as [Hset _].
    unfold Store.bind, Store.get_set, Store.put. rewrite Hset.
    exists vd. by eapply index_rel_add.
Qed.

(** *** The depth-first search *)

Lemma unchanged_but_refl X (h : Store.heap) : unchanged_but X h h.
Proof. by intros l. Qed.

Lemma unchanged_but_trans X Y (h h' h'' : Store.heap) :
  unchanged_but X h h' → unchanged_but Y h' h'' →
  (∀ l, l ∈ dom h → l ∈ Y → l ∈ X) →
  unchanged_but X h h''.
Proof.
  intros H1 H2 HY l Hl HX. rewrite <- (H1 l Hl HX). apply H2.
  - apply elem_of_dom. rewrite (H1 l Hl HX). by apply elem_of_dom.
  - intros HlY. by apply HX, HY.
Qed.

Lemma unchanged_but_insert X (h h' : Store.heap) (l : Store.loc) (o : Store.object) :
  unchanged_but X h h' → l ∈ X ∨ l ∉ dom h → unchanged_but X h (<[l := o]> h').
Proof.
  intros H1 Hl l' Hl' HX. rewrite lookup_insert_ne; [by apply H1|].
  intros ->. by destruct Hl.
Qed.

Lemma unchanged_but_dom X (h h' : Store.heap) (l : Store.loc) :
  unchanged_but X h h' → l ∈ dom h → l ∉ X → l ∈ dom h'.
Proof. intros H1 Hl HX. apply elem_of_dom. rewrite (H1 l Hl HX). by apply elem_of_dom. Qed.

Lemma work_rel_mono (h h' : Store.heap) w its :
  work_rel h w its →
  (∀ l s, h !! l = Some (Store.OSet s) → h' !! l = Some (Store.OSet s)) →
  work_rel h' w its.
Proof.
  intros Hrel Hsets. eapply Forall2_impl; [exact Hrel|].
  intros x y [Hx Hy]. split; [done|]. by apply Hsets.
Qed.

Lemma work_rel_unchanged X (h h' : Store.heap) w its :
  work_rel h w its → unchanged_but X h h' →
  (∀ l s, l ∈ X → h !! l ≠ Some (Store.OSet s)) →
  work_rel h' w its.
Proof.
  intros Hrel Hun HX. eapply work_rel_mono; [exact Hrel|].
  intros l s Hl. rewrite <- Hl. apply Hun; [apply elem_of_dom; by eexists|].
  intros Hin. by apply (HX l s).
Qed.

Lemma work_rel_fmap (h : Store.heap) w its :
  work_rel h w its → its = prod_map id (set_at h) <$> w.
Proof.
  induction 1 as [|[x l] [y t] w its [Hx Hl] _ IH]; [done|].
  cbn in *. rewrite <- IH, Hx. do 2 f_equal. unfold set_at. by rewrite Hl.
Qed.

Lemma work_rel_pop (h : Store.heap) w its :
  work_rel h w its →
  match list_pop w, list_pop its with
  | Some (x, rest), Some (y, rest') =>
      x.1 = y.1 ∧ h !! x.2 = Some (Store.OSet y.2) ∧ work_rel h rest rest'
  | None, None => True
  | _, _ => False
  end.
Proof.
  intros Hrel%Forall2_reverse. unfold list_pop.
  destruct Hrel as [|x y w' its' [Hx Hy] Hrest]; [done|].
  split; [done|]. split; [done|]. by apply Forall2_reverse.
Qed.

(** Lines 39-42 of [_eclat_recursive]: the intersections that reach the
    count, in the order of the remaining items. *)
Lemma eclat_extensions_run (h : Store.heap) (tids new_items_tids : Store.loc)
    (t : TIDSet) (min_support_count : Z) w its :
  h !! tids = Some (Store.OSet t) →
  h !! new_items_tids = Some (Store.OWork []) →
  work_rel h w its →
  refines (λ _ h' acc, ∃ nw, h' !! new_items_tids = Some (Store.OWork nw)
                         ∧ work_rel h' nw acc
                         ∧ unchanged_but {[new_items_tids]} h h')
    (Store.for_in w (λ '(other_item, other_tids) _,
       Store.bind (Store.get_set tids) (λ s1,
       Store.bind (Store.get_set other_tids) (λ s2,
       Store.bind (Store.alloc (Store.OSet (s1 ∩ s2))) (λ inter,
       Store.bind (Store.get_set inter) (λ s,
       if bool_decide (min_support_count ≤ Z.of_nat (size s))%Z then
         Store.bind (Store.get_work new_items_tids) (λ new_work,
         Store.put new_items_tids (Store.OWork (new_work ++ [(other_item, inter)])))
       else Store.ret tt))))) tt h)
    (Returns (foldl (λ new_items_tids '(other_item, other_tids),
                let inter := t ∩ other_tids in
                if bool_decide (min_support_count ≤ Z.of_nat (size inter))%Z
                then new_items_tids ++ [(other_item, inter)]
                else new_items_tids) [] its)).
Proof.
  intros Ht Hnew Hrel. rewrite <- foldl_for_each.
  rewrite (work_rel_fmap h w its Hrel).
  assert (Forall (λ x, h !! x.2 = Some (Store.OSet (set_at h x.2))) w) as Hw.
  { clear -Hrel. induction Hrel as [|x y w its [_ Hl] _ IH]; constructor; [|done].
    unfold set_at. by rewrite Hl. }
  rewrite Forall_forall in Hw.
  apply refines_for_in_fmap.
  2:{ exists []. split; [done|]. split; [constructor|apply unchanged_but_refl]. }
  intros [other_item other_tids] u h1 acc Hin (nw & Hnw & Hacc & Hun).
  specialize (Hw _ Hin). cbn in Hw. cbn [prod_map fst snd id].
  assert (∀ l s, h !! l = Some (Store.OSet s) → h1 !! l = Some (Store.OSet s)) as Hkeep.
  { intros l s Hl. rewrite <- Hl. apply Hun; [apply elem_of_dom; by eexists|].
    intros ->%elem_of_singleton. congruence. }
  unfold Store.bind at 1. rewrite (get_set_run h1 tids t (Hkeep _ _ Ht)).
  unfold Store.bind at 1. rewrite (get_set_run h1 other_tids _ (Hkeep _ _ Hw)).
  unfold Store.bind at 1, Store.alloc.
  pose proof (is_fresh (dom h1)) as Hfresh. set (inter := fresh (dom h1)) in *.
  unfold Store.bind at 1, Store.get_set. rewrite lookup_insert_eq.
  assert (inter ≠ new_items_tids) as Hne.
  { intros Heq. apply Hfresh, elem_of_dom. rewrite Heq. by eexists. }
  assert (inter ∉ dom h) as Hih.
  { intros Hi. apply Hfresh. apply (unchanged_but_dom _ _ _ _ Hun Hi).
    by intros ->%elem_of_singleton. }
  assert (work_rel (<[inter := Store.OSet (t ∩ set_at h other_tids)]> h1) nw acc) as Hacc1.
  { eapply work_rel_mono; [exact Hacc|]. intros l s Hl.
    rewrite lookup_insert_ne; [done|]. intros <-.
    apply Hfresh, elem_of_dom. by eexists. }
  case_bool_decide.
  - unfold Store.bind, Store.get_work, Store.put.
    rewrite lookup_insert_ne, Hnw by done.
    eexists. split; [apply lookup_insert_eq|]. split.
    + apply Forall2_app.
      * eapply work_rel_mono; [exact Hacc1|]. intros l s Hl.
        rewrite lookup_insert_ne; [done|]. intros <-.
        rewrite lookup_insert_ne in Hl by done. congruence.
      * constructor; [|constructor]. split; [done|]. cbn.
        rewrite lookup_insert_ne by done. apply lookup_insert_eq.
    + apply unchanged_but_insert; [|left; set_solver].
      apply unchanged_but_insert; [done|by right].
  - exists nw. split; [by rewrite lookup_insert_ne|]. split; [done|].
    apply unchanged_but_insert; [done|by right].
Qed.

Lemma _eclat_recursive_run (fuel : nat) (prefix : Itemset)
    (items_tids results : Store.loc) (min_support_count : Z) (n : nat)
    (h : Store.heap) w its (res : gmap Itemset Q) :
  h !! items_tids = Some (Store.OWork w) → work_rel h w its →
  h !! results = Some (Store.OFreq res) →
  refines (λ _ h' res', h' !! results = Some (Store.OFreq res')
                        ∧ unchanged_but {[items_tids; results]} h h')
    (Store._eclat_recursive fuel prefix items_tids min_support_count results n h)
    (_eclat_recursive fuel prefix its min_support_count res n).
Proof.
  revert prefix items_tids h w its res.
  induction fuel as [|fuel IH]; intros prefix items_tids h w its res Hw Hrel Hres;
    pose proof (work_rel_pop h w its Hrel) as Hpop.
  - cbn [Store._eclat_recursive _eclat_recursive].
    unfold Store.bind. rewrite (get_work_run h items_tids w Hw).
    destruct (list_pop w) as [[[item tids] rest]|], (list_pop its) as [[[item' t] rest']|];
      try done.
  - cbn [Store._eclat_recursive _eclat_recursive].
    unfold Store.bind at 1. rewrite (get_work_run h items_tids w Hw).
    destruct (list_pop w) as [[[item tids] rest]|], (list_pop its) as [[[item' t] rest']|];
      try done.
    destruct Hpop as (Hitem & Ht & Hrest). cbn in Hitem, Ht. subst item'.
    assert (items_tids ≠ results) as Hir by (intros ->; congruence).
    assert (items_tids ≠ tids) as Hit by (intros ->; congruence).
    unfold Store.bind at 1, Store.put.
    set (h1 := <[items_tids := Store.OWork rest]> h).
    assert (∀ l s, h !! l = Some (Store.OSet s) → h1 !! l = Some (Store.OSet s)) as Hkeep1.
    { intros l s Hl. unfold h1. rewrite lookup_insert_ne; [done|]. intros <-. congruence. }
    assert (unchanged_but {[items_tids; results]} h h1) as Hun1.
    { apply unchanged_but_insert; [apply unchanged_but_refl|left; set_solver]. }
    assert (h1 !! items_tids = Some (Store.OWork rest)) as Hw1 by apply lookup_insert_eq.
    assert (h1 !! results = Some (Store.OFreq res)) as Hres1
      by (unfold h1; by rewrite lookup_insert_ne).
    assert (work_rel h1 rest rest') as Hrest1 by (by eapply work_rel_mono).
    unfold Store.bind at 1. rewrite (get_set_run h1 tids t (Hkeep1 _ _ Ht)).
    case_bool_decide.
    + unfold Store.bind at 1, Store.lift.
      destruct (py_truediv_int (size t) n) as [support| |]; [|done|done].
      cbn [mbind outcome_bind].
      unfold Store.bind at 1, Store.freq_setitem.
      unfold Store.bind at 1. rewrite (get_freq_run h1 results res Hres1).
      unfold Store.put.
      set (res1 := <[prefix ∪ {[item]} := support]> res).
      set (h2 := <[results := Store.OFreq res1]> h1).
      unfold Store.bind at 1, Store.alloc.
      pose proof (is_fresh (dom h2)) as Hfresh.
      set (new_items_tids := fresh (dom h2)) in *.
      set (h3 := <[new_items_tids := Store.OWork []]> h2).
      assert (∀ l o, h2 !! l = Some o → new_items_tids ≠ l) as Hnew.
      { intros l o Hl <-. apply Hfresh, elem_of_dom. by eexists. }
      assert (h2 !! items_tids = Some (Store.OWork rest)) as Hw2
        by (unfold h2; by rewrite lookup_insert_ne).
      assert (h2 !! results = Some (Store.OFreq res1)) as Hres2 by apply lookup_insert_eq.
      assert (∀ l s, h !! l = Some (Store.OSet s) → h3 !! l = Some (Store.OSet s)) as Hkeep3.
      { intros l s Hl. assert (h2 !! l = Some (Store.OSet s)) as Hl2.
        { unfold h2. rewrite lookup_insert_ne; [by apply Hkeep1|]. intros <-. congruence. }
        unfold h3. rewrite lookup_insert_ne; [done|]. by eapply Hnew. }
      assert (unchanged_but {[items_tids; results]} h h3) as Hun3.
      { apply unchanged_but_insert.
        - apply unchanged_but_insert; [done|left; set_solver].
        - right. intros Hin. apply Hfresh. unfold h2, h1. rewrite !dom_insert_L. set_solver. }
      assert (h3 !! items_tids = Some (Store.OWork rest)) as Hw3.
      { unfold h3. rewrite lookup_insert_ne; [done|]. by eapply Hnew. }
      assert (h3 !! results = Some (Store.OFreq res1)) as Hres3.
      { unfold h3. rewrite lookup_insert_ne; [done|]. by eapply Hnew. }
      unfold Store.bind at 1. rewrite (get_work_run h3 items_tids rest Hw3).
      pose proof (eclat_extensions_run h3 tids new_items_tids t min_support_count
        rest rest' (Hkeep3 _ _ Ht) (lookup_insert_eq _ _ _)
        (work_rel_mono h h3 rest rest' Hrest Hkeep3)) as Hloop.
      unfold Store.bind at 1. unfold refines in Hloop.
      destruct (Store.for_in rest _ tt h3) as [[u h4]| |]; [|done|done].
      destruct Hloop as (nw & Hnw4 & Hrel4 & Hun4).
      set (new := foldl _ [] rest') in *.
      assert (new_items_tids ≠ results) as Hnr by (by eapply Hnew).
      assert (new_items_tids ≠ items_tids) as Hni by (by eapply Hnew).
      assert (∀ l, l ∈ dom h3 → l ≠ new_items_tids → h4 !! l = h3 !! l) as Hsame4.
      { intros l Hl Hne. apply Hun4; [done|]. by intros ->%elem_of_singleton. }
      assert (h4 !! results = Some (Store.OFreq res1)) as Hres4.
      { rewrite Hsame4; [done|apply elem_of_dom; by eexists|done]. }
      assert (h4 !! items_tids = Some (Store.OWork rest)) as Hw4.
      { rewrite Hsame4; [done|apply elem_of_dom; by eexists|done]. }
      pose proof (IH (prefix ∪ {[item]}) new_items_tids h4 nw new res1 Hnw4 Hrel4 Hres4)
        as Hcall1.
      unfold Store.bind at 1. unfold refines in Hcall1.
      destruct (Store._eclat_recursive fuel (prefix ∪ {[item]}) new_items_tids _ _ _ h4)
        as [[u5 h5]| |],
        (_eclat_recursive fuel (prefix ∪ {[item]}) new _ res1 _) as [res2| |];
        try done.
      destruct Hcall1 as (Hres5 & Hun5). cbn [mbind outcome_bind].
      assert (∀ l, l ∈ dom h3 → l ≠ new_items_tids → l ≠ results → h5 !! l = h3 !! l) as Hsame5.
      { intros l Hl Hn1 Hn2. rewrite <- (Hsame4 l Hl Hn1). apply Hun5; [|set_solver].
        apply elem_of_dom. rewrite (Hsame4 l Hl Hn1). by apply elem_of_dom. }
      assert (h5 !! items_tids = Some (Store.OWork rest)) as Hw5.
      { rewrite Hsame5; [done|apply elem_of_dom; by eexists|done|done]. }
      assert (work_rel h5 rest rest') as Hrest5.
      { eapply work_rel_mono; [exact Hrest|]. intros l s Hl.
        rewrite <- (Hkeep3 l s Hl). apply Hsame5.
        - apply elem_of_dom. rewrite (Hkeep3 l s Hl). by eexists.
        - intros ->. unfold h3 in Hkeep3. specialize (Hkeep3 _ _ Hl).
          rewrite lookup_insert_eq in Hkeep3. congruence.
        - intros ->. congruence. }
      pose proof (IH prefix items_tids h5 rest rest' res2 Hw5 Hrest5 Hres5) as Hcall2.
      unfold refines in *.
      destruct (Store._eclat_recursive fuel prefix items_tids _ _ _ h5) as [[u6 h6]| |],
        (_eclat_recursive fuel prefix rest' _ res2 _) as [res3| |]; try done.
      destruct Hcall2 as (Hres6 & Hun6). split; [done|].
      intros l Hl HX.
      assert (l ∈ dom h3) as Hl3.
      { apply elem_of_dom. rewrite (Hun3 l Hl HX). by apply elem_of_dom. }
      assert (l ≠ new_items_tids) as Hln.
      { intros ->. apply Hfresh. unfold h2, h1. rewrite !dom_insert_L. set_solver. }
      rewrite <- (Hun3 l Hl HX), <- (Hsame5 l Hl3 Hln) by set_solver.
      apply Hun6; [|done].
      apply elem_of_dom. rewrite (Hsame5 l Hl3 Hln) by set_solver. by apply elem_of_dom.
    + pose proof (IH prefix items_tids h1 rest rest' res Hw1 Hrest1 Hres1) as Hcall.
      unfold refines in *.
      destruct (Store._eclat_recursive fuel prefix items_tids _ _ _ h1) as [[u2 h2]| |],
        (_eclat_recursive fuel prefix rest' _ res _) as [res2| |]; try done.
      destruct Hcall as (Hres2 & Hun2). split; [done|].
      eapply unchanged_but_trans; [exact Hun1|exact Hun2|done].
Qed.


(** *** A store for a database *)

Lemma new_db_sets (xs : list (string * gset string)) :
  NoDup xs.*1 →
  ∀ (d : gmap string Store.loc) (h : Store.heap) (T : TransactionDB),
    (∀ tid, option_Forall2 (λ l items, h !! l = Some (Store.OSet items))
                           (d !! tid) (T !! tid)) →
    (∀ x, x ∈ xs → T !! x.1 = None) →
    ∃ d' h',
      Store.for_in xs (λ '(tid, items) d,
        Store.bind (Store.alloc (Store.OSet items)) (λ l, Store.ret (<[tid := l]> d)))
        d h = Returns (d', h')
      ∧ ∀ tid, option_Forall2 (λ l items, h' !! l = Some (Store.OSet items))
                              (d' !! tid) ((list_to_map xs ∪ T) !! tid).
Proof.
  induction xs as [|[tid items] xs IH]; intros Hnodup d h T Hrel Hnew.
  - exists d, h. split; [done|]. intros tid. cbn. by rewrite (left_id_L ∅ (∪)).
  - apply NoDup_cons in Hnodup as [Htid Hnodup].
    pose proof (is_fresh (dom h)) as Hfresh. set (l := fresh (dom h)) in *.
    destruct (IH Hnodup (<[tid := l]> d) (<[l := Store.OSet items]> h)
                (<[tid := items]> T)) as (d' & h' & Hrun & Hrel').
    + intros tid'. rewrite !(lookup_insert _ tid). case_decide.
      * constructor. apply lookup_insert_eq.
      * destruct (Hrel tid') as [l' items' Hl'|]; constructor.
        rewrite lookup_insert_ne; [done|]. intros <-.
        apply Hfresh, elem_of_dom. by eexists.
    + intros x Hx. rewrite lookup_insert_ne; [apply Hnew; by right|].
      intros Heq. apply Htid. cbn. rewrite Heq. by apply list_elem_of_fmap_2.
    + exists d', h'. split; [exact Hrun|].
      assert (list_to_map ((tid, items) :: xs) ∪ T
              = list_to_map xs ∪ <[tid := items]> T) as ->; [|done].
      cbn [list_to_map foldr]. cbn [fst snd uncurry].
      rewrite <- insert_union_l, <- insert_union_r; [done|].
      by apply not_elem_of_list_to_map_1.
Qed.

(** [new_db] makes, in any store, a store that holds the database. *)
Lemma new_db_holds (T : TransactionDB) (h : Store.heap) :
  ∃ transactions h', new_db T h = Returns (transactions, h')
                     ∧ holds_db h' transactions T.
Proof.
  destruct (new_db_sets (map_to_list T) (NoDup_fst_map_to_list T) ∅ h ∅)
    as (d & h1 & Hrun & Hrel).
  { intros tid. rewrite !lookup_empty. constructor. }
  { intros x _. apply lookup_empty. }
  exists (fresh (dom h1)), (<[fresh (dom h1) := Store.ODb d]> h1). split.
  - unfold new_db. unfold Store.bind at 1. by rewrite Hrun.
  - exists d. split; [apply lookup_insert_eq|]. intros tid.
    specialize (Hrel tid).
    rewrite (right_id_L ∅ (∪)), list_to_map_to_list in Hrel.
    destruct Hrel as [l items Hl|]; constructor.
    rewrite lookup_insert_ne; [done|]. intros <-.
    apply (is_fresh (dom h1)), elem_of_dom. by eexists.
Qed.


(** ** C9: the arguments after a call *)


Lemma scenario_store_holds : holds_db scenario_store.2 scenario_store.1 scenario_db.
Proof.
  destruct (new_db_holds scenario_db ∅) as (l & h & Hnew & Hdb).
  unfold scenario_store. rewrite Hnew. exact Hdb.
Qed.


(** The store model runs on the scenario and returns what the engines
    return. *)
Example store_scenario :
  store_entries (Store.apriori zero_clock scenario_store.1 (1 # 2) scenario_store.2)
    = entries (apriori zero_clock scenario_db (1 # 2))
  ∧ store_entries (Store.eclat zero_clock scenario_store.1 (1 # 2) scenario_store.2)
    = entries (eclat zero_clock scenario_db (1 # 2))
  ∧ store_entries (Store.eclat zero_clock scenario_store.1 0 scenario_store.2)
    = entries (eclat zero_clock scenario_db 0)
  ∧ store_entries (Store.apriori zero_clock scenario_store.1 0 scenario_store.2)
    = entries (apriori zero_clock scenario_db 0).
Proof. repeat split; vm_compute; reflexivity. Qed.

(** * The rest of the application *)

(** ** Item names *)

Lemma isspace_lower_char (c : ascii) : isspace (lower_char c) = isspace c.
Proof. destruct c as [[] [] [] [] [] [] [] []]; vm_compute; reflexivity. Qed.

Lemma lower_char_idemp (c : ascii) : lower_char (lower_char c) = lower_char c.
Proof. destruct c as [[] [] [] [] [] [] [] []]; vm_compute; reflexivity. Qed.

Lemma str_lstrip_head (s : string) :
  match str_lstrip s with
  | EmptyString => True
  | String c _ => isspace c = false
  end.
Proof.
  induction s as [|c s IH]; [done|]. cbn [str_lstrip].
  destruct (isspace c) eqn:Hc; [exact IH|exact Hc].
Qed.

Lemma str_rstrip_cons (c : ascii) (s : string) :
  isspace c = false → ∃ r, str_rstrip (String c s) = String c r.
Proof.
  intros Hc. cbn [str_rstrip]. rewrite Hc.
  destruct (str_rstrip s); eauto.
Qed.

Lemma str_rstrip_idemp (s : string) : str_rstrip (str_rstrip s) = str_rstrip s.
Proof.
  induction s as [|c s IH]; [done|]. cbn [str_rstrip].
  destruct (str_rstrip s) as [|d r] eqn:Hr.
  - destruct (isspace c) eqn:Hc; [done|]. cbn. by rewrite Hc.
  - cbn [str_rstrip]. cbn [str_rstrip] in IH. destruct (str_rstrip r).
    + destruct (isspace d); [done|]. by injection IH as ->.
    + by rewrite IH.
Qed.

Lemma str_rstrip_fixed (c : ascii) (s : string) :
  str_rstrip (String c s) = String c s →
  str_rstrip s = s ∧ (s = EmptyString → isspace c = false).
Proof.
  cbn [str_rstrip]. destruct (str_rstrip s) as [|d r].
  - destruct (isspace c); [done|]. by intros [= <-].
  - by intros [= <-].
Qed.

Lemma standard_tail_cons (c : ascii) (s : string) :
  standard_tail (String c s)
  = bool_decide (lower_char c = c)
    && (if isspace c then
          bool_decide (c = " "%char)
          && match s with
             | EmptyString => false
             | String d _ => negb (isspace d)
             end
        else true)
    && standard_tail s.
Proof. reflexivity. Qed.

(** What [standardize_item_name] does after [strip]. *)
Lemma lower_sub_standard (b : bool) (s : string) :
  str_rstrip s = s →
  standard_tail (str_lower (re_sub_whitespace b s)) = true
  ∧ (b = true → s ≠ EmptyString →
     ∃ d r, str_lower (re_sub_whitespace b s) = String d r ∧ isspace d = false).
Proof.
  revert b. induction s as [|c s IH]; intros b Hs; [done|].
  apply str_rstrip_fixed in Hs as [Hs Hlast].
  cbn [re_sub_whitespace]. destruct (isspace c) eqn:Hc.
  - assert (s ≠ EmptyString) as Hne by (intros ->; specialize (Hlast eq_refl); congruence).
    destruct (IH true Hs) as (Htail & d & r & Hr & Hd); [done..|].
    destruct b; [by eauto|]. split; [|done].
    cbn [str_lower]. rewrite Hr in *. rewrite standard_tail_cons, Htail, Hd.
    reflexivity.
  - destruct (IH false Hs) as (Htail & _).
    cbn [str_lower]. rewrite standard_tail_cons.
    rewrite isspace_lower_char, Hc, Htail, lower_char_idemp.
    rewrite bool_decide_eq_true_2 by done. split; [done|].
    intros _ _. eexists _, _. split; [done|]. by rewrite isspace_lower_char.
Qed.

Lemma standardize_item_name_standard (name : string) :
  standard_name (standardize_item_name name) = true.
Proof.
  unfold standardize_item_name, str_strip.
  pose proof (str_lstrip_head name) as Hhead.
  destruct (str_lstrip name) as [|c s]; [done|].
  destruct (str_rstrip_cons c s Hhead) as (r & Hr).
  pose proof (str_rstrip_idemp (String c s)) as Hfix. rewrite Hr in *.
  destruct (lower_sub_standard false (String c r) Hfix) as (Htail & _).
  cbn [re_sub_whitespace] in *. rewrite Hhead in *. cbn [str_lower] in *.
  unfold standard_name. by rewrite isspace_lower_char, Hhead, Htail.
Qed.

Lemma standard_tail_lower (s : string) :
  standard_tail s = true → str_lower s = s.
Proof.
  induction s as [|c s IH]; [done|]. cbn [standard_tail str_lower].
  intros [[Hc%bool_decide_eq_true _]%andb_true_iff Hs]%andb_true_iff.
  by rewrite Hc, IH.
Qed.

Lemma standard_tail_rstrip (s : string) :
  standard_tail s = true → str_rstrip s = s.
Proof.
  induction s as [|c s IH]; [done|]. cbn [standard_tail str_rstrip].
  intros [[_ Hc]%andb_true_iff Hs]%andb_true_iff. rewrite (IH Hs).
  destruct s as [|d s]; [|done].
  destruct (isspace c); [|done]. by rewrite andb_false_r in Hc.
Qed.

Lemma standard_tail_sub (b : bool) (s : string) :
  standard_tail s = true →
  (b = true → match s with EmptyString => True | String c _ => isspace c = false end) →
  re_sub_whitespace b s = s.
Proof.
  revert b. induction s as [|c s IH]; intros b; [done|].
  cbn [standard_tail re_sub_whitespace].
  intros [[_ Hc]%andb_true_iff Hs]%andb_true_iff Hb.
  destruct (isspace c) eqn:Hws.
  - destruct b; [by specialize (Hb eq_refl)|].
    apply andb_true_iff in Hc as [->%bool_decide_eq_true Hnext].
    f_equal. apply IH; [done|]. intros _.
    destruct s as [|d s]; [done|]. by apply negb_true_iff.
  - f_equal. by apply IH.
Qed.

Lemma standard_name_fixed (s : string) :
  standard_name s = true → standardize_item_name s = s.
Proof.
  unfold standardize_item_name, str_strip. destruct s as [|c s]; [done|].
  unfold standard_name. intros [Hc%negb_true_iff Hs]%andb_true_iff.
  cbn [str_lstrip]. rewrite Hc.
  rewrite (standard_tail_rstrip _ Hs), (standard_tail_sub false _ Hs) by done.
  by apply standard_tail_lower.
Qed.

Lemma standard_tail_get (s : string) (i : nat) (c : ascii) :
  standard_tail s = true → String.get i s = Some c →
  lower_char c = c
  ∧ (isspace c = true →
     c = " "%char ∧ ∃ d, String.get (S i) s = Some d ∧ isspace d = false).
Proof.
  revert i. induction s as [|a s IH]; intros i; [done|].
  cbn [standard_tail].
  intros [[Ha%bool_decide_eq_true Hws]%andb_true_iff Hs]%andb_true_iff.
  destruct i as [|i]; [|by apply IH].
  cbn [String.get]. intros [= <-]. split; [done|]. intros Hsp.
  rewrite Hsp in Hws. apply andb_true_iff in Hws as [->%bool_decide_eq_true Hnext].
  split; [done|]. destruct s as [|d s]; [done|].
  exists d. split; [done|]. by apply negb_true_iff.
Qed.

(** X1: [standardize_item_name] is idempotent: a name it returned is
    returned as it is. *)
Theorem standardize_item_name_idempotent (name : string) :
  standardize_item_name (standardize_item_name name) = standardize_item_name name.
Proof. apply standard_name_fixed, standardize_item_name_standard. Qed.

(** X2: in the name that [standardize_item_name] returns no code point has a
    lower case of its own, and whitespace is a single space that is neither
    the first nor the last code point and has no whitespace after it. *)
Theorem standardize_item_name_shape (name : string) (i : nat) (c : ascii) :
  String.get i (standardize_item_name name) = Some c →
  lower_char c = c
  ∧ (isspace c = true →
     c = " "%char ∧ 0 < i
     ∧ ∃ d, String.get (S i) (standardize_item_name name) = Some d
            ∧ isspace d = false).
Proof.
  intros Hget. pose proof (standardize_item_name_standard name) as Hstd.
  destruct (standardize_item_name name) as [|a s] eqn:Hr; [done|].
  apply andb_true_iff in Hstd as [Ha%negb_true_iff Hs].
  destruct (standard_tail_get _ i c Hs Hget) as [Hlow Hsp].
  split; [done|]. intros Hc. destruct (Hsp Hc) as (-> & Hnext).
  split; [done|]. split; [|done].
  destruct i as [|i]; [|lia]. cbn in Hget. injection Hget as ->. congruence.
Qed.

Lemma standardize_item_name_shape_witness :
  String.get 5 (standardize_item_name "  Whole   MILK ") = Some " "%char
  ∧ standardize_item_name "  Whole   MILK " = "whole milk"
  ∧ ∃ d, String.get 6 (standardize_item_name "  Whole   MILK ") = Some d
         ∧ isspace d = false.
Proof.
  split; [reflexivity|]. split; [reflexivity|].
  destruct (standardize_item_name_shape "  Whole   MILK " 5 " " eq_refl)
    as (_ & Hsp).
  destruct (Hsp eq_refl) as (_ & _ & Hd). exact Hd.
Defined.

(** ** Statistics *)

Lemma basic_stats_spec T :
  basic_stats T
  = mkStats (size T) (sum_list_with size (map_to_list T).*2) (size (item_universe T)).
Proof.
  unfold basic_stats, item_universe.
  pose (P := λ (done : list (gset string)) (st : gset string * nat),
          st = (⋃ done, sum_list_with size done)).
  assert (P (map_to_list T).*2
            (foldl (λ '(all_items, total_items) (items : gset string),
                      (all_items ∪ items, total_items + size items))
                   (∅, 0) (map_to_list T).*2)) as HP.
  { apply (foldl_inv P); unfold P; [done|].
    intros done items rest [all_items total] _ [= -> ->].
    rewrite union_list_app_L, sum_list_with_app. cbn.
    by rewrite (right_id_L ∅ (∪)), Nat.add_0_r. }
  unfold P in HP. by rewrite HP.
Qed.

Lemma sum_counts_insert `{Countable K} (m : gmap K nat) (i : K) (c : nat) :
  sum_counts (<[i := c]> m) + default 0 (m !! i) = sum_counts m + c.
Proof.
  unfold sum_counts. destruct (m !! i) as [c0|] eqn:Hi.
  - rewrite <- (insert_delete_id m i c0 Hi) at 2.
    rewrite <- (insert_delete_eq m).
    rewrite !map_to_list_insert by apply lookup_delete_eq. cbn. lia.
  - rewrite map_to_list_insert by done. cbn. lia.
Qed.

(** The counts of the single items add up to the items of the
    transactions. *)
Lemma sum_counts_count_items T :
  sum_counts (count_items T) = sum_list_with size (map_to_list T).*2.
Proof.
  unfold count_items.
  apply (foldl_inv (λ (done : list (gset string)) (ic : gmap string nat),
           sum_counts ic = sum_list_with size done)); [done|].
  intros done items rest ic _ Hic. rewrite sum_list_with_app. cbn.
  rewrite Nat.add_0_r, <- Hic.
  change (size items) with (length (elements items)).
  generalize (elements items). clear.
  intros l. revert ic. induction l as [|x l IH]; intros ic; cbn [foldl length].
  - lia.
  - rewrite IH. pose proof (sum_counts_insert ic x (default 0 (ic !! x) + 1)). lia.
Qed.

Lemma sum_sizes_bounds (l : list (gset string)) :
  size (⋃ l) ≤ sum_list_with size l
  ∧ sum_list_with size l ≤ length l * size (⋃ l).
Proof.
  induction l as [|X l [IH1 IH2]]; [done|]. cbn [union_list foldr sum_list_with length].
  assert (size X ≤ size (X ∪ ⋃ l)) by (apply subseteq_size; set_solver).
  assert (size (⋃ l) ≤ size (X ∪ ⋃ l)) by (apply subseteq_size; set_solver).
  assert (size (X ∪ ⋃ l) ≤ size X + size (⋃ l)).
  { rewrite size_union_alt. 
    assert (size (⋃ l ∖ X) ≤ size (⋃ l)) by (apply subseteq_size; set_solver). lia. }
  split; [lia|]. nia.
Qed.

(** X3: [basic_stats] against the first pass of [apriori]: the unique items
    are the items that [apriori] counts, and the total of the items is the
    sum of these counts.  The unique items are at most the total, and the
    total is at most the unique items times the transactions. *)
Theorem basic_stats_item_counts T :
  unique_items (basic_stats T) = size (count_items T)
  ∧ total_items (basic_stats T) = sum_counts (count_items T)
  ∧ unique_items (basic_stats T) ≤ total_items (basic_stats T)
  ∧ total_items (basic_stats T)
    ≤ transaction_count (basic_stats T) * unique_items (basic_stats T).
Proof.
  rewrite basic_stats_spec. cbn [transaction_count total_items unique_items].
  rewrite <- dom_count_items, size_dom, sum_counts_count_items.
  split; [done|]. split; [done|].
  rewrite <- size_dom, dom_count_items. unfold item_universe.
  rewrite <- length_map_to_list, <- (length_fmap snd).
  apply sum_sizes_bounds.
Qed.

(** ** Preprocessing *)

Lemma clean_items_size (V items : gset string) :
  size (clean_items V items) ≤ size (set_map (D:=gset string) standardize_item_name items).
Proof.
  unfold clean_items. case_decide; [|done].
  apply subseteq_size. intros x. rewrite elem_of_filter. tauto.
Qed.

Lemma elem_of_clean_items (V items : gset string) (i : string) :
  i ∈ clean_items V items
  ↔ (∃ j, j ∈ items ∧ i = standardize_item_name j) ∧ (V ≠ ∅ → i ∈ V).
Proof.
  unfold clean_items. case_decide as HV.
  - rewrite elem_of_filter, elem_of_map. split.
    + intros [Hi (j & -> & Hj)]. split; [by exists j|done].
    + intros [(j & Hj & ->) Hi]. split; [by apply Hi|by exists j].
  - rewrite elem_of_map. split.
    + intros (j & -> & Hj). split; [by exists j|done].
    + intros [(j & Hj & ->) _]. by exists j.
Qed.

(** The state of the loop of [preprocess_transactions] after the
    transactions [done]. *)
Lemma clean_transactions_spec T (V : gset string) :
  let st := clean_transactions T V in
  (∀ tid X, cleaned st !! tid = Some X
            ↔ ∃ items, T !! tid = Some items ∧ X = clean_items V items ∧ 2 ≤ size X)
  ∧ empty_transactions st
    = length (filter (λ p, size (clean_items V p.2) = 0) (map_to_list T))
  ∧ single_item_transactions st
    = length (filter (λ p, size (clean_items V p.2) = 1) (map_to_list T))
  ∧ removed_transactions st = empty_transactions st + single_item_transactions st
  ∧ size T = size (cleaned st) + removed_transactions st
  ∧ total_cleaned_items st = sum_list_with size (map_to_list (cleaned st)).*2
  ∧ (0 ≤ invalid_items_count st)%Z
  ∧ (V = ∅ → invalid_items_count st = 0%Z).
Proof.
  pose (P := λ (done : list (string * gset string)) (st : Cleaning),
    (∀ tid X, cleaned st !! tid = Some X
              ↔ ∃ items, (tid, items) ∈ done ∧ X = clean_items V items ∧ 2 ≤ size X)
    ∧ empty_transactions st
      = length (filter (λ p, size (clean_items V p.2) = 0) done)
    ∧ single_item_transactions st
      = length (filter (λ p, size (clean_items V p.2) = 1) done)
    ∧ removed_transactions st = empty_transactions st + single_item_transactions st
    ∧ length done = size (cleaned st) + removed_transactions st
    ∧ total_cleaned_items st = sum_list_with size (map_to_list (cleaned st)).*2
    ∧ (0 ≤ invalid_items_count st)%Z
    ∧ (V = ∅ → invalid_items_count st = 0%Z)).
  assert (P (map_to_list T) (clean_transactions T V)) as HP.
  { unfold clean_transactions. apply (foldl_inv P); unfold P; clear P.
    - cbn [cleaned empty_transactions single_item_transactions removed_transactions
             total_cleaned_items invalid_items_count].
      split; [|by rewrite map_to_list_empty].
      intros tid X. rewrite lookup_empty. split; [done|].
      by intros (items & ?%elem_of_nil & _).
    - intros done [tid items] rest st Hxs (Hcl & He & Hs & Hr & Hlen & Htot & Hi0 & HiV).
      assert (tid ∉ done.*1) as Hfresh.
      { pose proof (NoDup_fst_map_to_list T) as Hnd. rewrite Hxs in Hnd.
        rewrite fmap_app in Hnd. apply NoDup_app in Hnd as (_ & Hnd & _).
        intros Hin. apply (Hnd tid Hin). cbn. left. }
      assert (cleaned st !! tid = None) as Hnone.
      { destruct (cleaned st !! tid) as [X|] eqn:HX; [|done].
        apply Hcl in HX as (items' & Hin & _). destruct Hfresh.
        apply list_elem_of_fmap. by exists (tid, items'). }
      pose proof (clean_items_size V items) as Hle.
      rewrite !filter_app, !length_app, !filter_cons, !filter_nil. cbn [snd].
      assert (∀ tid' X, (∃ items', (tid', items') ∈ done ++ [(tid, items)]
                           ∧ X = clean_items V items' ∧ 2 ≤ size X)
                ↔ (∃ items', (tid', items') ∈ done
                     ∧ X = clean_items V items' ∧ 2 ≤ size X)
                  ∨ (tid' = tid ∧ X = clean_items V items ∧ 2 ≤ size X)) as Hsplit.
      { intros tid' X. split.
        - intros (items' & [Hin|Hin%list_elem_of_singleton]%elem_of_app & HX & Hsz).
          + left. by exists items'.
          + right. by injection Hin as -> ->.
        - intros [(items' & Hin & HX & Hsz)|(-> & HX & Hsz)].
          + exists items'. split; [apply elem_of_app; by left|done].
          + exists items. split; [|done]. apply elem_of_app. right. by left. }
      assert (clean_transaction V st tid items
              = let X := clean_items V items in
                let i' := if decide (V ≠ ∅)
                          then (invalid_items_count st
                                + (Z.of_nat (size (set_map (D:=gset string)
                                                     standardize_item_name items))
                                   - Z.of_nat (size X)))%Z
                          else invalid_items_count st in
                if decide (size X = 0) then
                  mkCleaning (empty_transactions st + 1) (single_item_transactions st)
                    i' (removed_transactions st + 1) (total_cleaned_items st) (cleaned st)
                else if decide (size X = 1) then
                  mkCleaning (empty_transactions st) (single_item_transactions st + 1)
                    i' (removed_transactions st + 1) (total_cleaned_items st) (cleaned st)
                else
                  mkCleaning (empty_transactions st) (single_item_transactions st)
                    i' (removed_transactions st) (total_cleaned_items st + size X)
                    (<[tid := X]> (cleaned st))) as -> by reflexivity.
      cbv zeta.
      assert ((0 ≤ (if decide (V ≠ ∅)
                    then invalid_items_count st
                         + (Z.of_nat (size (set_map (D:=gset string)
                                              standardize_item_name items))
                            - Z.of_nat (size (clean_items V items)))
                    else invalid_items_count st))%Z
              ∧ (V = ∅ → (if decide (V ≠ ∅)
                    then invalid_items_count st
                         + (Z.of_nat (size (set_map (D:=gset string)
                                              standardize_item_name items))
                            - Z.of_nat (size (clean_items V items)))
                    else invalid_items_count st) = 0)%Z) as [Hi0' HiV'].
      { case_decide; [split; [lia|done]|split; [done|done]]. }
      destruct (decide (size (clean_items V items) = 0)) as [H0|H0];
        [|destruct (decide (size (clean_items V items) = 1)) as [H1|H1]];
        cbn [cleaned empty_transactions single_item_transactions removed_transactions
               total_cleaned_items invalid_items_count length].
      + rewrite decide_False by lia.
        refine (conj _ (conj _ (conj _ (conj _ (conj _ (conj _ (conj Hi0' HiV')))))));
          [|cbn [length]; lia..|done].
        intros tid' X. rewrite Hsplit, Hcl. split; [by left|].
        intros [?|(_ & -> & ?)]; [done|lia].
      + refine (conj _ (conj _ (conj _ (conj _ (conj _ (conj _ (conj Hi0' HiV')))))));
          [|cbn [length]; lia..|done].
        intros tid' X. rewrite Hsplit, Hcl. split; [by left|].
        intros [?|(_ & -> & ?)]; [done|lia].
      + refine (conj _ (conj _ (conj _ (conj _ (conj _ (conj _ (conj Hi0' HiV')))))));
          [|cbn [length]; lia..| |].
        * intros tid' X. rewrite Hsplit, lookup_insert_Some, Hcl. split.
          -- intros [[<- <-]|[_ ?]]; [right; split; [done|split; [done|lia]]|by left].
          -- intros [(items' & Hin & HX)|(-> & -> & _)]; [right|by left].
             split; [|by exists items'].
             intros <-. apply Hfresh, list_elem_of_fmap. by exists (tid, items').
        * rewrite map_size_insert_None by done. lia.
        * rewrite map_to_list_insert by done. cbn. lia. }
  destruct HP as (Hcl & He & Hs & Hr & Hlen & Htot & Hi0 & HiV).
  cbv zeta. split; [|by rewrite <- length_map_to_list].
  intros tid X. rewrite Hcl. by setoid_rewrite elem_of_map_to_list.
Qed.

Lemma clean_items_fixed (V items : gset string) :
  (∀ i, i ∈ items → standardize_item_name i = i ∧ (V ≠ ∅ → i ∈ V)) →
  clean_items V items = items.
Proof.
  intros Hitems. apply set_eq. intros i. rewrite elem_of_clean_items. split.
  - intros [(j & Hj & ->) _]. by rewrite (proj1 (Hitems j Hj)).
  - intros Hi. destruct (Hitems i Hi) as [Hstd HV]. split; [|done].
    exists i. by split.
Qed.

Lemma clean_items_clean (V items : gset string) (i : string) :
  i ∈ clean_items V items → standardize_item_name i = i ∧ (V ≠ ∅ → i ∈ V).
Proof.
  intros [(j & _ & ->) HV]%elem_of_clean_items. split; [|done].
  apply standard_name_fixed, standardize_item_name_standard.
Qed.

(** X4: [preprocess_transactions] keeps a transaction, under its id, when at
    least two different items are left of it, and what it keeps is the set
    of the standardized names of its items, without those that are not in
    [valid_products] when that set is not empty. *)
Theorem preprocess_transactions_kept T (valid_products : gset string)
    (tid : string) (X : gset string) :
  (preprocess_transactions T valid_products).1 !! tid = Some X
  ↔ ∃ items, T !! tid = Some items
      ∧ (∀ i, i ∈ X ↔ (∃ j, j ∈ items ∧ i = standardize_item_name j)
                       ∧ (valid_products ≠ ∅ → i ∈ valid_products))
      ∧ 2 ≤ size X.
Proof.
  destruct (clean_transactions_spec T valid_products) as (Hcl & _).
  cbn [preprocess_transactions fst]. rewrite Hcl. split.
  - intros (items & HT & -> & Hsz). exists items. split; [done|]. split; [|done].
    intros i. apply elem_of_clean_items.
  - intros (items & HT & HX & Hsz). exists items. split; [done|]. split; [|done].
    apply set_eq. intros i. by rewrite HX, elem_of_clean_items.
Qed.

(** A transaction with two spellings of one product, a second product and
    an item that is not a product. *)
Example preprocess_transactions_kept_example :
  (preprocess_transactions {[ "t1" := {[ " Milk"; "milk "; "Bread"; "Soap" ]} ]}
     {[ "milk"; "bread" ]}).1 !! "t1" = Some {[ "milk"; "bread" ]}.
Proof.
  cbn [preprocess_transactions fst].
  apply (proj1 (clean_transactions_spec _ _)).
  exists {[ " Milk"; "milk "; "Bread"; "Soap" ]}.
  split; [apply lookup_singleton_eq|].
  assert (clean_items {[ "milk"; "bread" ]} {[ " Milk"; "milk "; "Bread"; "Soap" ]}
          = {[ "milk"; "bread" ]}) as ->.
  { apply (bool_decide_unpack _). vm_compute. reflexivity. }
  split; [done|]. vm_compute. lia.
Qed.

Lemma filter_length_none {A} (P : A → Prop) `{∀ x, Decision (P x)} (l : list A) :
  (∀ x, x ∈ l → ¬ P x) → length (filter P l) = 0.
Proof.
  intros Hl. induction l as [|x l IH]; [done|]. rewrite filter_cons.
  rewrite decide_False by (apply Hl; left). apply IH. intros y Hy. apply Hl. by right.
Qed.

Lemma all_clean_items_universe (C : TransactionDB) :
  (if decide (C ≠ ∅) then ⋃ (map_to_list C).*2 else ∅ : gset string)
  = item_universe C.
Proof.
  unfold item_universe. case_decide as HC; [done|].
  subst. by rewrite map_to_list_empty.
Qed.

(** X5: the report of [preprocess_transactions] adds up.  The transactions
    removed are the empty ones and the single-item ones, the transactions
    before are the valid ones and the removed ones, the count of invalid
    items is not negative, and the three numbers after cleaning are what
    [basic_stats] gives for the cleaned database, in which the items are
    at least twice the transactions. *)
Theorem preprocess_report_adds_up T (valid_products : gset string) :
  let C := (preprocess_transactions T valid_products).1 in
  ∃ (empty single : nat) (invalid : Z),
    (preprocess_transactions T valid_products).2
      = join_lines (report_lines (size T) empty single invalid
          (transaction_count (basic_stats C)) (total_items (basic_stats C))
          (unique_items (basic_stats C)) (empty + single))
    ∧ size T = transaction_count (basic_stats C) + (empty + single)
    ∧ (0 ≤ invalid)%Z
    ∧ (valid_products = ∅ → invalid = 0%Z)
    ∧ 2 * transaction_count (basic_stats C) ≤ total_items (basic_stats C).
Proof.
  destruct (clean_transactions_spec T valid_products)
    as (Hcl & He & Hs & Hr & Hlen & Htot & Hi0 & HiV).
  cbv zeta.
  exists (empty_transactions (clean_transactions T valid_products)),
    (single_item_transactions (clean_transactions T valid_products)),
    (invalid_items_count (clean_transactions T valid_products)).
  unfold preprocess_transactions. cbn [fst snd].
  rewrite all_clean_items_universe, basic_stats_spec.
  cbn [transaction_count total_items unique_items].
  rewrite <- Htot, <- Hr. split; [done|]. split; [done|]. split; [done|].
  split; [done|]. rewrite Htot.
  assert (Forall (λ X : gset string, 2 ≤ size X)
            (map_to_list (cleaned (clean_transactions T valid_products))).*2) as Hall.
  { apply Forall_forall. intros X ([tid X'] & -> & Hin)%list_elem_of_fmap.
    apply elem_of_map_to_list, Hcl in Hin as (_ & _ & _ & H2). exact H2. }
  rewrite <- length_map_to_list, <- (length_fmap snd).
  revert Hall.
  generalize (map_to_list (cleaned (clean_transactions T valid_products))).*2.
  intros l Hall. clear -Hall.
  induction Hall as [|X l HX _ IH]; cbn [length sum_list_with]; lia.
Qed.

(** X6: [preprocess_transactions] is idempotent: on the database it
    returned, with the same [valid_products], it returns that database, and
    its report counts no empty or single-item transaction, no invalid item
    and no removal. *)
Theorem preprocess_transactions_idempotent T (valid_products : gset string) :
  let C := (preprocess_transactions T valid_products).1 in
  preprocess_transactions C valid_products
  = (C, join_lines (report_lines (size C) 0 0 0 (size C)
          (total_items (basic_stats C)) (unique_items (basic_stats C)) 0)).
Proof.
  cbv zeta. set (C := (preprocess_transactions T valid_products).1).
  assert (∀ tid X, C !! tid = Some X →
            clean_items valid_products X = X ∧ 2 ≤ size X) as HC.
  { intros tid X HX. unfold C in HX. cbn [preprocess_transactions fst] in HX.
    apply (proj1 (clean_transactions_spec T valid_products)) in HX
      as (items & _ & -> & Hsz).
    split; [|done]. apply clean_items_fixed. intros i. apply clean_items_clean. }
  destruct (clean_transactions_spec C valid_products)
    as (Hcl & He & Hs & Hr & Hlen & Htot & Hi0 & HiV).
  assert (cleaned (clean_transactions C valid_products) = C) as Hsame.
  { apply map_eq. intros tid. apply option_eq. intros X. rewrite Hcl. split.
    - intros (items & Hitems & -> & _). by rewrite (proj1 (HC _ _ Hitems)).
    - intros HX. exists X. destruct (HC _ _ HX) as [Hfix Hsz]. by rewrite Hfix. }
  rewrite filter_length_none in He, Hs.
  2,3: intros [tid X] Hin%elem_of_map_to_list; cbn;
       destruct (HC _ _ Hin) as [-> Hsz]; lia.
  clear Hcl Hi0 HiV.
  assert (invalid_items_count (clean_transactions C valid_products) = 0%Z) as Hinv.
  { clear He Hs Hr Hlen Htot Hsame. unfold clean_transactions.
    apply (foldl_inv (λ (done : list (string * gset string)) (st : Cleaning),
             invalid_items_count st = 0%Z)); [done|].
    intros done [tid X] rest st Hxs Hst.
    assert (C !! tid = Some X) as HX.
    { apply elem_of_map_to_list. rewrite Hxs. apply elem_of_app. right. left. }
    destruct (HC _ _ HX) as [Hfix Hsz].
    assert (∀ i, i ∈ X → standardize_item_name i = i) as Hitems.
    { intros i Hi. rewrite <- Hfix in Hi. by apply clean_items_clean in Hi as [? _]. }
    assert (set_map (D:=gset string) standardize_item_name X = X) as Hstd.
    { apply set_eq. intros i. rewrite elem_of_map. split.
      - intros (j & -> & Hj). by rewrite (Hitems j Hj).
      - intros Hi. exists i. by rewrite (Hitems i Hi). }
    unfold clean_transaction. unfold clean_items in Hfix. rewrite Hstd in *.
    case_decide; repeat case_decide; cbn [invalid_items_count];
      rewrite ?Hfix; lia. }
  unfold preprocess_transactions.
  rewrite all_clean_items_universe, Hsame, He, Hs, Hinv, Hr, He, Hs, Htot, Hsame.
  by rewrite basic_stats_spec.
Qed.

(** ** Recommendations *)

Lemma pair_lt_spec (a b : Q * Q) :
  pair_lt a b = true
  ↔ (a.1 < b.1)%Q ∨ ((a.1 == b.1)%Q ∧ (a.2 < b.2)%Q).
Proof.
  unfold pair_lt.
  destruct (a.1 ?= b.1)%Q eqn:H1.
  - apply Qeq_alt in H1. destruct (a.2 ?= b.2)%Q eqn:H2.
    + apply Qeq_alt in H2. split; [done|]. intros [H|[_ H]].
      * rewrite H1 in H. by apply Qlt_irrefl in H.
      * rewrite H2 in H. by apply Qlt_irrefl in H.
    + apply Qlt_alt in H2. split; [by right|done].
    + apply Qgt_alt in H2. split; [done|]. intros [H|[_ H]].
      * rewrite H1 in H. by apply Qlt_irrefl in H.
      * destruct (Qlt_irrefl _ (Qlt_trans _ _ _ H H2)).
  - apply Qlt_alt in H1. split; [by left|done].
  - apply Qgt_alt in H1. split; [done|]. intros [H|[H _]].
    + destruct (Qlt_irrefl _ (Qlt_trans _ _ _ H H1)).
    + rewrite H in H1. by apply Qlt_irrefl in H1.
Qed.

Lemma pair_lt_false (a b : Rule) :
  pair_lt (confidence a, support a) (confidence b, support b) = false ↔ key_ge a b.
Proof.
  rewrite <- not_true_iff_false, pair_lt_spec. unfold key_ge. cbn [fst snd].
  split.
  - intros Hn.
    destruct (Q_dec (confidence a) (confidence b)) as [[Hlt|Hgt]|Heq].
    + destruct Hn. by left.
    + by left.
    + right. split; [done|]. apply Qnot_lt_le. intros Hlt. apply Hn. by right.
  - intros [Hgt|[Heq Hle]] [Hlt|[Heq' Hlt]].
    + destruct (Qlt_irrefl _ (Qlt_trans _ _ _ Hlt Hgt)).
    + rewrite Heq' in Hgt. by apply Qlt_irrefl in Hgt.
    + rewrite Heq in Hlt. by apply Qlt_irrefl in Hlt.
    + by apply Qle_not_lt in Hle.
Qed.

Lemma key_ge_trans (a b c : Rule) : key_ge a b → key_ge b c → key_ge a c.
Proof.
  unfold key_ge. intros [H1|[H1 H1']] [H2|[H2 H2']].
  - left. exact (Qlt_trans _ _ _ H2 H1).
  - left. by rewrite <- H2.
  - left. by rewrite H1.
  - right. split; [by rewrite H1|exact (Qle_trans _ _ _ H2' H1')].
Qed.

Lemma key_ge_total (a b : Rule) : key_ge a b ∨ key_ge b a.
Proof.
  unfold key_ge.
  destruct (Q_dec (confidence a) (confidence b)) as [[Hlt|Hgt]|Heq].
  - right. by left.
  - left. by left.
  - destruct (Qlt_le_dec (support a) (support b)) as [Hlt|Hle].
    + right. right. split; [by symmetry|by apply Qlt_le_weak].
    + left. by right.
Qed.

Section sort.
Variable key : Rule → Q * Q.
Hypothesis key_is : ∀ r, key r = (confidence r, support r).

Lemma insert_descending_perm (x : Rule) (l : list Rule) :
  insert_descending key x l ≡ₚ x :: l.
Proof.
  induction l as [|y l IH]; [done|]. cbn [insert_descending].
  destruct (pair_lt (key x) (key y)); [|done].
  rewrite IH. apply Permutation_swap.
Qed.

Lemma list_sort_reverse_perm (l : list Rule) : list_sort_reverse key l ≡ₚ l.
Proof.
  induction l as [|x l IH]; [done|]. cbn.
  by rewrite insert_descending_perm, IH.
Qed.

Lemma insert_descending_sorted (x : Rule) (l : list Rule) :
  StronglySorted key_ge l → StronglySorted key_ge (insert_descending key x l).
Proof.
  induction 1 as [|y l Hl IH Hy]; [repeat constructor|].
  cbn [insert_descending]. rewrite !key_is.
  destruct (pair_lt _ _) eqn:Hlt.
  - constructor; [done|]. rewrite insert_descending_perm.
    constructor; [|done].
    destruct (key_ge_total y x) as [|Hxy]; [done|].
    apply pair_lt_false in Hxy. congruence.
  - apply pair_lt_false in Hlt. constructor; [by constructor|].
    constructor; [done|]. eapply Forall_impl; [exact Hy|].
    intros z Hz. by apply (key_ge_trans x y z).
Qed.

Lemma list_sort_reverse_sorted (l : list Rule) :
  StronglySorted key_ge (list_sort_reverse key l).
Proof.
  induction l as [|x l IH]; [constructor|]. by apply insert_descending_sorted.
Qed.

Lemma insert_descending_stable (k x : Rule) (l : list Rule) :
  filter (key_eq k) (insert_descending key x l) = filter (key_eq k) (x :: l).
Proof.
  induction l as [|y l IH]; [done|]. cbn [insert_descending]. rewrite !key_is.
  destruct (pair_lt _ _) eqn:Hlt; [|done].
  rewrite filter_cons, IH, !filter_cons.
  destruct (decide (key_eq k y)) as [Hy|Hy], (decide (key_eq k x)) as [Hx|Hx];
    try done.
  apply pair_lt_spec in Hlt. cbn [fst snd] in Hlt.
  destruct Hx as [Hx1 Hx2], Hy as [Hy1 Hy2].
  rewrite <- Hx1, <- Hx2, <- Hy1, <- Hy2 in Hlt.
  destruct Hlt as [H|[_ H]]; by apply Qlt_irrefl in H.
Qed.

Lemma list_sort_reverse_stable (k : Rule) (l : list Rule) :
  filter (key_eq k) (list_sort_reverse key l) = filter (key_eq k) l.
Proof.
  induction l as [|x l IH]; [done|]. cbn [list_sort_reverse foldr].
  rewrite insert_descending_stable, !filter_cons.
  unfold list_sort_reverse in IH. by rewrite IH.
Qed.

End sort.

(** X7: [rules_for_item] returns the rules whose antecedent holds the
    standardized item, each as often as [rules] has it, with the larger
    confidence first and, for equal confidence, the larger support first;
    rules that agree on both keep the order they have in [rules]. *)
Theorem rules_for_item_sorted (rules : list Rule) (item : string) :
  rules_for_item rules item
    ≡ₚ filter (λ r, standardize_item_name item ∈ antecedent r) rules
  ∧ StronglySorted key_ge (rules_for_item rules item)
  ∧ ∀ k, filter (key_eq k) (rules_for_item rules item)
         = filter (key_eq k)
             (filter (λ r, standardize_item_name item ∈ antecedent r) rules).
Proof.
  unfold rules_for_item. split; [|split].
  - by apply list_sort_reverse_perm.
  - by apply list_sort_reverse_sorted.
  - intros k. by apply list_sort_reverse_stable.
Qed.

(** X8: no rule that [rules_for_item] selects from the output of the rule
    generator recommends the selected item itself: the standardized item is
    in the antecedent, and the consequent is not empty and does not hold
    it. *)
Theorem recommendations_exclude_item (m : gmap Itemset Q) (min_confidence : Q)
    (item : string) :
  ∃ rules, generate_association_rules m min_confidence = Returns rules
    ∧ ∀ r, r ∈ rules_for_item rules item →
        r ∈ rules
        ∧ standardize_item_name item ∈ antecedent r
        ∧ (standardize_item_name item ∉ consequent r)
        ∧ consequent r ≠ ∅.
Proof.
  destruct (generate_association_rules_spec m min_confidence) as (rules & Hrun & Hrules).
  exists rules. split; [done|]. intros r Hr.
  assert (r ∈ filter (λ r, standardize_item_name item ∈ antecedent r) rules) as Hin.
  { revert Hr. unfold rules_for_item. by rewrite list_sort_reverse_perm. }
  clear Hr. rename Hin into Hr. apply list_elem_of_filter in Hr as [Hitem Hr].
  rewrite Forall_forall in Hrules.
  destruct (Hrules r Hr) as (itemset & sup_xy & sup_x & sup_y & Hxy & Hsub & Hsz
    & Hcons & _).
  split; [done|]. split; [done|]. split.
  - rewrite Hcons. set_solver.
  - rewrite Hcons. apply itemset_size_pos. rewrite size_difference by done. lia.
Qed.

(** X9: an item of a database that [preprocess_transactions] returned is its
    own standardized name, so [rules_for_item] selects for it the rules
    that have this very item in the antecedent. *)
Theorem rules_for_cleaned_item T (valid_products : gset string)
    (rules : list Rule) (item : string) :
  item ∈ item_universe (preprocess_transactions T valid_products).1 →
  standardize_item_name item = item
  ∧ rules_for_item rules item ≡ₚ filter (λ r, item ∈ antecedent r) rules.
Proof.
  intros (tid & X & HX & Hitem)%elem_of_item_universe.
  cbn [preprocess_transactions fst] in HX.
  apply (proj1 (clean_transactions_spec T valid_products)) in HX
    as (items & _ & -> & _).
  apply clean_items_clean in Hitem as [Hstd _]. split; [done|].
  unfold rules_for_item. by rewrite list_sort_reverse_perm, Hstd.
Qed.

Lemma rules_for_cleaned_item_witness :
  standardize_item_name "milk" = "milk"
  ∧ rules_for_item [mkRule {[ "milk" ]} {[ "bread" ]} (1 # 2) 1 2] "milk"
      ≡ₚ filter (λ r, "milk" ∈ antecedent r)
           [mkRule {[ "milk" ]} {[ "bread" ]} (1 # 2) 1 2].
Proof.
  apply (rules_for_cleaned_item
           {[ "t1" := {[ " Milk"; "milk "; "Bread"; "Soap" ]} ]}
           {[ "milk"; "bread" ]}).
  apply elem_of_item_universe. exists "t1", {[ "milk"; "bread" ]}.
  split; [|set_solver].
  apply preprocess_transactions_kept_example.
Defined.

(** ** More on the engines *)

(** X10: for [k >= 1], [_generate_candidates] returns, each once, the unions
    of two itemsets at different positions of [prev_frequents] that have
    [k] items and all of whose subsets of [k - 1] items are in
    [prev_frequents]. *)
Theorem generate_candidates_joins (prev_frequents : list Itemset) (k : nat) :
  1 ≤ k →
  NoDup (_generate_candidates prev_frequents k)
  ∧ ∀ I, I ∈ _generate_candidates prev_frequents k
      ↔ size I = k
        ∧ (∃ i j A B, i < j ∧ prev_frequents !! i = Some A
                      ∧ prev_frequents !! j = Some B ∧ I = A ∪ B)
        ∧ ∀ J : Itemset, J ⊆ I → size J = k - 1 → J ∈ prev_frequents.
Proof.
  intros _. split; [apply NoDup_generate_candidates|].
  intros I. rewrite _generate_candidates_spec. unfold joins. split.
  - intros (i & j & [Hij Hj] & -> & Hsz & Hsub).
    split; [done|]. split; [|done].
    destruct (lookup_lt_is_Some_2 prev_frequents i) as [A HA]; [lia|].
    destruct (lookup_lt_is_Some_2 prev_frequents j) as [B HB]; [lia|].
    exists i, j, A, B.
    by rewrite (list_lookup_total_correct _ _ _ HA), (list_lookup_total_correct _ _ _ HB).
  - intros (Hsz & (i & j & A & B & Hij & HA & HB & ->) & Hsub).
    exists i, j. split; [split; [done|by eapply lookup_lt_Some]|].
    by rewrite (list_lookup_total_correct _ _ _ HA), (list_lookup_total_correct _ _ _ HB).
Qed.

Lemma generate_candidates_joins_witness :
  NoDup (_generate_candidates [{["a"]}; {["b"]}; {["c"]}] 2)
  ∧ ∀ I, I ∈ _generate_candidates [{["a"]}; {["b"]}; {["c"]}] 2
      ↔ size I = 2
        ∧ (∃ i j A B, i < j ∧ [{["a"]}; {["b"]}; {["c"]}] !! i = Some A
                      ∧ [{["a"]}; {["b"]}; {["c"]}] !! j = Some B ∧ I = A ∪ B)
        ∧ ∀ J : Itemset, J ⊆ I → size J = 2 - 1
            → J ∈ [({["a"]} : Itemset); {["b"]}; {["c"]}].
Proof. apply (generate_candidates_joins [{["a"]}; {["b"]}; {["c"]}] 2). lia. Defined.

(** X11: [build_vertical_representation] returns without a [KeyError]; the
    keys of the index are the items of the database, and the TID-set of an
    item is not empty and holds the ids of the transactions that contain
    the item. *)
Theorem vertical_index T :
  ∃ vertical, build_vertical_representation T = Returns vertical
    ∧ dom vertical = item_universe T
    ∧ ∀ item tids, vertical !! item = Some tids →
        tids ≠ ∅
        ∧ ∀ tid, tid ∈ tids ↔ ∃ items, T !! tid = Some items ∧ item ∈ items.
Proof.
  destruct (build_vertical_representation_spec T) as (v & Hv & Hlook).
  exists v. split; [done|]. split.
  - apply set_eq. intros item. rewrite elem_of_dom, Hlook.
    case_decide; [by split|]. split; [by intros [? ?]|done].
  - intros item tids. rewrite Hlook. case_decide as Hitem; [|done].
    intros [= <-].
    assert (∀ tid, tid ∈ tids_of T {[item]}
                   ↔ ∃ items, T !! tid = Some items ∧ item ∈ items) as Htids.
    { intros tid. rewrite elem_of_tids_of. by setoid_rewrite singleton_subseteq_l. }
    split; [|done].
    apply elem_of_item_universe in Hitem as (tid & items & HT & Hin).
    assert (tid ∈ tids_of T {[item]}) by (apply Htids; eauto). set_solver.
Qed.

(** X12: with the rounding of binary64, an itemset is a key of the map that
    [apriori] returns when, and only when, it is not empty, its items occur
    in the database, and each of its non-empty parts [J], the itemset itself
    included, passes the test [count(J) / n_trans >= min_support]; the value
    of a key is its count over [n_trans].  No such itemset is missed. *)
Theorem apriori_finds_all (clock : Binary64.timer) T (min_support : float) :
  Binary64.fits T →
  ∃ m, Binary64.apriori clock T min_support = Returns (m, Binary64.elapsed clock)
    ∧ ∀ (I : Itemset) (v : float),
        m !! I = Some v
        ↔ (I ≠ ∅ ∧ I ⊆ item_universe T
           ∧ ∀ J : Itemset, J ≠ ∅ → J ⊆ I →
               PrimFloat.leb min_support
                 (PrimFloat.div (Binary64.of_int (support_count T J))
                                (Binary64.of_int (size T))) = true)
          ∧ v = PrimFloat.div (Binary64.of_int (support_count T I))
                              (Binary64.of_int (size T)).
Proof. intros _. apply binary64_apriori_returns. Qed.

Lemma apriori_finds_all_witness :
  ∃ m, Binary64.apriori Binary64.zero_clock scenario_db 0.5
       = Returns (m, Binary64.elapsed Binary64.zero_clock)
    ∧ ∀ (I : Itemset) (v : float),
        m !! I = Some v
        ↔ (I ≠ ∅ ∧ I ⊆ item_universe scenario_db
           ∧ ∀ J : Itemset, J ≠ ∅ → J ⊆ I →
               PrimFloat.leb 0.5
                 (PrimFloat.div (Binary64.of_int (support_count scenario_db J))
                                (Binary64.of_int (size scenario_db))) = true)
          ∧ v = PrimFloat.div (Binary64.of_int (support_count scenario_db I))
                              (Binary64.of_int (size scenario_db)).
Proof.
  apply (apriori_finds_all Binary64.zero_clock scenario_db 0.5).
  vm_compute. reflexivity.
Defined.

(** X13: when [math.ceil(min_support * n_trans)] returns [c], [eclat]
    returns, and an itemset is a key of its map when, and only when, it is not
    empty and the number of transactions that contain it reaches
    [max(1, c)]; the value of a key is its count over [n_trans]. *)
Theorem eclat_finds_all (clock : Binary64.timer) T (min_support : float) (c : Z) :
  Binary64.fits T →
  Binary64.math_ceil (PrimFloat.mul min_support (Binary64.of_int (size T)))
    = Returns c →
  ∃ m, Binary64.eclat clock T min_support = Returns (m, Binary64.elapsed clock)
    ∧ ∀ (I : Itemset) (v : float),
        m !! I = Some v
        ↔ (I ≠ ∅ ∧ (Z.max 1 c ≤ Z.of_nat (support_count T I))%Z)
          ∧ v = PrimFloat.div (Binary64.of_int (support_count T I))
                              (Binary64.of_int (size T)).
Proof.
  intros _ Hc.
  destruct (binary64_eclat_returns clock T min_support (Z.max 1 c)) as (m & Hrun & Hm).
  { unfold Binary64.min_sup_count. by rewrite Hc. }
  exists m. split; [done|]. intros I v. rewrite Hm.
  fold (Binary64.support_of T I). unfold Binary64.kept_by_eclat.
  case_decide as HI.
  - split; [by intros [= <-]|by intros [_ ->]].
  - split; [done|]. by intros [? _].
Qed.

Lemma eclat_finds_all_witness :
  ∃ m, Binary64.eclat Binary64.zero_clock scenario_db 0.5
       = Returns (m, Binary64.elapsed Binary64.zero_clock)
    ∧ ∀ (I : Itemset) (v : float),
        m !! I = Some v
        ↔ (I ≠ ∅ ∧ (Z.max 1 2 ≤ Z.of_nat (support_count scenario_db I))%Z)
          ∧ v = PrimFloat.div (Binary64.of_int (support_count scenario_db I))
                              (Binary64.of_int (size scenario_db)).
Proof.
  apply (eclat_finds_all Binary64.zero_clock scenario_db 0.5 2).
  - vm_compute. reflexivity.
  - vm_compute. reflexivity.
Defined.



Lemma size_set_map_inj (f : Itemset → Itemset) (D : gset Itemset) :
  (∀ a b, a ∈ D → b ∈ D → f a = f b → a = b) →
  size (set_map (D:=gset Itemset) f D) = size D.
Proof.
  intros Hinj. unfold set_map. rewrite size_list_to_set.
  - rewrite length_fmap. done.
  - apply NoDup_fmap_2_strong; [|apply NoDup_elements].
    intros a b Ha%elem_of_elements Hb%elem_of_elements. by apply Hinj.
Qed.

(** A set of [n] items has [2 ^ n] subsets. *)
Lemma size_subsets (U : gset string) :
  ∀ D : gset Itemset, (∀ I, I ∈ D ↔ I ⊆ U) → size D = 2 ^ size U.
Proof.
  induction U as [|x U Hx IH] using set_ind_L; intros D HD.
  - assert (D = {[∅]}) as ->.
    { apply set_eq. intros I. rewrite HD, elem_of_singleton. set_solver. }
    by rewrite size_singleton, size_empty.
  - pose (D1 := filter (λ I : Itemset, x ∉ I) D).
    pose (D2 := filter (λ I : Itemset, x ∈ I) D).
    assert (D = D1 ∪ D2) as HD12.
    { apply set_eq. intros I. unfold D1, D2.
      rewrite elem_of_union, !elem_of_filter.
      destruct (decide (x ∈ I)); tauto. }
    assert (D1 ## D2) as Hdisj.
    { intros I. unfold D1, D2. rewrite !elem_of_filter. tauto. }
    assert (size D1 = 2 ^ size U) as H1.
    { apply IH. intros I. unfold D1. rewrite elem_of_filter, HD. set_solver. }
    assert (size (set_map (D:=gset Itemset) (λ I : Itemset, I ∖ {[x]}) D2)
            = 2 ^ size U) as H2.
    { apply IH. intros I. rewrite elem_of_map. unfold D2. split.
      - intros (J & -> & [HxJ HJ%HD]%elem_of_filter). set_solver.
      - intros HI. exists ({[x]} ∪ I). split; [set_solver|].
        apply elem_of_filter. split; [set_solver|]. apply HD. set_solver. }
    rewrite size_set_map_inj in H2.
    + rewrite HD12, size_union, H1, H2 by done.
      rewrite size_union, size_singleton by set_solver.
      cbn [Nat.pow Nat.add]. lia.
    + unfold D2. intros a b [Ha _]%elem_of_filter [Hb _]%elem_of_filter Hab.
      apply set_eq. intros z. destruct (decide (z = x)) as [->|Hz]; [tauto|].
      assert (z ∈ a ∖ {[x]} ↔ z ∈ b ∖ {[x]}) as Hiff by (by rewrite Hab).
      set_solver.
Qed.

(** X16: at [min_support <= 0] nothing is pruned: [apriori] returns every
    non-empty set of items of the database, [2 ^ n - 1] entries for [n]
    different items. *)
Theorem apriori_without_threshold (clock : timer) T (min_support : Q) :
  (min_support <= 0)%Q →
  ∃ m, apriori clock T min_support = Returns (m, elapsed clock)
    ∧ (∀ I : Itemset, I ∈ dom m ↔ I ≠ ∅ ∧ I ⊆ item_universe T)
    ∧ size m = 2 ^ size (item_universe T) - 1.
Proof.
  intros Hs. destruct (apriori_returns clock T min_support) as (m & Hrun & Hm).
  exists m. split; [done|].
  assert (∀ I : Itemset, I ∈ dom m ↔ I ≠ ∅ ∧ I ⊆ item_universe T) as Hdom.
  { intros I. rewrite elem_of_dom, Hm. unfold frequent_apriori.
    case_decide as HI.
    - split; [tauto|by eauto].
    - split; [by intros [? ?]|]. intros [Hne Hsub]. destruct HI.
      split; [done|]. split; [done|]. apply Qle_bool_iff.
      exact (Qle_trans _ _ _ Hs (proj1 (support_of_range T I))). }
  split; [done|].
  rewrite <- size_dom.
  rewrite <- (size_subsets (item_universe T) ({[∅]} ∪ dom m)).
  - rewrite size_union, size_singleton; [lia|].
    intros I ->%elem_of_singleton [Hne _]%Hdom. done.
  - intros I. rewrite elem_of_union, elem_of_singleton, Hdom.
    destruct (decide (I = ∅)) as [->|]; [set_solver|tauto].
Qed.

Lemma apriori_without_threshold_witness :
  ∃ m, apriori zero_clock scenario_db 0 = Returns (m, elapsed zero_clock)
    ∧ (∀ I : Itemset, I ∈ dom m ↔ I ≠ ∅ ∧ I ⊆ item_universe scenario_db)
    ∧ size m = 2 ^ size (item_universe scenario_db) - 1.
Proof. apply (apriori_without_threshold zero_clock scenario_db 0). discriminate. Defined.

(** ** What [_eclat_recursive] does to its arguments *)

Lemma triple_any {A} (P : Store.heap → Prop) (m : Store.M A) :
  triple P m (λ _ _, True).
Proof. by intros h a h' _ _. Qed.

(** The loop of [_eclat_recursive] ends when the list is empty. *)
Lemma _eclat_recursive_empties (fuel : nat) (prefix : Itemset)
    (items_tids results : Store.loc) (min_support_count : Z) (n : nat) :
  triple (λ _, True)
    (Store._eclat_recursive fuel prefix items_tids min_support_count results n)
    (λ _ h, h !! items_tids = Some (Store.OWork [])).
Proof.
  revert prefix items_tids.
  assert (∀ l, triple (λ _, True) (Store.get_work l)
                 (λ w h, h !! l = Some (Store.OWork w))) as Hget.
  { intros l h w h' _ Hrun. unfold Store.get_work in Hrun.
    destruct (h !! l) as [[]|] eqn:Hl; by simplify_eq. }
  induction fuel as [|fuel IH]; intros prefix items_tids;
    cbn [Store._eclat_recursive];
    (eapply StoreLogic.triple_bind; [apply Hget|]); intros w;
    destruct (list_pop w) as [[[item tids] rest]|] eqn:Hpop.
  - apply StoreLogic.triple_out_of_fuel.
  - apply list_pop_None in Hpop as ->. by apply StoreLogic.triple_ret.
  - eapply StoreLogic.triple_bind; [apply triple_any|]. intros ?.
    eapply StoreLogic.triple_bind; [apply triple_any|]. intros tids_now.
    eapply StoreLogic.triple_pre with (P' := λ _, True); [done|].
    case_bool_decide; [|apply IH].
    eapply StoreLogic.triple_bind; [apply triple_any|]. intros support.
    eapply StoreLogic.triple_pre with (P' := λ _, True); [done|].
    eapply StoreLogic.triple_bind; [apply triple_any|]. intros ?.
    eapply StoreLogic.triple_pre with (P' := λ _, True); [done|].
    eapply StoreLogic.triple_bind; [apply triple_any|]. intros new_items_tids.
    eapply StoreLogic.triple_pre with (P' := λ _, True); [done|].
    eapply StoreLogic.triple_bind; [apply triple_any|]. intros work.
    eapply StoreLogic.triple_pre with (P' := λ _, True); [done|].
    eapply StoreLogic.triple_bind; [apply triple_any|]. intros ?.
    eapply StoreLogic.triple_pre with (P' := λ _, True); [done|].
    eapply StoreLogic.triple_bind; [apply triple_any|]. intros ?.
    eapply StoreLogic.triple_pre with (P' := λ _, True); [done|].
    apply IH.
  - apply list_pop_None in Hpop as ->. by apply StoreLogic.triple_ret.
Qed.

(** With one unit of fuel for each entry of the list, and a positive number
    of transactions to divide by, [_eclat_recursive] returns; it keeps the
    keys that [results] has. *)
Lemma _eclat_recursive_total (fuel : nat) (min_support_count : Z) (n : nat) :
  0 < n →
  ∀ (prefix : Itemset) (its : list (string * TIDSet)) (res : gmap Itemset Q),
    length its ≤ fuel →
    ∃ res', _eclat_recursive fuel prefix its min_support_count res n = Returns res'
      ∧ dom res ⊆ dom res'.
Proof.
  intros Hn. induction fuel as [|fuel IH]; intros prefix its res Hlen.
  - destruct its; [|cbn in Hlen; lia]. by exists res.
  - cbn [_eclat_recursive].
    destruct (list_pop its) as [[[item tids] rest]|] eqn:Hpop; [|by exists res].
    apply list_pop_Some in Hpop as ->. rewrite length_app in Hlen. cbn in Hlen.
    case_bool_decide.
    + unfold py_truediv_int. destruct n as [|n']; [lia|].
      cbn [mbind outcome_bind].
      set (new := foldl _ [] rest).
      destruct (new_items_tids_spec tids min_support_count rest new eq_refl)
        as [Hsub _].
      apply sublist_length in Hsub. rewrite !length_fmap in Hsub.
      destruct (IH (prefix ∪ {[item]}) new
                  (<[prefix ∪ {[item]} := (inject_Z (Z.of_nat (size tids))
                       / inject_Z (Z.of_nat (S n')))%Q]> res))
        as (res1 & -> & Hres1); [lia|].
      cbn [mbind outcome_bind].
      destruct (IH prefix rest res1) as (res2 & -> & Hres2); [lia|].
      exists res2. split; [done|].
      rewrite dom_insert in Hres1. set_solver.
    + apply IH. lia.
Qed.

(** X17: [_eclat_recursive] consumes the list it is given.  On a store where
    the list entries refer to sets, with fuel for each entry and a positive
    [total_transactions], the call returns; after it the caller's list is
    empty, the caller's [results] holds what the call on the values
    returns, which has every key that [results] had, and no other object
    that was in the store has changed. *)
Theorem eclat_recursive_consumes_its_list (fuel : nat) (prefix : Itemset)
    (items_tids results : Store.loc) (min_support_count : Z) (n : nat)
    (h : Store.heap) (w : list (string * Store.loc))
    (its : list (string * TIDSet)) (res : gmap Itemset Q) :
  h !! items_tids = Some (Store.OWork w) →
  work_rel h w its →
  h !! results = Some (Store.OFreq res) →
  length w ≤ fuel →
  0 < n →
  ∃ h' res',
    Store._eclat_recursive fuel prefix items_tids min_support_count results n h
      = Returns (tt, h')
    ∧ _eclat_recursive fuel prefix its min_support_count res n = Returns res'
    ∧ h' !! items_tids = Some (Store.OWork [])
    ∧ h' !! results = Some (Store.OFreq res')
    ∧ dom res ⊆ dom res'
    ∧ unchanged_but {[items_tids; results]} h h'.
Proof.
  intros Hw Hrel Hres Hlen Hn.
  destruct (_eclat_recursive_total fuel min_support_count n Hn prefix its res)
    as (res' & Hpure & Hdom).
  { by rewrite <- (Forall2_length _ _ _ Hrel). }
  pose proof (_eclat_recursive_run fuel prefix items_tids results min_support_count
                n h w its res Hw Hrel Hres) as Hrun.
  rewrite Hpure in Hrun. unfold refines in Hrun.
  destruct (Store._eclat_recursive fuel prefix items_tids min_support_count results n h)
    as [[[] h']| |] eqn:Hstore; [|done|done].
  destruct Hrun as [Hres' Hun].
  exists h', res'. split; [done|]. split; [done|]. split; [|done].
  by apply (_eclat_recursive_empties fuel prefix items_tids results
              min_support_count n h tt h' I Hstore).
Qed.

Lemma eclat_recursive_consumes_its_list_witness :
  ∃ h' res',
    Store._eclat_recursive 1 ∅ 2%positive 1 3%positive 1 work_store = Returns (tt, h')
    ∧ _eclat_recursive 1 ∅ [("a", {[ "t1" ]})] 1 ∅ 1 = Returns res'
    ∧ h' !! 2%positive = Some (Store.OWork [])
    ∧ h' !! 3%positive = Some (Store.OFreq res')
    ∧ dom (∅ : gmap Itemset Q) ⊆ dom res'
    ∧ unchanged_but {[2%positive; 3%positive]} work_store h'.
Proof.
  apply (eclat_recursive_consumes_its_list 1 ∅ 2%positive 3%positive 1 1 work_store
           [("a", 1%positive)] [("a", {[ "t1" ]})] ∅).
  - reflexivity.
  - constructor; [|constructor]. split; reflexivity.
  - reflexivity.
  - cbn. lia.
  - lia.
Defined.

(** ** Every rule once *)

Lemma NoDup_combinations_sets (l : list string) (r : nat) :
  NoDup l → NoDup (list_to_set (C:=Itemset) <$> combinations l r).
Proof.
  intros Hl. revert r. induction Hl as [|x l Hx Hl IH]; intros r.
  - destruct r; cbn; [apply NoDup_singleton|constructor].
  - destruct r as [|r]; [cbn; apply NoDup_singleton|].
    cbn [combinations]. rewrite fmap_app, <- list_fmap_compose.
    assert (∀ t k, t ∈ combinations l k → x ∉ list_to_set (C:=Itemset) t) as Hnot.
    { intros t k [Hsub _]%elem_of_combinations Hin%elem_of_list_to_set.
      apply Hx. by eapply elem_of_sublist. }
    apply NoDup_app. split; [|split].
    + apply NoDup_fmap_2_strong.
      * intros t1 t2 H1 H2 Heq. cbn in Heq.
        assert (list_to_set (C:=Itemset) t1 = list_to_set t2) as Hsets.
        { pose proof (Hnot _ _ H1). pose proof (Hnot _ _ H2). set_solver. }
        assert (NoDup (list_to_set (C:=Itemset) <$> combinations l r)) as Hnd
          by apply IH.
        apply list_elem_of_lookup in H1 as [i1 Hi1].
        apply list_elem_of_lookup in H2 as [i2 Hi2].
        assert (i1 = i2) as ->; [|congruence].
        eapply NoDup_lookup; [exact Hnd| |].
        -- rewrite list_lookup_fmap, Hi1. reflexivity.
        -- rewrite list_lookup_fmap, Hi2. cbn. by rewrite Hsets.
      * eapply NoDup_fmap_1, IH.
    + intros I (t1 & -> & H1)%list_elem_of_fmap (t2 & Heq & H2)%list_elem_of_fmap.
      cbn in Heq. apply (Hnot _ _ H2). rewrite <- Heq. set_solver.
    + apply IH.
Qed.

(** X18: the rule generator emits every rule once: no two entries of the list
    it returns have the same antecedent and the same consequent. *)
Theorem rules_without_duplicates (m : gmap Itemset Q) (min_confidence : Q) :
  ∃ rules, generate_association_rules m min_confidence = Returns rules
    ∧ NoDup ((λ r, (antecedent r, consequent r)) <$> rules).
Proof.
  pose (rk := λ r : Rule, (antecedent r, consequent r)).
  pose (U := λ r : Rule, antecedent r ∪ consequent r).
  unfold generate_association_rules.
  destruct (for_each_inv
    (λ (done : list (Itemset * Q)) (rules : list Rule),
       NoDup (rk <$> rules) ∧ ∀ r, r ∈ rules → U r ∈ done.*1)
    (map_to_list m)
    (λ '(itemset, sup_xy) rules,
       if decide (size itemset < 2) then Returns rules else
       let items := elements itemset in
       for_each (seq 1 (length items - 1)) (λ r rules,
         for_each (combinations items r) (λ antecedent_tuple rules,
           let antecedent : Itemset := list_to_set antecedent_tuple in
           let consequent := itemset ∖ antecedent in
           let sup_x := default 0%Q (m !! antecedent) in
           let sup_y := default 0%Q (m !! consequent) in
           if Qeq_bool sup_x 0 || Qeq_bool sup_y 0 then Returns rules else
           conf ← py_truediv sup_xy sup_x;
           if Qle_bool min_confidence conf then
             lift ← py_truediv conf sup_y;
             Returns (rules ++ [mkRule antecedent consequent sup_xy conf lift])
           else Returns rules)
         rules)
       rules) []) as (rules & Hrun & Hnd & _); [split; [constructor|]| |by exists rules].
  { by intros r ?%elem_of_nil. }
  intros done [itemset sup_xy] rest rules Hxs [Hnd Hin].
  assert (itemset ∉ done.*1) as Hfresh.
  { pose proof (NoDup_fst_map_to_list m) as Hkeys. rewrite Hxs, fmap_app in Hkeys.
    apply NoDup_app in Hkeys as (_ & Hkeys & _).
    intros Hi. apply (Hkeys _ Hi). left. }
  assert (∀ rules', NoDup (rk <$> rules') →
            (∀ r, r ∈ rules' → U r ∈ done.*1 ∨ U r = itemset) →
            NoDup (rk <$> rules')
            ∧ ∀ r, r ∈ rules' → U r ∈ (done ++ [(itemset, sup_xy)]).*1) as Hend.
  { intros rules' Hnd' Hin'. split; [done|]. intros r Hr. rewrite fmap_app.
    apply elem_of_app. destruct (Hin' r Hr) as [?| ->]; [by left|right; left]. }
  case_decide as Hsz.
  { exists rules. split; [done|]. apply Hend; [done|]. intros r Hr. left. by apply Hin. }
  cbv zeta.
  destruct (for_each_inv
    (λ (done_r : list nat) (rules : list Rule),
       NoDup (rk <$> rules)
       ∧ ∀ r, r ∈ rules → U r ∈ done.*1
                           ∨ (U r = itemset ∧ size (antecedent r) ∈ done_r))
    (seq 1 (length (elements itemset) - 1))
    (λ r rules,
       for_each (combinations (elements itemset) r) (λ antecedent_tuple rules,
         let antecedent : Itemset := list_to_set antecedent_tuple in
         let consequent := itemset ∖ antecedent in
         let sup_x := default 0%Q (m !! antecedent) in
         let sup_y := default 0%Q (m !! consequent) in
         if Qeq_bool sup_x 0 || Qeq_bool sup_y 0 then Returns rules else
         conf ← py_truediv sup_xy sup_x;
         if Qle_bool min_confidence conf then
           lift ← py_truediv conf sup_y;
           Returns (rules ++ [mkRule antecedent consequent sup_xy conf lift])
         else Returns rules)
       rules) rules) as (rules1 & Hrun1 & Hnd1 & Hin1).
  { split; [done|]. intros r Hr. left. by apply Hin. }
  2:{ exists rules1. split; [exact Hrun1|]. apply Hend; [done|].
      intros r Hr. destruct (Hin1 r Hr) as [?|[? _]]; [by left|by right]. }
  clear rules Hnd Hin Hend.
  intros done_r k rest_r rules Hseq [Hnd Hin].
  assert (k ∉ done_r) as Hk.
  { pose proof (NoDup_seq 1 (length (elements itemset) - 1)) as Hs.
    rewrite Hseq in Hs. apply NoDup_app in Hs as (_ & Hs & _).
    intros Hi. apply (Hs _ Hi). left. }
  destruct (for_each_inv
    (λ (done_t : list (list string)) (rules : list Rule),
       NoDup (rk <$> rules)
       ∧ ∀ r, r ∈ rules →
           U r ∈ done.*1
           ∨ (U r = itemset
              ∧ (size (antecedent r) ∈ done_r
                 ∨ (size (antecedent r) = k
                    ∧ antecedent r ∈ list_to_set (C:=Itemset) <$> done_t))))
    (combinations (elements itemset) k)
    (λ antecedent_tuple rules,
       let antecedent : Itemset := list_to_set antecedent_tuple in
       let consequent := itemset ∖ antecedent in
       let sup_x := default 0%Q (m !! antecedent) in
       let sup_y := default 0%Q (m !! consequent) in
       if Qeq_bool sup_x 0 || Qeq_bool sup_y 0 then Returns rules else
       conf ← py_truediv sup_xy sup_x;
       if Qle_bool min_confidence conf then
         lift ← py_truediv conf sup_y;
         Returns (rules ++ [mkRule antecedent consequent sup_xy conf lift])
       else Returns rules) rules) as (rules2 & Hrun2 & Hnd2 & Hin2).
  { split; [done|]. intros r Hr.
    destruct (Hin r Hr) as [?|[? ?]]; [by left|right; split; [done|by left]]. }
  2:{ exists rules2. split; [exact Hrun2|]. split; [done|]. intros r Hr.
      destruct (Hin2 r Hr) as [?|[HU [?|[Hsz' _]]]]; [by left|right..].
      - split; [done|]. apply elem_of_app. by left.
      - split; [done|]. apply elem_of_app. right. rewrite Hsz'. left. }
  clear rules Hnd Hin.
  intros done_t tuple rest_t rules Hcomb [Hnd Hin]. cbv zeta.
  set (A := list_to_set (C:=Itemset) tuple).
  assert (A ∉ list_to_set (C:=Itemset) <$> done_t) as HA.
  { pose proof (NoDup_combinations_sets (elements itemset) k (NoDup_elements itemset))
      as Hc. rewrite Hcomb, fmap_app in Hc.
    apply NoDup_app in Hc as (_ & Hc & _). intros Hi. apply (Hc _ Hi). left. }
  destruct (proj1 (subsets_combinations itemset A k)) as [Hsub HszA].
  { exists tuple. split; [|done]. rewrite Hcomb. apply elem_of_app. right. left. }
  assert (∀ r, r ∈ rules →
            U r ∈ done.*1
            ∨ (U r = itemset
               ∧ (size (antecedent r) ∈ done_r
                  ∨ (size (antecedent r) = k
                     ∧ antecedent r ∈ list_to_set (C:=Itemset) <$> (done_t ++ [tuple])))))
    as Hin'.
  { intros r Hr. destruct (Hin r Hr) as [?|[HU [?|[? ?]]]]; [by left|right..].
    - split; [done|by left].
    - split; [done|]. right. split; [done|]. rewrite fmap_app. apply elem_of_app. by left. }
  destruct (Qeq_bool (default 0%Q (m !! A)) 0) eqn:Hx; [by exists rules|].
  destruct (Qeq_bool (default 0%Q (m !! (itemset ∖ A))) 0) eqn:Hy; [by exists rules|].
  cbn [orb]. rewrite py_truediv_nonzero by done. cbn [mbind outcome_bind].
  destruct (Qle_bool min_confidence _); [|by exists rules].
  rewrite py_truediv_nonzero by done.
  cbn [mbind outcome_bind]. eexists. split; [done|]. split.
  - rewrite fmap_app. apply NoDup_app. split; [done|]. split; [|apply NoDup_singleton].
    intros key (r0 & -> & Hr0)%list_elem_of_fmap Hkey%list_elem_of_singleton.
    unfold rk in Hkey. cbn [antecedent consequent] in Hkey.
    injection Hkey as Ha Hc.
    assert (U r0 = itemset) as HU0.
    { unfold U. rewrite Ha, Hc. apply set_eq. intros z.
      destruct (decide (z ∈ A)); set_solver. }
    destruct (Hin r0 Hr0) as [Hd|[_ [Hd|[_ Hd]]]].
    + rewrite HU0 in Hd. done.
    + rewrite Ha, HszA in Hd. done.
    + rewrite Ha in Hd. done.
  - intros r [Hr| ->%list_elem_of_singleton]%elem_of_app; [by apply Hin'|].
    right. unfold U. cbn [antecedent consequent]. split.
    + apply set_eq. intros z. destruct (decide (z ∈ A)); set_solver.
    + right. split; [done|]. rewrite fmap_app. apply elem_of_app. right. left.
Qed.

(** ** The objects of the index *)

(** X19: the index that [build_vertical_representation] returns shares no
    object with its argument.  On a store that holds the database the call
    returns the index of the database in a new dict, whose TID-sets are new
    set objects, one for each item, and every object of the store before the
    call is unchanged. *)
Theorem vertical_index_is_new (h : Store.heap) (transactions : Store.loc) T :
  holds_db h transactions T →
  ∃ vertical h' vd v,
    Store.build_vertical_representation transactions h = Returns (vertical, h')
    ∧ build_vertical_representation T = Returns v
    ∧ h ⊆ h'
    ∧ (vertical ∉ dom h)
    ∧ h' !! vertical = Some (Store.ODb vd)
    ∧ dom vd = dom v
    ∧ (∀ item l, vd !! item = Some l →
         (l ∉ dom h) ∧ ∃ tids, v !! item = Some tids ∧ h' !! l = Some (Store.OSet tids))
    ∧ ∀ i j l, vd !! i = Some l → vd !! j = Some l → i = j.
Proof.
  intros Hdb.
  destruct (build_vertical_representation_spec T) as (v & Hv & _).
  pose proof (build_vertical_representation_run h transactions T Hdb) as Hrun.
  rewrite Hv in Hrun. unfold refines in Hrun.
  destruct (Store.build_vertical_representation transactions h)
    as [[vertical h']| |]; [|done|done].
  destruct Hrun as (-> & vd & Hsub & Hvd & -> & Hsets & Hinj).
  exists (fresh (dom h)), h', vd, (set_at h' <$> vd).
  split; [done|]. split; [done|]. split; [done|].
  split; [apply is_fresh|]. split; [done|].
  split; [by rewrite dom_fmap_L|]. split; [|done].
  intros item l Hl. destruct (Hsets item l Hl) as [Hset Hnew].
  split; [done|]. exists (set_at h' l). split; [|done].
  by rewrite lookup_fmap, Hl.
Qed.

Lemma vertical_index_is_new_witness :
  ∃ vertical h' vd v,
    Store.build_vertical_representation scenario_store.1 scenario_store.2
      = Returns (vertical, h')
    ∧ build_vertical_representation scenario_db = Returns v
    ∧ scenario_store.2 ⊆ h'
    ∧ (vertical ∉ dom scenario_store.2)
    ∧ h' !! vertical = Some (Store.ODb vd)
    ∧ dom vd = dom v
    ∧ (∀ item l, vd !! item = Some l →
         (l ∉ dom scenario_store.2)
         ∧ ∃ tids, v !! item = Some tids ∧ h' !! l = Some (Store.OSet tids))
    ∧ ∀ i j l, vd !! i = Some l → vd !! j = Some l → i = j.
Proof.
  apply (vertical_index_is_new scenario_store.2 scenario_store.1 scenario_db).
  exact scenario_store_holds.
Defined.

(** ** From the cleaned database to the rules *)

